(** * Bit-vector valuations of the SLS engine (ast/sls/sls_valuation.{h,cpp})

    A shallow embedding of [bv::bvect] and [bv::sls_valuation] and the
    properties of the valuation engine that the specification states.

    Conventions of the embedding.
    - [digit_t] is [unsigned int]: a word is a [Z] in [0, 2^32); every
      operation that can leave that range is followed by [wrap].
    - A [bvect] is the word array of the [svector<digit_t>], word 0 least
      significant.  The per-vector copies of [bw], [nw] and [mask] are the
      ones of the owning valuation (the constructor calls [set_bw(bw)] on
      each of its five vectors), so operators that read [a.nw] take the
      word count as an argument.
    - Indices ([unsigned]) are [nat]; reading past the end of a vector
      yields 0 and writing past the end is dropped (the source asserts
      that neither happens).
    - A call that mutates an argument returns the new value of it. *)

From Stdlib Require Import ZArith List Bool Lia PeanoNat.
Import ListNotations.
Local Open Scope Z_scope.

(** ** Machine words *)

Definition digit_t := Z.

(** [8 * sizeof(digit_t)] *)
Definition digit_bits : nat := 32.

Definition wB : Z := 2 ^ 32.

Definition wrap (x : Z) : digit_t := x mod wB.

(** [~x] on [digit_t] *)
Definition wnot (x : digit_t) : digit_t := wrap (Z.lnot x).

(** [(digit_t)1 << k] and [1 << k] for [k < 32] *)
Definition wshl1 (k : nat) : digit_t := wrap (Z.shiftl 1 (Z.of_nat k)).

Definition word_ok (w : Z) : Prop := 0 <= w < wB.

(** ** bvect *)

Definition bvect := list digit_t.

Definition words_ok (v : bvect) : Prop := Forall word_ok v.

(** [v[i]] *)
Definition wd (v : bvect) (i : nat) : digit_t := nth i v 0.

(** [v[i] = x] *)
Fixpoint upd (v : bvect) (i : nat) (x : digit_t) : bvect :=
  match v, i with
  | [], _ => []
  | _ :: t, O => x :: t
  | h :: t, S j => h :: upd t j x
  end.

(** [bvect::set_bw]: the word count and the mask of the top word. *)
Definition nw_of (bw : nat) : nat := (bw + digit_bits - 1) / digit_bits.

Definition mask_of (bw : nat) : digit_t :=
  let m := wrap (Z.shiftl 1 (Z.of_nat (bw mod digit_bits)) - 1) in
  if m =? 0 then wnot 0 else m.

(** [reserve(n)]: grow to [n] words, new words are zero. *)
Definition reserve (v : bvect) (n : nat) : bvect :=
  v ++ repeat 0 (n - length v).

Definition get_pos_mask (bit_idx : nat) : digit_t :=
  wshl1 (bit_idx mod digit_bits).

Definition get_bit_word (v : bvect) (bit_idx : nat) : digit_t :=
  wd v (bit_idx / digit_bits).

(** [bvect::get] *)
Definition get (v : bvect) (bit_idx : nat) : bool :=
  negb (Z.land (get_bit_word v bit_idx) (get_pos_mask bit_idx) =? 0).

(** [bvect::set]: [w ^= (_val ^ w) & pos_mask] with [_val = 0 - val]. *)
Definition set (v : bvect) (bit_idx : nat) (val : bool) : bvect :=
  let _val := wrap (0 - (if val then 1 else 0)) in
  let w := get_bit_word v bit_idx in
  upd v (bit_idx / digit_bits)
      (Z.lxor w (Z.land (Z.lxor _val w) (get_pos_mask bit_idx))).

(** [bvect::copy_to(nw, dst)] and [sls_valuation::set(dst, src)]:
    [for i < nw: dst[i] = src[i]]. *)
Definition copy_to (src : bvect) (n : nat) (dst : bvect) : bvect :=
  fold_left (fun d i => upd d i (wd src i)) (seq 0 n) dst.

(** [bvect::get_value(nw)]: [r += p * v[i]; p *= 2^32] for [i < nw]. *)
Fixpoint get_value (n : nat) (v : bvect) : Z :=
  match n with
  | O => 0
  | S k => get_value k v + 2 ^ (32 * Z.of_nat k) * wd v k
  end.

(** Modelled from the spec: [mpn_manager::compare] (util/mpn.cpp) is not
    among the sources.  It is the "unsigned multi-word comparison from
    most-significant word down" of two arrays of [n] words. *)
Fixpoint mpn_compare (a b : bvect) (n : nat) : comparison :=
  match n with
  | O => Eq
  | S k =>
      match wd a k ?= wd b k with
      | Eq => mpn_compare a b k
      | c => c
      end
  end.

(** The comparison operators of [bvect]; [n] is [a.nw]. *)
Definition beq (n : nat) (a b : bvect) : bool :=
  match mpn_compare a b n with Eq => true | _ => false end.
Definition blt (n : nat) (a b : bvect) : bool :=
  match mpn_compare a b n with Lt => true | _ => false end.
Definition bgt (n : nat) (a b : bvect) : bool :=
  match mpn_compare a b n with Gt => true | _ => false end.
Definition ble (n : nat) (a b : bvect) : bool :=
  match mpn_compare a b n with Gt => false | _ => true end.
Definition bge (n : nat) (a b : bvect) : bool :=
  match mpn_compare a b n with Lt => false | _ => true end.
Definition bne (n : nat) (a b : bvect) : bool := negb (beq n a b).

(** ** sls_valuation *)

Record sls_valuation : Type := mk_valuation {
  m_bits : bvect;
  m_lo : bvect;
  m_hi : bvect;
  m_signed_prefix : nat;
  mask : digit_t;
  bw : nat;
  nw : nat;
  fixed : bvect;
  eval : bvect
}.

Definition with_bits (v : sls_valuation) (x : bvect) : sls_valuation :=
  mk_valuation x (m_lo v) (m_hi v) (m_signed_prefix v) (mask v) (bw v) (nw v)
               (fixed v) (eval v).
Definition with_lo (v : sls_valuation) (x : bvect) : sls_valuation :=
  mk_valuation (m_bits v) x (m_hi v) (m_signed_prefix v) (mask v) (bw v) (nw v)
               (fixed v) (eval v).
Definition with_hi (v : sls_valuation) (x : bvect) : sls_valuation :=
  mk_valuation (m_bits v) (m_lo v) x (m_signed_prefix v) (mask v) (bw v) (nw v)
               (fixed v) (eval v).
Definition with_fixed (v : sls_valuation) (x : bvect) : sls_valuation :=
  mk_valuation (m_bits v) (m_lo v) (m_hi v) (m_signed_prefix v) (mask v) (bw v)
               (nw v) x (eval v).
Definition with_eval (v : sls_valuation) (x : bvect) : sls_valuation :=
  mk_valuation (m_bits v) (m_lo v) (m_hi v) (m_signed_prefix v) (mask v) (bw v)
               (nw v) (fixed v) x.
Definition set_signed (v : sls_valuation) (prefix : nat) : sls_valuation :=
  mk_valuation (m_bits v) (m_lo v) (m_hi v) prefix (mask v) (bw v) (nw v)
               (fixed v) (eval v).

(** The constructor [sls_valuation(bw)]: every vector is reserved to
    [nw + 1] zero words, then [fixed[nw - 1] = ~mask]. *)
Definition new_valuation (b : nat) : sls_valuation :=
  let n := nw_of b in
  let m := mask_of b in
  let z := reserve [] (n + 1) in
  mk_valuation z z z 0 m b n (upd z (n - 1) (wnot m)) z.

(** [has_overflow] *)
Definition has_overflow (v : sls_valuation) (x : bvect) : bool :=
  negb (0 =? Z.land (wd x (nw v - 1)) (wnot (mask v))).

(** [clear_overflow_bits] *)
Definition clear_overflow_bits (v : sls_valuation) (x : bvect) : bvect :=
  upd x (nw v - 1) (Z.land (wd x (nw v - 1)) (mask v)).

(** [in_range] *)
Definition in_range (v : sls_valuation) (x : bvect) : bool :=
  match mpn_compare (m_lo v) (m_hi v) (nw v) with
  | Eq => true
  | Lt =>
      match mpn_compare (m_lo v) x (nw v) with Gt => false | _ => true end
      && match mpn_compare x (m_hi v) (nw v) with Lt => true | _ => false end
  | Gt =>
      match mpn_compare (m_lo v) x (nw v) with Gt => false | _ => true end
      || match mpn_compare x (m_hi v) (nw v) with Lt => true | _ => false end
  end.

(** The loop shared by [commit_eval] and [can_set]:
    [for i < nw: if (0 != (fixed[i] & (a[i] ^ b[i]))) return false]. *)
Fixpoint agree_from (f a b : bvect) (i cnt : nat) : bool :=
  match cnt with
  | O => true
  | S c =>
      if negb (0 =? Z.land (wd f i) (Z.lxor (wd a i) (wd b i))) then false
      else agree_from f a b (S i) c
  end.

Definition agree_fixed (v : sls_valuation) (a b : bvect) : bool :=
  agree_from (fixed v) a b 0 (nw v).

(** [can_set] *)
Definition can_set (v : sls_valuation) (new_bits : bvect) : bool :=
  if agree_fixed v new_bits (m_bits v) then in_range v new_bits else false.

(** [commit_eval] *)
Definition commit_eval (v : sls_valuation) : bool * sls_valuation :=
  if negb (agree_fixed v (m_bits v) (eval v)) then (false, v)
  else if negb (in_range v (eval v)) then (false, v)
  else (true, with_bits v (copy_to (eval v) (nw v) (m_bits v))).

Definition has_range (v : sls_valuation) : bool :=
  bne (nw v) (m_lo v) (m_hi v).

Definition well_formed (v : sls_valuation) : bool :=
  negb (has_overflow v (m_bits v))
  && (negb (has_range v) || in_range v (m_bits v)).

(** [lo()], [hi()], [get_value()], [get_eval()] *)
Definition lo (v : sls_valuation) : Z := get_value (nw v) (m_lo v).
Definition hi (v : sls_valuation) : Z := get_value (nw v) (m_hi v).
Definition bits_value (v : sls_valuation) : Z := get_value (nw v) (m_bits v).
Definition get_eval (v : sls_valuation) : Z := get_value (nw v) (eval v).

Definition get_bit (v : sls_valuation) (i : nat) : bool := get (m_bits v) i.

(** [set(src)]: [eval[i] = src[i]] for every [i < nw] (the source runs [i]
    downwards; the writes are independent), then [clear_overflow_bits]. *)
Definition set_eval (v : sls_valuation) (src : bvect) : sls_valuation :=
  with_eval v (clear_overflow_bits v (copy_to src (nw v) (eval v))).

(** [try_set] *)
Definition try_set (v : sls_valuation) (src : bvect) : bool * sls_valuation :=
  if negb (can_set v src) then (false, v) else (true, set_eval v src).

(** [try_set_bit]; note that the range test reads [m_bits], as in the
    source. *)
Definition try_set_bit (v : sls_valuation) (i : nat) (b : bool)
  : bool * sls_valuation :=
  if get (fixed v) i && negb (Bool.eqb (get_bit v i) b) then (false, v)
  else
    let v1 := with_eval v (set (eval v) i b) in
    if in_range v1 (m_bits v1) then (true, v1)
    else (false, with_eval v1 (set (eval v1) i (negb b))).

(** [set_range(dst, lo, hi, b)] *)
Definition set_range (dst : bvect) (l h : nat) (b : bool) : bvect :=
  fold_left (fun d i => set d i b) (seq l (h - l)) dst.

(** [try_set_range(dst, lo, hi, b)] *)
Definition try_set_range (v : sls_valuation) (dst : bvect) (l h : nat) (b : bool)
  : bool * bvect :=
  if existsb (fun i => get (fixed v) i && negb (Bool.eqb (get_bit v i) b))
             (seq l (h - l))
  then (false, dst)
  else (true, set_range dst l h b).

(** [sub1]: the loop from bit [i], [cnt] bits left. *)
Fixpoint sub1_from (out : bvect) (i cnt : nat) : bvect :=
  match cnt with
  | O => out
  | S c => if get out i then set out i false
           else sub1_from (set out i true) (S i) c
  end.

Definition sub1 (v : sls_valuation) (out : bvect) : bvect :=
  sub1_from out 0 (bw v).

(** [is_zero(a)], [is_ones(a)] *)
Definition is_zero (v : sls_valuation) (a : bvect) : bool :=
  forallb (fun i => wd a i =? 0) (seq 0 (nw v - 1))
  && (Z.land (wd a (nw v - 1)) (mask v) =? 0).

Definition is_ones (v : sls_valuation) (a : bvect) : bool :=
  forallb (fun i => 0 =? wnot (wd a i)) (seq 0 (nw v - 1))
  && (0 =? Z.land (mask v) (wnot (wd a (nw v - 1)))).

(** [round_up(dst)] and [round_down(dst)], the clamping variants. *)
Definition round_up (v : sls_valuation) (dst : bvect) : bool * bvect :=
  if blt (nw v) (m_lo v) (m_hi v) then
    if ble (nw v) (m_hi v) dst then (false, dst)
    else if bgt (nw v) (m_lo v) dst then (true, copy_to (m_lo v) (nw v) dst)
    else (true, dst)
  else if ble (nw v) (m_hi v) dst && bgt (nw v) (m_lo v) dst
       then (true, copy_to (m_lo v) (nw v) dst)
  else (true, dst).

Definition round_down (v : sls_valuation) (dst : bvect) : bool * bvect :=
  if blt (nw v) (m_lo v) (m_hi v) then
    if bgt (nw v) (m_lo v) dst then (false, dst)
    else if ble (nw v) (m_hi v) dst
         then (true, sub1 v (copy_to (m_hi v) (nw v) dst))
    else (true, dst)
  else if ble (nw v) (m_hi v) dst && bgt (nw v) (m_lo v) dst
       then (true, sub1 v (copy_to (m_hi v) (nw v) dst))
  else (true, dst).

(** Modelled from the spec: [log2] (util/util.h) is not among the sources.
    It is the position of the most significant set bit of a non-zero
    word. *)
Definition log2 (w : digit_t) : Z := Z.log2 w.

(** [get_at_most]: the scan [for (i = nw; i-- > 0; )] with [cnt = i + 1]. *)
Fixpoint at_most_scan (v : sls_valuation) (src dst : bvect) (cnt : nat) : bvect :=
  match cnt with
  | O => dst
  | S i =>
      let d := Z.land (wnot (wd dst i)) (wd src i) in
      if negb (0 =? d) then
        let idx := log2 d in
        let mask := wrap (Z.shiftl 1 idx - 1) in
        let dst1 :=
          upd dst i (Z.lor (Z.land (wnot (wd (fixed v) i)) mask) (wd dst i)) in
        fold_left
          (fun d j => upd d j (Z.lor (wnot (wd (fixed v) j)) (wd (m_bits v) j)))
          (rev (seq 0 i)) dst1
      else at_most_scan v src dst i
  end.

Definition get_at_most (v : sls_valuation) (src dst : bvect) : bool * bvect :=
  let dst0 :=
    fold_left
      (fun d i =>
         upd d i (Z.land (wd src i)
                         (Z.lor (wnot (wd (fixed v) i)) (wd (m_bits v) i))))
      (seq 0 (nw v)) dst in
  round_down v (at_most_scan v src dst0 (nw v)).

(** [get_at_least] *)
Fixpoint at_least_scan (v : sls_valuation) (src dst : bvect) (cnt : nat) : bvect :=
  match cnt with
  | O => dst
  | S i =>
      let d := Z.land (wd dst i) (wnot (wd src i)) in
      if negb (0 =? d) then
        let idx := log2 d in
        let mask := wrap (Z.shiftl 1 idx) in
        let dst1 := upd dst i (Z.land (wd dst i) (Z.lor (wd (fixed v) i) mask)) in
        fold_left
          (fun d j => upd d j (Z.land (wd d j) (wd (fixed v) j)))
          (rev (seq 0 i)) dst1
      else at_least_scan v src dst i
  end.

Definition get_at_least (v : sls_valuation) (src dst : bvect) : bool * bvect :=
  let dst0 :=
    fold_left
      (fun d i =>
         upd d i (Z.lor (Z.land (wnot (wd (fixed v) i)) (wd src i))
                        (Z.land (wd (fixed v) i) (wd (m_bits v) i))))
      (seq 0 (nw v)) dst in
  round_up v (at_least_scan v src dst0 (nw v)).

(** [repair_sign_bits].  Both loops are [for (i = bw; i-- >= bw - prefix; )]:
    the body runs for [i = bw - 1] down to [bw - prefix - 1].  The model is
    the source for [prefix < bw]; beyond that the unsigned loop condition
    of the source is always true. *)
Definition sign_range (v : sls_valuation) : list nat :=
  rev (seq (bw v - m_signed_prefix v - 1) (m_signed_prefix v + 1)).

Fixpoint repair_sign_loop (v : sls_valuation) (sign : bool) (dst : bvect)
         (idxs : list nat) : bvect :=
  match idxs with
  | [] => dst
  | i :: rest =>
      if negb (Bool.eqb (get dst i) sign) then
        if get (fixed v) i then
          fold_left
            (fun d j => if negb (get (fixed v) j) then set d j (negb sign) else d)
            (sign_range v) dst
        else repair_sign_loop v sign (set dst i sign) rest
      else repair_sign_loop v sign dst rest
  end.

Definition repair_sign_bits (v : sls_valuation) (dst : bvect) : bvect :=
  if (m_signed_prefix v =? 0)%nat then dst
  else repair_sign_loop v (get dst (bw v - 1)) dst (sign_range v).

(** [round_down(dst, is_feasible)]:
    [for (i = bw; !is_feasible(dst) && i-- > 0; )], with [cnt = i]. *)
Fixpoint round_down_loop (v : sls_valuation) (is_feasible : bvect -> bool)
         (dst : bvect) (cnt : nat) : bvect :=
  if is_feasible dst then dst
  else match cnt with
       | O => dst
       | S i =>
           round_down_loop v is_feasible
             (if negb (get (fixed v) i) && get dst i then set dst i false else dst)
             i
       end.

Definition round_down_pred (v : sls_valuation) (dst : bvect)
           (is_feasible : bvect -> bool) : bvect :=
  repair_sign_bits v (round_down_loop v is_feasible dst (bw v)).

(** [round_up(dst, is_feasible)]:
    [for (i = 0; !is_feasible(dst) && i < bw; ++i)], [cnt = bw - i]. *)
Fixpoint round_up_loop (v : sls_valuation) (is_feasible : bvect -> bool)
         (dst : bvect) (i cnt : nat) : bvect :=
  if is_feasible dst then dst
  else match cnt with
       | O => dst
       | S c =>
           round_up_loop v is_feasible
             (if negb (get (fixed v) i) && negb (get dst i) then set dst i true
              else dst)
             (S i) c
       end.

Definition round_up_pred (v : sls_valuation) (dst : bvect)
           (is_feasible : bvect -> bool) : bvect :=
  repair_sign_bits v (round_up_loop v is_feasible dst 0 (bw v)).

(** [set_repair(try_down, dst)]; [try_down] is not read by the source.
    [dst.set_bw(bw)] reserves [nw + 1] words; the comparisons that follow
    read [nw] words. *)
Definition set_repair (v : sls_valuation) (try_down : bool) (dst : bvect)
  : bool * sls_valuation * bvect :=
  let dst :=
    fold_left
      (fun d i =>
         upd d i (Z.lor (Z.land (wnot (wd (fixed v) i)) (wd d i))
                        (Z.land (wd (fixed v) i) (wd (m_bits v) i))))
      (seq 0 (nw v)) dst in
  let dst := repair_sign_bits v dst in
  if in_range v dst then (true, with_eval v (copy_to dst (nw v) (eval v)), dst)
  else
    let dst := reserve dst (nw_of (bw v) + 1) in
    let dst :=
      if blt (nw v) (m_lo v) (m_hi v) then
        let dst :=
          round_down_loop v
            (fun d => negb (ble (nw v) (m_hi v) d && negb (in_range v d)))
            dst (bw v) in
        round_up_loop v
          (fun d => negb (blt (nw v) d (m_lo v) && negb (in_range v d)))
          dst 0 (bw v)
      else
        let dst := round_up_loop v (in_range v) dst 0 (bw v) in
        round_down_loop v (in_range v) dst (bw v) in
    let dst := repair_sign_bits v dst in
    if in_range v dst then (true, with_eval v (copy_to dst (nw v) (eval v)), dst)
    else (false, v, dst).

(** [set_value(bits, n)] *)
Definition set_value (v : sls_valuation) (x : bvect) (n : Z) : bvect :=
  clear_overflow_bits v
    (fold_left (fun d i => set d i (Z.testbit n (Z.of_nat i))) (seq 0 (bw v)) x).

(** [tighten_range], second phase: [for (i = bw; i-- > 0; )], [cnt = i + 1]. *)
Fixpoint tighten_lo (v : sls_valuation) (cnt : nat) : sls_valuation :=
  match cnt with
  | O => v
  | S i =>
      if negb (get (fixed v) i) then tighten_lo v i
      else if Bool.eqb (get (m_bits v) i) (get (m_lo v) i) then tighten_lo v i
      else if get (m_bits v) i then
        with_lo v
          (fold_left
             (fun l j => set l j (get (fixed v) j && get (m_bits v) j))
             (rev (seq 0 i)) (set (m_lo v) i true))
      else
        with_lo v
          (fold_left
             (fun l j => set l j (get (fixed v) j && get (m_bits v) j))
             (rev (seq 0 (bw v))) (m_lo v))
  end.

(** [tighten_range], first phase, the branch that is not [compatible]. *)
Definition tighten_bits (v : sls_valuation) : bvect :=
  let tmp := reserve (repeat 0 (nw v)) (nw_of (bw v) + 1) in
  let tmp := copy_to (m_lo v) (nw v) tmp in
  let max_diff :=
    fold_left
      (fun md i =>
         if get (fixed v) i && xorb (get (m_bits v) i) (get (m_lo v) i)
         then i else md)
      (seq 0 (bw v)) (bw v) in
  let tmp :=
    fold_left (fun t i => set t i (get (fixed v) i && get (m_bits v) i))
              (seq 0 (max_diff + 1)) tmp in
  let '(tmp, _) :=
    fold_left
      (fun (st : bvect * bool) i =>
         let '(t, found0) := st in
         if found0 || get (m_lo v) i || get (fixed v) i
         then (set t i (get (m_lo v) i && get (fixed v) i), found0)
         else (set t i true, true))
      (seq (max_diff + 1) (bw v - (max_diff + 1))) (tmp, false) in
  tmp.

Definition tighten_range (v : sls_valuation) : sls_valuation :=
  if beq (nw v) (m_lo v) (m_hi v) then v
  else
    let v1 :=
      if negb (in_range v (m_bits v)) then
        if agree_fixed v (m_bits v) (m_lo v)
        then with_bits v (copy_to (m_lo v) (nw v) (m_bits v))
        else with_bits v (copy_to (tighten_bits v) (nw v) (m_bits v))
      else v in
    tighten_lo v1 (bw v1).

(** [add_range(l, h)] up to the call of [tighten_range]. *)
Definition intersect_range (v : sls_valuation) (l h : Z) : sls_valuation :=
  if beq (nw v) (m_lo v) (m_hi v) then
    let v1 := with_lo v (set_value v (m_lo v) l) in
    with_hi v1 (set_value v1 (m_hi v1) h)
  else
    let old_lo := lo v in
    let old_hi := hi v in
    if old_lo <? old_hi then
      let '(v1, old_lo) :=
        if (old_lo <? l) && (l <? old_hi)
        then (with_lo v (set_value v (m_lo v) l), l) else (v, old_lo) in
      if (old_hi <? h) && (h <? old_hi)
      then with_hi v1 (set_value v1 (m_hi v1) h) else v1
    else
      let '(v1, old_lo) :=
        if (old_lo <? l) || (l <? old_hi)
        then (with_lo v (set_value v (m_lo v) l), l) else (v, old_lo) in
      if (old_lo <? h) && (h <? old_hi)
      then with_hi v1 (set_value v1 (m_hi v1) h)
      else if (old_hi <? old_lo) && ((h <? old_hi) || (old_lo <? h))
           then with_hi v1 (set_value v1 (m_hi v1) h)
      else v1.

(** [add_range] *)
Definition add_range (v : sls_valuation) (l h : Z) : sls_valuation :=
  let l := l mod 2 ^ Z.of_nat (bw v) in
  let h := h mod 2 ^ Z.of_nat (bw v) in
  if h =? l then v else tighten_range (intersect_range v l h).

(** [to_nat]: the inner scan [for (j = i; j < bw; ++j) if (d.get(j)) ...] *)
Fixpoint any_bit (d : bvect) (j cnt : nat) : bool :=
  match cnt with
  | O => false
  | S c => if get d j then true else any_bit d (S j) c
  end.

(** [to_nat]: the outer loop at index [i] with [cnt = bw - i]. *)
Fixpoint to_nat_loop (d : bvect) (max_n : Z) (i cnt : nat) (p value : Z) : Z :=
  match cnt with
  | O => value
  | S c =>
      if max_n <=? p then (if any_bit d i cnt then max_n else value)
      else to_nat_loop d max_n (S i) c (wrap (Z.shiftl p 1))
                       (if get d i then wrap (value + p) else value)
  end.

Definition UINT_MAX : Z := wB - 1.

Definition to_nat (v : sls_valuation) (max_n : Z) : Z :=
  to_nat_loop (m_bits v) max_n 0 (bw v) 1 0.

(** The [k] least significant words of a non-negative integer. *)
Fixpoint to_words (k : nat) (x : Z) : bvect :=
  match k with
  | O => []
  | S j => (x mod wB) :: to_words j (x / wB)
  end.

(** Modelled from the spec: [mpn_manager::add] and [mpn_manager::mul]
    (util/mpn.cpp) are not among the sources.  They are the "multi-word
    integer ALU" of the arithmetic backend: for operands of [n] words,
    [add] writes the [n + 1] words of the exact sum (the last one is the
    carry) and [mul] writes the [2 n] words of the exact product. *)
Definition mpn_add (a b : bvect) (n : nat) : bvect :=
  to_words (n + 1) (get_value n a + get_value n b).

Definition mpn_mul (a b : bvect) (n : nat) : bvect :=
  to_words (2 * n) (get_value n a * get_value n b).

(** [set_add] *)
Definition set_add (v : sls_valuation) (out a b : bvect) : bool * bvect :=
  let out := copy_to (mpn_add a b (nw v)) (nw v + 1) out in
  let ovfl := negb (wd out (nw v) =? 0) || has_overflow v out in
  (ovfl, clear_overflow_bits v out).

(** [set_mul] *)
Definition set_mul (v : sls_valuation) (out a b : bvect) (check_overflow : bool)
  : bool * bvect :=
  let out := copy_to (mpn_mul a b (nw v)) (2 * nw v) out in
  let ovfl :=
    if check_overflow then
      fold_left (fun o i => o || negb (wd out i =? 0)) (seq (nw v) (nw v))
                (has_overflow v out)
    else false in
  (ovfl, clear_overflow_bits v out).

(** ** Randomized sampling

    The random generator is an argument of the samplers; its stream is
    abstract here: [rand g] is one call [r()]. *)
Section Sampling.

Variable random_gen : Type.
Variable rand : random_gen -> Z * random_gen.

(** [random_bits]: [r ^= rand() << (8 * i)] for [i < sizeof(digit_t)]. *)
Definition random_bits (g : random_gen) : digit_t * random_gen :=
  fold_left
    (fun (st : digit_t * random_gen) i =>
       let '(r, g) := st in
       let '(x, g) := rand g in
       (Z.lxor r (wrap (Z.shiftl x (8 * i))), g))
    [0; 1; 2; 3] (0, g).

(** [set_random_above] *)
Definition set_random_above (v : sls_valuation) (dst : bvect) (g : random_gen)
  : bvect * random_gen :=
  let '(dst, g) :=
    fold_left
      (fun (st : bvect * random_gen) i =>
         let '(d, g) := st in
         let '(x, g) := random_bits g in
         (upd d i (Z.lor (wd d i) (Z.land x (wnot (wd (fixed v) i)))), g))
      (seq 0 (nw v)) (dst, g) in
  (repair_sign_bits v dst, g).

(** [set_random_below]; [None] stands for [idx == UINT_MAX]. *)
Definition set_random_below (v : sls_valuation) (dst : bvect) (g : random_gen)
  : bvect * random_gen :=
  if is_zero v dst then (dst, g)
  else
    let '(n, idx, g) :=
      fold_left
        (fun (st : Z * option nat * random_gen) i =>
           let '(n, idx, g) := st in
           if get dst i && negb (get (fixed v) i) then
             let '(x, g) := rand g in
             let n := n + 1 in
             if x mod n =? 0 then (n, Some i, g) else (n, idx, g)
           else st)
        (seq 0 (bw v)) (0, None, g) in
    match idx with
    | None => (dst, g)
    | Some idx =>
        let '(dst, g) :=
          fold_left
            (fun (st : bvect * random_gen) i =>
               let '(d, g) := st in
               if negb (get (fixed v) i) then
                 let '(x, g) := rand g in (set d i (x mod 2 =? 0), g)
               else st)
            (seq 0 idx) (set dst idx false, g) in
        (repair_sign_bits v dst, g)
    end.

Definition sampled : Type := bool * sls_valuation * bvect * random_gen.

(** [return try_set(tmp)] *)
Definition ret_try_set (v : sls_valuation) (tmp : bvect) (g : random_gen)
  : sampled :=
  let '(ok, v) := try_set v tmp in (ok, v, tmp, g).

(** [set_random_at_most] *)
Definition set_random_at_most (v : sls_valuation) (src tmp : bvect)
           (g : random_gen) : sampled :=
  let '(ok, tmp) := get_at_most v src tmp in
  if negb ok then (false, v, tmp, g)
  else if is_zero v tmp then ret_try_set v tmp g
  else
    let '(x, g) := rand g in
    if 0 =? x mod 2 then ret_try_set v tmp g
    else
      let '(tmp, g) := set_random_below v tmp g in
      if beq (nw v) (m_lo v) (m_hi v) || is_zero v (m_lo v)
         || ble (nw v) (m_lo v) tmp
      then ret_try_set v tmp g
      else
        let '(ok, tmp) := get_at_most v src tmp in
        if ok then ret_try_set v tmp g else (false, v, tmp, g).

(** [set_random_at_least] *)
Definition set_random_at_least (v : sls_valuation) (src tmp : bvect)
           (g : random_gen) : sampled :=
  let '(ok, tmp) := get_at_least v src tmp in
  if negb ok then (false, v, tmp, g)
  else if is_ones v tmp then ret_try_set v tmp g
  else
    let '(x, g) := rand g in
    if 0 =? x mod 2 then ret_try_set v tmp g
    else
      let '(tmp, g) := set_random_above v tmp g in
      if beq (nw v) (m_lo v) (m_hi v) || is_zero v (m_hi v)
         || bgt (nw v) (m_hi v) tmp
      then ret_try_set v tmp g
      else
        let '(ok, tmp) := get_at_least v src tmp in
        if ok then ret_try_set v tmp g else (false, v, tmp, g).

(** [set_random_in_range(lo, hi, tmp, r)] *)
Definition set_random_in_range (v : sls_valuation) (l h tmp : bvect)
           (g : random_gen) : sampled :=
  let '(x, g) := rand g in
  if 0 =? x mod 2 then
    let '(ok, tmp) := get_at_least v l tmp in
    if negb ok then (false, v, tmp, g)
    else if blt (nw v) h tmp then (false, v, tmp, g)
    else if is_ones v tmp then ret_try_set v tmp g
    else
      let '(x, g) := rand g in
      if 0 =? x mod 2 then ret_try_set v tmp g
      else
        let '(tmp, g) := set_random_above v tmp g in
        let tmp :=
          round_down_pred v tmp (fun t => bge (nw v) h t && in_range v t) in
        if in_range v tmp && ble (nw v) l tmp && bge (nw v) h tmp
        then ret_try_set v tmp g
        else
          let '(ok, tmp) := get_at_least v l tmp in
          if ok && bge (nw v) h tmp then ret_try_set v tmp g
          else (false, v, tmp, g)
  else
    let '(ok, tmp) := get_at_most v h tmp in
    if negb ok then (false, v, tmp, g)
    else if bgt (nw v) l tmp then (false, v, tmp, g)
    else if is_zero v tmp then ret_try_set v tmp g
    else
      let '(x, g) := rand g in
      if 0 =? x mod 2 then ret_try_set v tmp g
      else
        let '(tmp, g) := set_random_below v tmp g in
        let tmp :=
          round_up_pred v tmp (fun t => ble (nw v) l t && in_range v t) in
        if in_range v tmp && ble (nw v) l tmp && bge (nw v) h tmp
        then ret_try_set v tmp g
        else
          let '(ok, tmp) := get_at_most v h tmp in
          if ok && ble (nw v) l tmp then ret_try_set v tmp g
          else (false, v, tmp, g).

End Sampling.

(** The result of a sampler: its return value and the valuation. *)
Definition sampled_ok {G : Type} (r : sampled G) : bool := fst (fst (fst r)).
Definition sampled_val {G : Type} (r : sampled G) : sls_valuation :=
  snd (fst (fst r)).

(** ** The remaining operations of the valuation *)

(** [is_one(a)] *)
Definition is_one (v : sls_valuation) (a : bvect) : bool :=
  forallb (fun i => 0 =? wd a i) (seq 1 (nw v - 1)) && (1 =? wd a 0).

(** [sign()] *)
Definition sign (v : sls_valuation) : bool := get (m_bits v) (bw v - 1).

(** [set_zero(out)], [set_one(out)] and [set(dst, v)] for an [unsigned v] *)
Definition set_zero (v : sls_valuation) (out : bvect) : bvect :=
  fold_left (fun d i => upd d i 0) (seq 0 (nw v)) out.

Definition set_one (v : sls_valuation) (out : bvect) : bvect :=
  upd (fold_left (fun d i => upd d i 0) (seq 1 (nw v - 1)) out) 0 1.

Definition set_unsigned (v : sls_valuation) (dst : bvect) (x : digit_t) : bvect :=
  fold_left (fun d i => upd d i 0) (seq 1 (nw v - 1)) (upd dst 0 x).

(** [get(dst)] *)
Definition get_bits (v : sls_valuation) (dst : bvect) : bvect :=
  copy_to (m_bits v) (nw v) dst.

(** [min_feasible(out)] and [max_feasible(out)] *)
Definition min_feasible (v : sls_valuation) (out : bvect) : bvect :=
  repair_sign_bits v
    (if blt (nw v) (m_lo v) (m_hi v) then copy_to (m_lo v) (nw v) out
     else fold_left
            (fun d i => upd d i (Z.land (wd (fixed v) i) (wd (m_bits v) i)))
            (seq 0 (nw v)) out).

Definition max_feasible (v : sls_valuation) (out : bvect) : bvect :=
  repair_sign_bits v
    (if blt (nw v) (m_lo v) (m_hi v)
     then sub1 v (copy_to (m_hi v) (nw v) out)
     else fold_left
            (fun d i =>
               upd d i (Z.lor (wnot (wd (fixed v) i)) (wd (m_bits v) i)))
            (seq 0 (nw v)) out).

(** [msb(src)]: the scan [for (i = nw; i-- > 0; )] with [cnt = i + 1]. *)
Fixpoint msb_scan (bw : nat) (src : bvect) (cnt : nat) : Z :=
  match cnt with
  | O => Z.of_nat bw
  | S i =>
      if negb (wd src i =? 0)
      then Z.of_nat (i * 8 * 4) + log2 (wd src i)
      else msb_scan bw src i
  end.

Definition msb (v : sls_valuation) (src : bvect) : Z :=
  msb_scan (bw v) src (nw v).

(** [shift_right(out, shift)] *)
Definition shift_right (v : sls_valuation) (out : bvect) (shift : nat) : bvect :=
  fold_left
    (fun d i =>
       set d i (if (i + shift <? bw v)%nat then get (m_bits v) (i + shift)
                else false))
    (seq 0 (bw v)) out.

(** Modelled from the spec: [mpn_manager::sub] (util/mpn.cpp) is not among
    the sources.  For operands of [n] words it writes the [n] words of the
    difference, with "unsigned modular semantics". *)
Definition mpn_sub (a b : bvect) (n : nat) : bvect :=
  to_words n (get_value n a - get_value n b).

(** [set_sub] *)
Definition set_sub (v : sls_valuation) (out a b : bvect) : bvect :=
  clear_overflow_bits v (copy_to (mpn_sub a b (nw v)) (nw v) out).

(** [get_variant(dst, r)] *)
Definition get_variant (random_gen : Type) (rand : random_gen -> Z * random_gen)
           (v : sls_valuation) (dst : bvect) (g : random_gen)
  : bvect * random_gen :=
  let '(dst, g) :=
    fold_left
      (fun (st : bvect * random_gen) i =>
         let '(d, g) := st in
         let '(x, g) := random_bits random_gen rand g in
         (upd d i (Z.lor (Z.land x (wnot (wd (fixed v) i)))
                         (Z.land (wd (fixed v) i) (wd (m_bits v) i))), g))
      (seq 0 (nw v)) (dst, g) in
  (clear_overflow_bits v (repair_sign_bits v dst), g).

(** ** Representation invariant

    The shape the constructor establishes and the source relies on: the
    metadata is the one [set_bw] computes, every vector holds at least
    [nw] words, and every word is a 32-bit value. *)
Definition shaped (v : sls_valuation) (x : bvect) : Prop :=
  (nw v <= length x)%nat /\ words_ok x.

Definition valuation_ok (v : sls_valuation) : Prop :=
  (0 < bw v)%nat /\ nw v = nw_of (bw v) /\ mask v = mask_of (bw v)
  /\ shaped v (m_bits v) /\ shaped v (m_lo v) /\ shaped v (m_hi v)
  /\ shaped v (fixed v) /\ shaped v (eval v).

(** The bits at positions [>= bw] of the top word are marked fixed. *)
Definition overflow_fixed (v : sls_valuation) : Prop :=
  Z.land (wd (fixed v) (nw v - 1)) (wnot (mask v)) = wnot (mask v).

(** Two vectors agree on every fixed bit position. *)
Definition agree_on_fixed (v : sls_valuation) (a b : bvect) : Prop :=
  forall i : nat,
    (i < digit_bits * nw v)%nat -> get (fixed v) i = true -> get a i = get b i.

(** [b] has the bits of [a] at every fixed position. *)
Definition keeps_fixed (v : sls_valuation) (a b : bvect) : Prop :=
  forall j : nat, get (fixed v) j = true -> get b j = get a j.

(** The scratch vector a sampler hands back. *)
Definition sampled_tmp {G : Type} (r : sampled G) : bvect := snd (fst r).

(** A sampler's result is sound: if it reports success, the vector it
    hands back passes [can_set] and [eval] has been set from it. *)
Definition sampler_sound {G : Type} (v : sls_valuation) (r : sampled G) : Prop :=
  sampled_ok r = true ->
  can_set v (sampled_tmp r) = true
  /\ sampled_val r = set_eval v (sampled_tmp r).

(** The representation invariant together with range bounds below
    [2^bw]. *)
Definition range_ok (v : sls_valuation) : Prop :=
  valuation_ok v /\ has_overflow v (m_lo v) = false
  /\ has_overflow v (m_hi v) = false.

(** No bit below [bw] is fixed. *)
Definition free_below_bw (v : sls_valuation) : Prop :=
  forall i : nat, (i < bw v)%nat -> get (fixed v) i = false.

(** Executable checks of the invariant, for concrete valuations. *)
Definition word_okb (w : Z) : bool := (0 <=? w) && (w <? wB).

Definition shapedb (v : sls_valuation) (x : bvect) : bool :=
  (nw v <=? length x)%nat && forallb word_okb x.

Definition valuation_okb (v : sls_valuation) : bool :=
  (0 <? bw v)%nat && (nw v =? nw_of (bw v))%nat && (mask v =? mask_of (bw v))
  && shapedb v (m_bits v) && shapedb v (m_lo v) && shapedb v (m_hi v)
  && shapedb v (fixed v) && shapedb v (eval v).

(** ** Concrete valuations

    An 8-bit valuation with bit 0 fixed to 1, the wrap-around range
    [lo = 10, hi = 5], committed value 1 and evaluation 3. *)
Definition example_valuation : sls_valuation :=
  mk_valuation [1; 0] [10; 0] [5; 0] 0 255 8 1 [4294967041; 0] [3; 0].

(** An 8-bit valuation without range and without fixed bits below [bw],
    committed value 7. *)
Definition seven_valuation : sls_valuation :=
  mk_valuation [7; 0] [0; 0] [0; 0] 0 255 8 1 [4294967040; 0] [7; 0].

(** An 8-bit valuation as the owner builds it: commit the value 3, fix
    bit 0, then [add_range(3, 11)]. *)
Definition odd_valuation : sls_valuation :=
  let v := snd (commit_eval (with_eval (new_valuation 8) [3; 0])) in
  add_range (with_fixed v (set (fixed v) 0 true)) 3 11.

(** The same valuation after a further [add_range(4, 20)]. *)
Definition stale_valuation : sls_valuation := add_range odd_valuation 4 20.

(** A generator for examples: the stream 0, 1, 2, ... *)
Definition counter_rand (g : nat) : Z * nat := (Z.of_nat g, S g).

(** An 8-bit valuation built by: commit the value 1, [add_range(10, 5)],
    then fix bit 0. *)
Definition late_fixed_valuation : sls_valuation :=
  let v := snd (commit_eval (with_eval (new_valuation 8) [1; 0])) in
  let v := add_range v 10 5 in
  with_fixed v (set (fixed v) 0 true).

(** The 8-bit scenario of an odd value in the wrap-around range from 10
    to 5, as the owner builds it: commit the value [n], fix bit 0, then
    [add_range(10, 5)], which ends in [tighten_range]. *)
Definition fixed_then_ranged (n : Z) : sls_valuation :=
  let v := snd (commit_eval (with_eval (new_valuation 8) [n; 0])) in
  add_range (with_fixed v (set (fixed v) 0 true)) 10 5.

(** The same scenario with the range added first: commit [n],
    [add_range(10, 5)], fix bit 0, then [tighten_range]. *)
Definition ranged_then_fixed (n : Z) : sls_valuation :=
  let v := snd (commit_eval (with_eval (new_valuation 8) [n; 0])) in
  let v := add_range v 10 5 in
  tighten_range (with_fixed v (set (fixed v) 0 true)).

(** The values of an 8-bit vector. *)
Definition bytes : list Z := map Z.of_nat (seq 0 256).

(** An 8-bit valuation with the plain range [2, 10). *)
Definition ranged_valuation : sls_valuation := add_range (new_valuation 8) 2 10.

(** * Properties *)

#[local] Arguments Nat.div : simpl never.
#[local] Arguments Nat.modulo : simpl never.
#[local] Arguments Z.pow : simpl never.
#[local] Arguments Z.mul : simpl never.
#[local] Arguments Z.of_nat : simpl never.

(** ** Words and vectors *)

Lemma wB_eq : wB = 4294967296.
Proof. reflexivity. Qed.

Lemma wrap_ok (x : Z) : word_ok (wrap x).
Proof. unfold word_ok, wrap. rewrite wB_eq. apply Z.mod_pos_bound. lia. Qed.

Lemma wrap_small (x : Z) : word_ok x -> wrap x = x.
Proof. unfold word_ok, wrap. intros H. apply Z.mod_small. exact H. Qed.

Lemma word_okb_sound (w : Z) : word_okb w = true -> word_ok w.
Proof. unfold word_okb, word_ok. intros H. apply andb_true_iff in H. lia. Qed.

Lemma words_okb_sound (x : bvect) : forallb word_okb x = true -> words_ok x.
Proof.
  unfold words_ok. intros Hw. apply Forall_forall. intros w Hin.
  rewrite forallb_forall in Hw. apply word_okb_sound. auto.
Qed.

Lemma shapedb_sound (v : sls_valuation) (x : bvect) :
  shapedb v x = true -> shaped v x.
Proof.
  unfold shapedb, shaped. intros H.
  apply andb_true_iff in H. destruct H as [Hl Hw]. split.
  - apply Nat.leb_le. exact Hl.
  - apply words_okb_sound. exact Hw.
Qed.

Lemma valuation_okb_sound (v : sls_valuation) :
  valuation_okb v = true -> valuation_ok v.
Proof.
  unfold valuation_okb, valuation_ok. intros H.
  repeat (apply andb_true_iff in H; destruct H as [H ?]).
  apply Nat.ltb_lt in H. apply Nat.eqb_eq in H6. apply Z.eqb_eq in H5.
  repeat split; try assumption; try (apply shapedb_sound; assumption);
    match goal with
    | |- (_ <= _)%nat => eapply proj1, shapedb_sound; eassumption
    | |- words_ok _ => eapply proj2, shapedb_sound; eassumption
    end.
Qed.

Lemma wd_ok (v : bvect) (i : nat) : words_ok v -> word_ok (wd v i).
Proof.
  unfold words_ok, wd. intros H. revert i.
  induction H as [|w t Hw _ IH]; intros [|i]; simpl; auto;
    unfold word_ok; rewrite wB_eq; lia.
Qed.

Lemma length_upd (v : bvect) (i : nat) (x : Z) : length (upd v i x) = length v.
Proof.
  revert i. induction v as [|h t IH]; intros [|i]; simpl; auto.
Qed.

Lemma wd_upd (v : bvect) (i j : nat) (x : Z) :
  wd (upd v i x) j = if ((j =? i) && (i <? length v))%nat then x else wd v j.
Proof.
  unfold wd. revert i j.
  induction v as [|h t IH]; intros i j.
  - simpl. rewrite andb_false_r. reflexivity.
  - destruct i as [|i], j as [|j]; simpl; auto.
Qed.

Lemma upd_ok (v : bvect) (i : nat) (x : Z) :
  words_ok v -> word_ok x -> words_ok (upd v i x).
Proof.
  unfold words_ok. intros H Hx. revert i.
  induction H as [|w t Hw Ht IH]; intros [|i]; simpl; constructor; auto.
Qed.

Lemma fold_upd_length (f : bvect -> nat -> Z) (l : list nat) (d : bvect) :
  length (fold_left (fun d i => upd d i (f d i)) l d) = length d.
Proof.
  revert d. induction l as [|a l IH]; intros d; simpl; auto.
  rewrite IH. apply length_upd.
Qed.

Lemma copy_to_length (src : bvect) (n : nat) (dst : bvect) :
  length (copy_to src n dst) = length dst.
Proof. unfold copy_to. apply (fold_upd_length (fun _ i => wd src i)). Qed.

Lemma wd_copy_seq (src : bvect) (a n : nat) (dst : bvect) (j : nat) :
  wd (fold_left (fun d i => upd d i (wd src i)) (seq a n) dst) j =
  if ((a <=? j) && (j <? a + n) && (j <? length dst))%nat then wd src j
  else wd dst j.
Proof.
  revert a dst. induction n as [|n IH]; intros a dst; simpl.
  - replace (a + 0)%nat with a by lia.
    destruct (Nat.leb_spec a j), (Nat.ltb_spec j a); simpl; auto; lia.
  - rewrite IH, length_upd, wd_upd.
    destruct (Nat.leb_spec (S a) j), (Nat.ltb_spec j (S a + n)),
      (Nat.ltb_spec j (length dst)), (Nat.leb_spec a j),
      (Nat.ltb_spec j (a + S n)), (Nat.eqb_spec j a),
      (Nat.ltb_spec a (length dst)); simpl; auto; try lia.
Qed.

Lemma wd_copy_to (src : bvect) (n : nat) (dst : bvect) (j : nat) :
  wd (copy_to src n dst) j =
  if ((j <? n) && (j <? length dst))%nat then wd src j else wd dst j.
Proof. unfold copy_to. rewrite wd_copy_seq. reflexivity. Qed.

Lemma copy_to_ok (src : bvect) (n : nat) (dst : bvect) :
  words_ok src -> words_ok dst -> words_ok (copy_to src n dst).
Proof.
  unfold copy_to. intros Hs. generalize (seq 0 n). intros l. revert dst.
  induction l as [|a l IH]; intros dst Hd; simpl; auto.
  apply IH. apply upd_ok; auto. apply wd_ok; auto.
Qed.

(** ** Comparison *)

Lemma get_value_bound (n : nat) (v : bvect) :
  words_ok v -> 0 <= get_value n v < 2 ^ (32 * Z.of_nat n).
Proof.
  intros Hv. induction n as [|n IH].
  - simpl. lia.
  - cbn [get_value]. pose proof (wd_ok v n Hv) as Hw.
    unfold word_ok in Hw. rewrite wB_eq in Hw.
    replace (32 * Z.of_nat (S n)) with (32 * Z.of_nat n + 32) by lia.
    rewrite Z.pow_add_r by lia.
    assert (0 < 2 ^ (32 * Z.of_nat n)) by (apply Z.pow_pos_nonneg; lia).
    change (2 ^ 32) with 4294967296. nia.
Qed.

Lemma get_value_ext (n : nat) (a b : bvect) :
  (forall i, (i < n)%nat -> wd a i = wd b i) -> get_value n a = get_value n b.
Proof.
  induction n as [|n IH]; intros H; cbn [get_value]; auto.
  rewrite IH, (H n) by (intros; auto with arith). reflexivity.
Qed.

Lemma mpn_compare_spec (n : nat) (a b : bvect) :
  words_ok a -> words_ok b ->
  mpn_compare a b n = (get_value n a ?= get_value n b).
Proof.
  intros Ha Hb. induction n as [|n IH].
  - reflexivity.
  - cbn [mpn_compare get_value].
    pose proof (get_value_bound n a Ha). pose proof (get_value_bound n b Hb).
    pose proof (wd_ok a n Ha) as Hwa. pose proof (wd_ok b n Hb) as Hwb.
    unfold word_ok in *.
    assert (0 < 2 ^ (32 * Z.of_nat n)) by (apply Z.pow_pos_nonneg; lia).
    destruct (Z.compare_spec (wd a n) (wd b n)) as [E|L|G].
    + rewrite IH, E.
      destruct (Z.compare_spec (get_value n a) (get_value n b));
        symmetry; [apply Z.compare_eq_iff|apply Z.compare_lt_iff
                  |apply Z.compare_gt_iff]; lia.
    + symmetry. apply Z.compare_lt_iff. nia.
    + symmetry. apply Z.compare_gt_iff. nia.
Qed.

Lemma mpn_compare_eq_words (n : nat) (a b : bvect) :
  mpn_compare a b n = Eq <-> forall i, (i < n)%nat -> wd a i = wd b i.
Proof.
  induction n as [|n IH]; cbn [mpn_compare].
  - split; auto. intros _ i Hi. lia.
  - destruct (Z.compare_spec (wd a n) (wd b n)) as [E|L|G].
    + rewrite IH. split; intros H i Hi.
      * destruct (Nat.eq_dec i n); subst; auto. apply H. lia.
      * apply H. lia.
    + split; [discriminate|]. intros H. specialize (H n). lia.
    + split; [discriminate|]. intros H. specialize (H n). lia.
Qed.

Lemma blt_spec (n : nat) (a b : bvect) :
  words_ok a -> words_ok b ->
  blt n a b = (get_value n a <? get_value n b).
Proof.
  intros Ha Hb. unfold blt, Z.ltb. rewrite mpn_compare_spec; auto.
Qed.

Lemma bgt_spec (n : nat) (a b : bvect) :
  words_ok a -> words_ok b ->
  bgt n a b = (get_value n b <? get_value n a).
Proof.
  intros Ha Hb. unfold bgt. rewrite mpn_compare_spec; auto.
  rewrite Z.ltb_antisym. unfold Z.leb.
  destruct (get_value n a ?= get_value n b); reflexivity.
Qed.

Lemma ble_spec (n : nat) (a b : bvect) :
  words_ok a -> words_ok b ->
  ble n a b = (get_value n a <=? get_value n b).
Proof.
  intros Ha Hb. unfold ble, Z.leb. rewrite mpn_compare_spec; auto.
Qed.

Lemma bge_spec (n : nat) (a b : bvect) :
  words_ok a -> words_ok b ->
  bge n a b = (get_value n b <=? get_value n a).
Proof.
  intros Ha Hb. unfold bge. rewrite mpn_compare_spec; auto.
  rewrite Z.leb_antisym. unfold Z.ltb.
  destruct (get_value n a ?= get_value n b); reflexivity.
Qed.

Lemma beq_spec (n : nat) (a b : bvect) :
  words_ok a -> words_ok b ->
  beq n a b = (get_value n a =? get_value n b).
Proof.
  intros Ha Hb. unfold beq, Z.eqb. rewrite mpn_compare_spec; auto.
  unfold Z.compare.
  destruct (get_value n a), (get_value n b); try reflexivity;
    simpl; destruct (Pos.compare_spec p p0); subst;
    try rewrite Pos.eqb_refl; try reflexivity;
    symmetry; apply Pos.eqb_neq; lia.
Qed.

(** ** Bits of a word *)

Lemma testbit_high (w k : Z) : word_ok w -> 32 <= k -> Z.testbit w k = false.
Proof.
  unfold word_ok, wB. intros Hw Hk.
  rewrite <- (Z.mod_small w (2 ^ 32)) by lia.
  apply Z.mod_pow2_bits_high. lia.
Qed.

Lemma testbit_wrap (x k : Z) :
  Z.testbit (wrap x) k = (k <? 32) && Z.testbit x k.
Proof. unfold wrap, wB. apply Z.testbit_mod_pow2. lia. Qed.

Lemma testbit_wnot (x k : Z) :
  0 <= k -> Z.testbit (wnot x) k = (k <? 32) && negb (Z.testbit x k).
Proof.
  intros Hk. unfold wnot. rewrite testbit_wrap, Z.lnot_spec by lia. reflexivity.
Qed.

Lemma wshl1_pow (k : nat) : (k < 32)%nat -> wshl1 k = 2 ^ Z.of_nat k.
Proof.
  intros Hk. unfold wshl1. rewrite Z.shiftl_1_l. apply wrap_small.
  unfold word_ok, wB. split.
  - apply Z.pow_nonneg. lia.
  - apply Z.pow_lt_mono_r; lia.
Qed.

Lemma land_pow2 (w k : Z) :
  0 <= k -> Z.land w (2 ^ k) = if Z.testbit w k then 2 ^ k else 0.
Proof.
  intros Hk. apply Z.bits_inj'. intros n Hn.
  rewrite Z.land_spec, Z.pow2_bits_eqb by lia.
  destruct (Z.eqb_spec k n) as [->|Hne].
  - destruct (Z.testbit w n); simpl.
    + rewrite Z.pow2_bits_true; auto.
    + rewrite Z.bits_0. reflexivity.
  - rewrite andb_false_r.
    destruct (Z.testbit w k).
    + rewrite Z.pow2_bits_false; auto.
    + rewrite Z.bits_0. reflexivity.
Qed.

Lemma mod_digit_bits_lt (i : nat) : (i mod digit_bits < 32)%nat.
Proof. apply Nat.mod_upper_bound. discriminate. Qed.

Lemma get_testbit (v : bvect) (i : nat) :
  get v i = Z.testbit (wd v (i / digit_bits)) (Z.of_nat (i mod digit_bits)).
Proof.
  unfold get, get_bit_word, get_pos_mask.
  rewrite wshl1_pow by apply mod_digit_bits_lt.
  rewrite land_pow2 by lia.
  assert (0 < 2 ^ Z.of_nat (i mod digit_bits)) by (apply Z.pow_pos_nonneg; lia).
  destruct (Z.testbit _ _).
  - destruct (Z.eqb_spec (2 ^ Z.of_nat (i mod digit_bits)) 0); auto. lia.
  - reflexivity.
Qed.

Lemma land_zero_bits (a b : Z) :
  Z.land a b = 0 <-> forall k, 0 <= k -> Z.testbit a k && Z.testbit b k = false.
Proof.
  split.
  - intros H k Hk. rewrite <- Z.land_spec, H. apply Z.bits_0.
  - intros H. apply Z.bits_inj'. intros k Hk.
    rewrite Z.land_spec, Z.bits_0. auto.
Qed.

Lemma word_agree_bits (f a b : Z) :
  word_ok f ->
  (Z.land f (Z.lxor a b) = 0 <->
   forall k, 0 <= k < 32 -> Z.testbit f k = true -> Z.testbit a k = Z.testbit b k).
Proof.
  intros Hf. rewrite land_zero_bits. split; intros H k Hk.
  - intros Hfk. specialize (H k ltac:(lia)).
    rewrite Hfk, Z.lxor_spec in H. simpl in H.
    destruct (Z.testbit a k), (Z.testbit b k); simpl in H; congruence.
  - destruct (Z_lt_le_dec k 32) as [Hlt|Hge].
    + specialize (H k ltac:(lia)). rewrite Z.lxor_spec.
      destruct (Z.testbit f k); simpl; auto. rewrite H; auto.
      apply xorb_nilpotent.
    + rewrite testbit_high; auto.
Qed.

Lemma agree_from_spec (f a b : bvect) (i cnt : nat) :
  agree_from f a b i cnt = true <->
  forall j, (i <= j < i + cnt)%nat ->
            Z.land (wd f j) (Z.lxor (wd a j) (wd b j)) = 0.
Proof.
  revert i. induction cnt as [|c IH]; intros i; cbn [agree_from].
  - split; auto. intros _ j Hj. lia.
  - destruct (Z.eqb_spec 0 (Z.land (wd f i) (Z.lxor (wd a i) (wd b i))))
      as [E|N]; simpl.
    + rewrite IH. split; intros H j Hj.
      * destruct (Nat.eq_dec j i); subst; auto. apply H. lia.
      * apply H. lia.
    + split; [discriminate|]. intros H. specialize (H i ltac:(lia)). congruence.
Qed.

Lemma bit_index_split (i : nat) :
  i = (digit_bits * (i / digit_bits) + i mod digit_bits)%nat.
Proof. apply Nat.div_mod_eq. Qed.

Lemma bit_index_div (j k : nat) :
  (k < 32)%nat -> ((digit_bits * j + k) / digit_bits)%nat = j.
Proof.
  intros Hk. unfold digit_bits.
  rewrite Nat.mul_comm, Nat.div_add_l, Nat.div_small by lia. lia.
Qed.

Lemma bit_index_mod (j k : nat) :
  (k < 32)%nat -> ((digit_bits * j + k) mod digit_bits)%nat = k.
Proof.
  intros Hk. unfold digit_bits.
  rewrite Nat.add_comm, Nat.mul_comm, Nat.Div0.mod_add, Nat.mod_small by lia.
  reflexivity.
Qed.

Lemma agree_fixed_bits (v : sls_valuation) (a b : bvect) :
  words_ok (fixed v) ->
  (agree_fixed v a b = true <-> agree_on_fixed v a b).
Proof.
  intros Hf. unfold agree_fixed, agree_on_fixed. rewrite agree_from_spec.
  split.
  - intros H i Hi Hfi.
    rewrite get_testbit in Hfi. rewrite !get_testbit.
    assert (Hj : (i / digit_bits < nw v)%nat)
      by (apply Nat.Div0.div_lt_upper_bound; exact Hi).
    specialize (H (i / digit_bits)%nat ltac:(lia)).
    rewrite word_agree_bits in H by (apply wd_ok; auto).
    apply H; auto. pose proof (mod_digit_bits_lt i). lia.
  - intros H j Hj. apply word_agree_bits; [apply wd_ok; auto|].
    intros k Hk Hfk.
    specialize (H (digit_bits * j + Z.to_nat k)%nat).
    rewrite !get_testbit in H.
    rewrite bit_index_div, bit_index_mod in H by lia.
    rewrite Z2Nat.id in H by lia.
    apply H; auto. unfold digit_bits. lia.
Qed.

Lemma agree_from_sym (f a b : bvect) (i cnt : nat) :
  agree_from f a b i cnt = agree_from f b a i cnt.
Proof.
  revert i. induction cnt as [|c IH]; intros i; cbn [agree_from]; auto.
  rewrite (Z.lxor_comm (wd a i)), IH. reflexivity.
Qed.

(** ** commit_eval *)

(** C1.  [commit_eval] returns true exactly when [eval] agrees with the
    committed [bits] on every bit position set in [fixed] and
    [in_range(eval)] holds.  When it returns true the first [nw] words of
    [bits] are those of [eval] (so [bits == eval]) and [eval] is untouched;
    when it returns false the valuation is not modified at all. *)
Theorem commit_eval_spec (v : sls_valuation) :
  valuation_ok v ->
  (fst (commit_eval v) = true <->
   agree_on_fixed v (eval v) (m_bits v) /\ in_range v (eval v) = true)
  /\ (fst (commit_eval v) = true ->
      (forall i, (i < nw v)%nat ->
                 wd (m_bits (snd (commit_eval v))) i = wd (eval v) i)
      /\ beq (nw v) (m_bits (snd (commit_eval v))) (eval (snd (commit_eval v)))
         = true
      /\ eval (snd (commit_eval v)) = eval v
      /\ fixed (snd (commit_eval v)) = fixed v
      /\ m_lo (snd (commit_eval v)) = m_lo v
      /\ m_hi (snd (commit_eval v)) = m_hi v)
  /\ (fst (commit_eval v) = false -> snd (commit_eval v) = v).
Proof.
  intros (Hbw & Hnw & Hmask & Hb & Hl & Hh & Hf & He).
  pose proof (agree_fixed_bits v (eval v) (m_bits v) (proj2 Hf)) as Hag.
  unfold commit_eval.
  replace (agree_fixed v (m_bits v) (eval v))
    with (agree_fixed v (eval v) (m_bits v))
    by (unfold agree_fixed; apply agree_from_sym).
  destruct (agree_fixed v (eval v) (m_bits v)) eqn:Ea; simpl.
  - destruct (in_range v (eval v)) eqn:Er; simpl.
    + split; [|split].
      * split; auto. intros _. split; auto. apply Hag. reflexivity.
      * intros _.
        assert (Hw : forall i, (i < nw v)%nat ->
                   wd (copy_to (eval v) (nw v) (m_bits v)) i = wd (eval v) i).
        { intros i Hi. rewrite wd_copy_to.
          destruct Hb as [Hlen _].
          destruct (Nat.ltb_spec i (nw v)), (Nat.ltb_spec i (length (m_bits v)));
            simpl; auto; lia. }
        repeat split; auto.
        unfold beq.
        destruct (mpn_compare _ _ _) eqn:Ec; auto;
          assert (Heq : mpn_compare (copy_to (eval v) (nw v) (m_bits v))
                                    (eval v) (nw v) = Eq)
            by (apply mpn_compare_eq_words; exact Hw); congruence.
      * discriminate.
    + split; [|split]; auto; try discriminate.
      split; [discriminate|]. intros [_ H]. discriminate.
  - split; [|split]; auto; try discriminate.
    split; [discriminate|]. intros [H _]. apply Hag in H. discriminate.
Qed.

Lemma example_valuation_ok : valuation_ok example_valuation.
Proof. apply valuation_okb_sound. vm_compute. reflexivity. Defined.

Lemma commit_eval_spec_witness :
  fst (commit_eval example_valuation) = true
  /\ m_bits (snd (commit_eval example_valuation)) = [3; 0].
Proof.
  pose proof (commit_eval_spec example_valuation example_valuation_ok) as H.
  split.
  - apply (proj1 H). split; [|reflexivity].
    apply agree_fixed_bits; [apply example_valuation_ok|]. reflexivity.
  - reflexivity.
Defined.

(** ** in_range *)

(** C2.  [in_range] follows the three-way interval semantics on the
    unsigned values of the vectors: everything is in range when
    [lo == hi]; [lo <= x < hi] when [lo < hi]; [x < hi] or [lo <= x] when
    [lo > hi]. *)
Theorem in_range_spec (v : sls_valuation) (x : bvect) :
  valuation_ok v -> words_ok x -> has_overflow v x = false ->
  (lo v = hi v -> in_range v x = true)
  /\ (lo v < hi v ->
      (in_range v x = true <->
       lo v <= get_value (nw v) x /\ get_value (nw v) x < hi v))
  /\ (lo v > hi v ->
      (in_range v x = true <->
       get_value (nw v) x < hi v \/ get_value (nw v) x >= lo v)).
Proof.
  intros (Hbw & Hnw & Hmask & Hb & Hl & Hh & Hf & He) Hx _.
  destruct Hl as [_ Hl]. destruct Hh as [_ Hh].
  unfold in_range, lo, hi.
  rewrite !mpn_compare_spec by assumption.
  destruct (Z.compare_spec (get_value (nw v) (m_lo v))
                           (get_value (nw v) (m_hi v))) as [E|L|G];
    (split; [|split]); intros H0; try lia; auto;
    destruct (Z.compare_spec (get_value (nw v) (m_lo v)) (get_value (nw v) x));
    destruct (Z.compare_spec (get_value (nw v) x) (get_value (nw v) (m_hi v)));
    simpl; split; intros Hr; try discriminate; try lia; auto.
Qed.

Lemma in_range_spec_witness :
  in_range example_valuation [12; 0] = true
  /\ in_range example_valuation [7; 0] = false.
Proof.
  pose proof (in_range_spec example_valuation [12; 0] example_valuation_ok
                (words_okb_sound [12; 0] eq_refl) eq_refl) as H12.
  split.
  - apply (proj2 (proj2 H12)); vm_compute; [reflexivity|].
    right. discriminate.
  - reflexivity.
Defined.

(** ** The constructor and the overflow bits *)

Lemma wd_repeat0 (n i : nat) : wd (repeat 0 n) i = 0.
Proof.
  unfold wd. revert i. induction n as [|n IH]; intros [|i]; simpl; auto.
Qed.

Lemma nw_of_split (b : nat) :
  (0 < b)%nat ->
  exists m : nat,
    (1 <= m <= 32)%nat /\ b = (digit_bits * (nw_of b - 1) + m)%nat
    /\ (0 < nw_of b)%nat
    /\ (b mod digit_bits)%nat = (if (m =? 32)%nat then 0%nat else m).
Proof.
  intros Hb. unfold nw_of, digit_bits.
  pose proof (Nat.div_mod_eq b 32) as E1.
  pose proof (Nat.mod_upper_bound b 32 ltac:(lia)) as B1.
  pose proof (Nat.div_mod_eq (b + 32 - 1) 32) as E2.
  pose proof (Nat.mod_upper_bound (b + 32 - 1) 32 ltac:(lia)) as B2.
  destruct (Nat.eq_dec (b mod 32) 0) as [Z0|NZ].
  - exists 32%nat. simpl. lia.
  - exists (b mod 32)%nat.
    destruct (Nat.eqb_spec (b mod 32) 32); lia.
Qed.

Lemma mask_of_ones (b m : nat) :
  (1 <= m <= 32)%nat ->
  (b mod digit_bits)%nat = (if (m =? 32)%nat then 0%nat else m) ->
  mask_of b = Z.ones (Z.of_nat m).
Proof.
  intros Hm E. unfold mask_of. rewrite E.
  destruct (Nat.eqb_spec m 32) as [->|Hne].
  - reflexivity.
  - cbv zeta. rewrite Z.shiftl_1_l, Z.ones_equiv, <- Z.sub_1_r.
    assert (Hp : 2 ^ 1 <= 2 ^ Z.of_nat m < 2 ^ 32)
      by (split; [apply Z.pow_le_mono_r|apply Z.pow_lt_mono_r]; lia).
    change (2 ^ 1) with 2 in Hp. change (2 ^ 32) with 4294967296 in Hp.
    rewrite wrap_small by (unfold word_ok; rewrite wB_eq; lia).
    destruct (Z.eqb_spec (2 ^ Z.of_nat m - 1) 0); auto. lia.
Qed.

Lemma no_overflow_word (f x b nm : Z) :
  Z.land f nm = nm -> Z.land b nm = 0 -> Z.land f (Z.lxor x b) = 0 ->
  Z.land x nm = 0.
Proof.
  intros H1 H2 H3. apply Z.bits_inj'. intros k Hk.
  apply (f_equal (fun z => Z.testbit z k)) in H1, H2, H3.
  rewrite Z.land_spec in H1, H2. rewrite Z.land_spec, Z.lxor_spec in H3.
  rewrite Z.bits_0 in *. rewrite Z.land_spec.
  destruct (Z.testbit f k), (Z.testbit x k), (Z.testbit b k),
    (Z.testbit nm k); simpl in *; congruence.
Qed.

Lemma has_overflow_false (v : sls_valuation) (x : bvect) :
  has_overflow v x = false <-> Z.land (wd x (nw v - 1)) (wnot (mask v)) = 0.
Proof.
  unfold has_overflow.
  destruct (Z.eqb_spec 0 (Z.land (wd x (nw v - 1)) (wnot (mask v))));
    simpl; split; intros; congruence.
Qed.

Lemma agree_no_overflow (v : sls_valuation) (x : bvect) :
  (0 < nw v)%nat -> overflow_fixed v -> has_overflow v (m_bits v) = false ->
  agree_fixed v x (m_bits v) = true -> has_overflow v x = false.
Proof.
  intros Hn Hof Hb Ha. apply has_overflow_false.
  apply has_overflow_false in Hb.
  unfold agree_fixed in Ha. rewrite agree_from_spec in Ha.
  specialize (Ha (nw v - 1)%nat ltac:(lia)).
  eapply no_overflow_word; eauto.
Qed.

Lemma can_set_no_overflow (v : sls_valuation) (x : bvect) :
  (0 < nw v)%nat -> overflow_fixed v -> has_overflow v (m_bits v) = false ->
  can_set v x = true -> has_overflow v x = false.
Proof.
  intros Hn Hof Hb Hc. unfold can_set in Hc.
  destruct (agree_fixed v x (m_bits v)) eqn:Ea; [|discriminate].
  apply agree_no_overflow; auto.
Qed.

Lemma commit_eval_no_overflow (v : sls_valuation) :
  (0 < nw v <= length (m_bits v))%nat -> overflow_fixed v ->
  has_overflow v (m_bits v) = false ->
  fst (commit_eval v) = true ->
  has_overflow (snd (commit_eval v)) (m_bits (snd (commit_eval v))) = false
  /\ overflow_fixed (snd (commit_eval v)).
Proof.
  intros Hn Hof Hb. unfold commit_eval.
  destruct (agree_fixed v (m_bits v) (eval v)) eqn:Ea; simpl;
    [|discriminate].
  destruct (in_range v (eval v)); simpl; [|discriminate].
  intros _. split; [|exact Hof].
  unfold agree_fixed in Ea. rewrite agree_from_sym in Ea.
  pose proof (agree_no_overflow v (eval v) ltac:(lia) Hof Hb Ea) as He.
  apply has_overflow_false. apply has_overflow_false in He. simpl.
  rewrite wd_copy_to.
  destruct (Nat.ltb_spec (nw v - 1) (nw v)),
    (Nat.ltb_spec (nw v - 1) (length (m_bits v))); simpl; auto; lia.
Qed.

Lemma new_valuation_fixed_word (b j : nat) :
  wd (fixed (new_valuation b)) j =
  if (j =? nw_of b - 1)%nat then wnot (mask_of b) else 0.
Proof.
  unfold new_valuation, reserve. cbn [fixed app length].
  rewrite wd_upd, repeat_length, wd_repeat0.
  destruct (Nat.eqb_spec j (nw_of b - 1)), (Nat.ltb_spec (nw_of b - 1)
    (nw_of b + 1 - 0)); simpl; auto; lia.
Qed.

Lemma new_valuation_ok (b : nat) : (0 < b)%nat -> valuation_ok (new_valuation b).
Proof.
  intros Hb. destruct (nw_of_split b Hb) as (m & Hm & Eb & Hn & Em).
  assert (Hz : shaped (new_valuation b) (repeat 0 (nw_of b + 1))).
  { split.
    - rewrite repeat_length. cbn [nw new_valuation]. lia.
    - unfold words_ok. apply Forall_forall. intros x Hx.
      apply repeat_spec in Hx. subst. unfold word_ok. rewrite wB_eq. lia. }
  unfold valuation_ok, new_valuation, reserve in *.
  cbn [bw nw mask m_bits m_lo m_hi fixed eval app length] in *.
  replace (nw_of b + 1 - 0)%nat with (nw_of b + 1)%nat by lia.
  repeat split; auto; try apply Hz.
  - rewrite length_upd. apply Hz.
  - apply upd_ok; [apply Hz|]. unfold wnot. apply wrap_ok.
Qed.

(** C10.  The constructor marks exactly the positions [>= bw] of the top
    word as fixed ([fixed[nw - 1] = ~mask]) and leaves the committed value
    zero.  With these bits fixed and no overflow bit in [bits], a vector
    that agrees with [bits] on the fixed bits has no overflow bit: this
    holds of whatever [can_set] accepts and of whatever [commit_eval]
    commits, and [commit_eval] keeps both conditions. *)
Theorem constructor_fixes_overflow_bits (b : nat) :
  (0 < b)%nat ->
  wd (fixed (new_valuation b)) (nw (new_valuation b) - 1)
  = wnot (mask (new_valuation b))
  /\ (forall i, wd (m_bits (new_valuation b)) i = 0)
  /\ (forall i, (i < digit_bits * nw (new_valuation b))%nat ->
                get (fixed (new_valuation b)) i = (b <=? i)%nat)
  /\ overflow_fixed (new_valuation b)
  /\ has_overflow (new_valuation b) (m_bits (new_valuation b)) = false
  /\ (forall x, can_set (new_valuation b) x = true ->
                has_overflow (new_valuation b) x = false)
  /\ (forall v : sls_valuation,
         (0 < nw v <= length (m_bits v))%nat ->
         overflow_fixed v -> has_overflow v (m_bits v) = false ->
         (forall x, agree_fixed v x (m_bits v) = true ->
                    has_overflow v x = false)
         /\ (forall x, can_set v x = true -> has_overflow v x = false)
         /\ (fst (commit_eval v) = true ->
             has_overflow (snd (commit_eval v))
                          (m_bits (snd (commit_eval v))) = false
             /\ overflow_fixed (snd (commit_eval v)))).
Proof.
  intros Hb.
  destruct (nw_of_split b Hb) as (m & Hm & Eb & Hn & Em).
  pose proof (mask_of_ones b m Hm Em) as Emask.
  assert (Hfix : wd (fixed (new_valuation b)) (nw (new_valuation b) - 1)
                 = wnot (mask (new_valuation b))).
  { rewrite new_valuation_fixed_word. cbn [nw mask new_valuation].
    rewrite Nat.eqb_refl. reflexivity. }
  assert (Hbits : forall i, wd (m_bits (new_valuation b)) i = 0).
  { intros i. unfold new_valuation, reserve. cbn [m_bits app].
    apply wd_repeat0. }
  assert (Hof : overflow_fixed (new_valuation b)).
  { unfold overflow_fixed. rewrite Hfix. apply Z.land_diag. }
  assert (Hno : has_overflow (new_valuation b) (m_bits (new_valuation b))
                = false).
  { apply has_overflow_false. rewrite Hbits. apply Z.land_0_l. }
  assert (Hgen : forall v : sls_valuation,
         (0 < nw v <= length (m_bits v))%nat ->
         overflow_fixed v -> has_overflow v (m_bits v) = false ->
         (forall x, agree_fixed v x (m_bits v) = true ->
                    has_overflow v x = false)
         /\ (forall x, can_set v x = true -> has_overflow v x = false)
         /\ (fst (commit_eval v) = true ->
             has_overflow (snd (commit_eval v))
                          (m_bits (snd (commit_eval v))) = false
             /\ overflow_fixed (snd (commit_eval v)))).
  { intros v Hv Hov Hbv. split; [|split].
    - intros x. apply agree_no_overflow; auto. lia.
    - intros x. apply can_set_no_overflow; auto. lia.
    - apply commit_eval_no_overflow; auto. }
  split; [exact Hfix|]. split; [exact Hbits|].
  split; [|split; [exact Hof|split; [exact Hno|split; [|exact Hgen]]]].
  - intros i Hi. rewrite get_testbit, new_valuation_fixed_word.
    cbn [nw new_valuation] in Hi.
    pose proof (bit_index_split i) as Ei.
    pose proof (mod_digit_bits_lt i) as Hmod.
    assert (Hdiv : (i / digit_bits < nw_of b)%nat)
      by (apply Nat.Div0.div_lt_upper_bound; exact Hi).
    unfold digit_bits in *.
    destruct (Nat.eqb_spec (i / 32) (nw_of b - 1)) as [E|N].
    + rewrite testbit_wnot, Emask, Z.testbit_ones_nonneg by lia.
      destruct (Z.ltb_spec (Z.of_nat (i mod 32)) 32); [|lia].
      destruct (Z.ltb_spec (Z.of_nat (i mod 32)) (Z.of_nat m)),
        (Nat.leb_spec b i); simpl; auto; lia.
    + rewrite Z.bits_0. destruct (Nat.leb_spec b i); auto. lia.
  - intros x. apply can_set_no_overflow; auto.
Qed.

Lemma constructor_fixes_overflow_bits_witness :
  get (fixed (new_valuation 8)) 7 = false
  /\ get (fixed (new_valuation 8)) 8 = true
  /\ (can_set (new_valuation 8) [255; 0] = true ->
      has_overflow (new_valuation 8) [255; 0] = false).
Proof.
  pose proof (constructor_fixes_overflow_bits 8 ltac:(lia)) as H.
  destruct H as (_ & _ & Hget & _ & _ & Hcan & _).
  split; [|split].
  - rewrite Hget; [reflexivity|vm_compute; lia].
  - rewrite Hget; [reflexivity|vm_compute; lia].
  - apply Hcan.
Defined.

(** ** Values, overflow bits and the mask *)

Lemma pow32 (k : nat) : 0 < 2 ^ (32 * Z.of_nat k).
Proof. apply Z.pow_pos_nonneg; lia. Qed.

Lemma word_high_bits (w : Z) (m : nat) :
  word_ok w -> (1 <= m <= 32)%nat ->
  (Z.land w (wnot (Z.ones (Z.of_nat m))) = 0 <-> w < 2 ^ Z.of_nat m).
Proof.
  intros Hw Hm. rewrite land_zero_bits. split.
  - intros H. destruct (Z_lt_le_dec w (2 ^ Z.of_nat m)) as [|Hge]; auto.
    exfalso.
    assert (Hpos : 0 < w)
      by (pose proof (Z.pow_pos_nonneg 2 (Z.of_nat m)); lia).
    assert (Hlog : Z.of_nat m <= Z.log2 w).
    { destruct (Z_lt_le_dec (Z.log2 w) (Z.of_nat m)) as [Hl|]; auto.
      apply Z.log2_lt_pow2 in Hl; lia. }
    assert (Hlog32 : Z.log2 w < 32).
    { apply Z.log2_lt_pow2; auto. unfold word_ok, wB in Hw. lia. }
    specialize (H (Z.log2 w) (Z.log2_nonneg w)).
    rewrite Z.bit_log2, testbit_wnot, Z.testbit_ones_nonneg in H
      by (auto; try lia; apply Z.log2_nonneg).
    destruct (Z.ltb_spec (Z.log2 w) 32), (Z.ltb_spec (Z.log2 w) (Z.of_nat m));
      simpl in H; try discriminate; lia.
  - intros H k Hk. rewrite testbit_wnot, Z.testbit_ones_nonneg by lia.
    destruct (Z.ltb_spec k (Z.of_nat m)); simpl.
    + rewrite andb_false_r. apply andb_false_r.
    + destruct (Z.eq_dec w 0) as [->|Hne].
      * rewrite Z.bits_0. reflexivity.
      * rewrite (Z.bits_above_log2 w k); auto.
        -- unfold word_ok in Hw. lia.
        -- assert (Z.log2 w < Z.of_nat m)
             by (apply Z.log2_lt_pow2; unfold word_ok in Hw; lia).
           lia.
Qed.

Lemma valuation_geometry (v : sls_valuation) :
  valuation_ok v ->
  exists m : nat,
    (1 <= m <= 32)%nat /\ (0 < nw v)%nat
    /\ bw v = (digit_bits * (nw v - 1) + m)%nat
    /\ mask v = Z.ones (Z.of_nat m).
Proof.
  intros (Hbw & Hnw & Hmask & _).
  destruct (nw_of_split (bw v) Hbw) as (m & Hm & Eb & Hn & Em).
  exists m. rewrite Hnw, Hmask. repeat split; auto; try lia.
  apply mask_of_ones; auto.
Qed.

Lemma pow_bw_split (n m : nat) :
  2 ^ Z.of_nat (digit_bits * n + m)
  = 2 ^ (32 * Z.of_nat n) * 2 ^ Z.of_nat m.
Proof.
  rewrite <- Z.pow_add_r by lia. f_equal. unfold digit_bits. lia.
Qed.

Lemma has_overflow_value (v : sls_valuation) (x : bvect) :
  valuation_ok v -> words_ok x ->
  (has_overflow v x = false <-> get_value (nw v) x < 2 ^ Z.of_nat (bw v)).
Proof.
  intros Hv Hx.
  destruct (valuation_geometry v Hv) as (m & Hm & Hn & Eb & Em).
  rewrite has_overflow_false, Em, word_high_bits by (auto; apply wd_ok; auto).
  rewrite Eb, pow_bw_split.
  destruct (nw v) as [|n]; [lia|].
  replace (S n - 1)%nat with n by lia. cbn [get_value].
  pose proof (get_value_bound n x Hx). pose proof (pow32 n).
  pose proof (wd_ok x n Hx) as Hw. unfold word_ok in Hw.
  assert (0 < 2 ^ Z.of_nat m) by (apply Z.pow_pos_nonneg; lia).
  split; intros; nia.
Qed.

Lemma clear_overflow_value (v : sls_valuation) (x : bvect) :
  valuation_ok v -> words_ok x -> (nw v <= length x)%nat ->
  get_value (nw v) (clear_overflow_bits v x)
  = get_value (nw v) x mod 2 ^ Z.of_nat (bw v).
Proof.
  intros Hv Hx Hlen.
  destruct (valuation_geometry v Hv) as (m & Hm & Hn & Eb & Em).
  unfold clear_overflow_bits. rewrite Em, Eb, pow_bw_split.
  destruct (nw v) as [|n]; [lia|].
  replace (S n - 1)%nat with n by lia. cbn [get_value].
  pose proof (get_value_bound n x Hx) as Hlow. pose proof (pow32 n) as Hp.
  assert (Hm2 : 0 < 2 ^ Z.of_nat m) by (apply Z.pow_pos_nonneg; lia).
  rewrite Z.rem_mul_r by lia.
  rewrite wd_upd, Nat.eqb_refl.
  destruct (Nat.ltb_spec n (length x)); [|lia]. cbn [andb].
  rewrite Z.land_ones by lia.
  rewrite (get_value_ext n (upd x n (wd x n mod 2 ^ Z.of_nat m)) x).
  2:{ intros i Hi. rewrite wd_upd.
      destruct (Nat.eqb_spec i n); [lia|]. reflexivity. }
  rewrite (Z.mul_comm (2 ^ (32 * Z.of_nat n)) (wd x n)).
  rewrite Z.mod_add, Z.div_add, (Z.mod_small _ _ Hlow), (Z.div_small _ _ Hlow)
    by lia.
  rewrite Z.add_0_l. reflexivity.
Qed.

Lemma word_ok_of_bits (w : Z) :
  0 <= w -> (forall k, 32 <= k -> Z.testbit w k = false) -> word_ok w.
Proof.
  intros Hw H. assert (E : w = wrap w).
  { apply Z.bits_inj'. intros k Hk. rewrite testbit_wrap.
    destruct (Z.ltb_spec k 32); simpl; auto. }
  rewrite E. apply wrap_ok.
Qed.

Lemma land_ok (a b : Z) : word_ok a -> word_ok b -> word_ok (Z.land a b).
Proof.
  intros Ha Hb. apply word_ok_of_bits.
  - apply Z.land_nonneg. unfold word_ok in Ha. lia.
  - intros k Hk. rewrite Z.land_spec, (testbit_high a); auto.
Qed.

Lemma lor_ok (a b : Z) : word_ok a -> word_ok b -> word_ok (Z.lor a b).
Proof.
  intros Ha Hb. apply word_ok_of_bits.
  - apply Z.lor_nonneg. unfold word_ok in *. lia.
  - intros k Hk. rewrite Z.lor_spec, (testbit_high a), (testbit_high b); auto.
Qed.

Lemma lxor_ok (a b : Z) : word_ok a -> word_ok b -> word_ok (Z.lxor a b).
Proof.
  intros Ha Hb. apply word_ok_of_bits.
  - apply Z.lxor_nonneg. unfold word_ok in *. lia.
  - intros k Hk. rewrite Z.lxor_spec, (testbit_high a), (testbit_high b); auto.
Qed.

Lemma clear_overflow_ok (v : sls_valuation) (x : bvect) :
  word_ok (mask v) -> words_ok x -> words_ok (clear_overflow_bits v x).
Proof.
  intros Hm Hx. unfold clear_overflow_bits. apply upd_ok; auto.
  apply land_ok; auto. apply wd_ok; auto.
Qed.

(** ** Multi-word arithmetic *)

Lemma to_words_ok (k : nat) (x : Z) : words_ok (to_words k x).
Proof.
  unfold words_ok. revert x. induction k as [|k IH]; intros x; simpl;
    constructor; auto.
  apply (wrap_ok x).
Qed.

Lemma wd_to_words (k i : nat) (x : Z) :
  (i < k)%nat -> wd (to_words k x) i = (x / 2 ^ (32 * Z.of_nat i)) mod wB.
Proof.
  unfold wd. revert i x. induction k as [|k IH]; intros i x Hi; [lia|].
  destruct i as [|i]; cbn [to_words nth].
  - change (2 ^ (32 * Z.of_nat 0)) with 1. rewrite Z.div_1_r. reflexivity.
  - rewrite IH by lia.
    replace (32 * Z.of_nat (S i)) with (32 + 32 * Z.of_nat i) by lia.
    pose proof (pow32 i).
    rewrite Z.pow_add_r by lia. unfold wB at 1.
    rewrite Z.div_div by lia. reflexivity.
Qed.

Lemma get_value_to_words (n k : nat) (x : Z) :
  (n <= k)%nat -> get_value n (to_words k x) = x mod 2 ^ (32 * Z.of_nat n).
Proof.
  intros Hn. induction n as [|n IH].
  - simpl. change (2 ^ (32 * Z.of_nat 0)) with 1. rewrite Z.mod_1_r. reflexivity.
  - cbn [get_value]. rewrite IH, wd_to_words by lia.
    replace (32 * Z.of_nat (S n)) with (32 * Z.of_nat n + 32) by lia.
    rewrite Z.pow_add_r by lia.
    pose proof (pow32 n).
    rewrite Z.rem_mul_r by lia. reflexivity.
Qed.

Lemma get_value_copy_to (src dst : bvect) (n k : nat) :
  (n <= k)%nat -> (n <= length dst)%nat ->
  get_value n (copy_to src k dst) = get_value n src.
Proof.
  intros Hn Hl. apply get_value_ext. intros i Hi. rewrite wd_copy_to.
  destruct (Nat.ltb_spec i k), (Nat.ltb_spec i (length dst)); simpl; auto; lia.
Qed.

Lemma pow_bw_divides (v : sls_valuation) :
  valuation_ok v ->
  (2 ^ Z.of_nat (bw v) | 2 ^ (32 * Z.of_nat (nw v))).
Proof.
  intros Hv. destruct (valuation_geometry v Hv) as (m & Hm & Hn & Eb & Em).
  exists (2 ^ (32 * Z.of_nat (nw v) - Z.of_nat (bw v))).
  rewrite <- Z.pow_add_r; [f_equal; lia| |lia].
  rewrite Eb. unfold digit_bits. lia.
Qed.

Lemma pow_bw_le (v : sls_valuation) :
  valuation_ok v -> 0 < 2 ^ Z.of_nat (bw v) <= 2 ^ (32 * Z.of_nat (nw v)).
Proof.
  intros Hv. destruct (valuation_geometry v Hv) as (m & Hm & Hn & Eb & Em).
  split; [apply Z.pow_pos_nonneg; lia|].
  apply Z.pow_le_mono_r; [lia|]. rewrite Eb. unfold digit_bits. lia.
Qed.

Lemma fold_orb_existsb (f : nat -> bool) (l : list nat) (o : bool) :
  fold_left (fun o i => o || f i) l o = o || existsb f l.
Proof.
  revert o. induction l as [|a l IH]; intros o; simpl.
  - rewrite orb_false_r. reflexivity.
  - rewrite IH, orb_assoc. reflexivity.
Qed.

Lemma high_words_zero (P : Z) (n : nat) :
  0 <= P ->
  (existsb (fun i => negb ((P / 2 ^ (32 * Z.of_nat i)) mod wB =? 0))
           (seq n n) = false
   <-> P mod 2 ^ (32 * Z.of_nat (2 * n)) < 2 ^ (32 * Z.of_nat n)).
Proof.
  intros HP. 
  rewrite <- (get_value_to_words (2 * n) (2 * n) P) by lia.
  assert (Hhi : forall k, get_value (n + k) (to_words (2 * n) P)
            = get_value n (to_words (2 * n) P)
              + 2 ^ (32 * Z.of_nat n)
                * get_value k (skipn n (to_words (2 * n) P))).
  { induction k as [|k IH].
    - replace (n + 0)%nat with n by lia. simpl. lia.
    - replace (n + S k)%nat with (S (n + k)) by lia. cbn [get_value].
      rewrite IH. unfold wd at 2. rewrite nth_skipn.
      replace (32 * Z.of_nat (n + k)) with (32 * Z.of_nat n + 32 * Z.of_nat k)
        by lia.
      rewrite Z.pow_add_r by lia. unfold wd. ring. }
  replace (get_value (2 * n) (to_words (2 * n) P))
    with (get_value (n + n) (to_words (2 * n) P)) by (f_equal; lia).
  rewrite Hhi.
  pose proof (get_value_bound n (to_words (2 * n) P) (to_words_ok _ _)) as Hlo.
  pose proof (pow32 n) as Hp.
  assert (Hsk : words_ok (skipn n (to_words (2 * n) P))).
  { unfold words_ok. apply Forall_forall. intros w Hw.
    pose proof (to_words_ok (2 * n) P) as Hall. unfold words_ok in Hall.
    rewrite Forall_forall in Hall. apply Hall.
    rewrite <- (firstn_skipn n). apply in_or_app. right. exact Hw. }
  pose proof (get_value_bound n _ Hsk) as Hhb.
  split.
  - intros He.
    assert (Hz : get_value n (skipn n (to_words (2 * n) P)) = 0).
    { rewrite <- (get_value_ext n (repeat 0 n)).
      - clear. induction n as [|k IH] at 1; cbn [get_value]; auto.
        rewrite IH, wd_repeat0. lia.
      - intros i Hi. rewrite wd_repeat0. unfold wd. rewrite nth_skipn.
        fold (wd (to_words (2 * n) P) (n + i)).
        rewrite wd_to_words by lia.
        destruct (Z.eqb_spec
                    ((P / 2 ^ (32 * Z.of_nat (n + i))) mod wB) 0) as [E|N];
          auto.
        exfalso.
        assert (Hex : existsb
                  (fun i => negb ((P / 2 ^ (32 * Z.of_nat i)) mod wB =? 0))
                  (seq n n) = true).
        { apply existsb_exists. exists (n + i)%nat. split.
          - apply in_seq. lia.
          - apply Z.eqb_neq in N. rewrite N. reflexivity. }
        congruence. }
    rewrite Hz. lia.
  - intros Hlt.
    assert (Hz : get_value n (skipn n (to_words (2 * n) P)) = 0) by nia.
    destruct (existsb _ _) eqn:He; auto. exfalso.
    apply existsb_exists in He. destruct He as (i & Hin & Hnz).
    apply in_seq in Hin.
    assert (Hw : wd (skipn n (to_words (2 * n) P)) (i - n) = 0).
    { clear - Hz Hsk Hin.
      assert (Hall : forall k j, (j < k)%nat ->
                 get_value k (skipn n (to_words (2 * n) P)) = 0 ->
                 wd (skipn n (to_words (2 * n) P)) j = 0).
      { induction k as [|k IH]; intros j Hj Hv; [lia|].
        cbn [get_value] in Hv.
        pose proof (get_value_bound k _ Hsk).
        pose proof (wd_ok _ k Hsk) as Hw. unfold word_ok in Hw.
        pose proof (pow32 k).
        assert (get_value k (skipn n (to_words (2 * n) P)) = 0) by nia.
        assert (wd (skipn n (to_words (2 * n) P)) k = 0) by nia.
        destruct (Nat.eq_dec j k); subst; auto. apply IH; auto. lia. }
      apply (Hall n); auto. lia. }
    unfold wd in Hw. rewrite nth_skipn in Hw.
    replace (n + (i - n))%nat with i in Hw by lia.
    fold (wd (to_words (2 * n) P) i) in Hw.
    rewrite wd_to_words in Hw by lia.
    rewrite Hw in Hnz. discriminate.
Qed.

Lemma existsb_ext_in (f g : nat -> bool) (l : list nat) :
  (forall i, In i l -> f i = g i) -> existsb f l = existsb g l.
Proof.
  induction l as [|a l IH]; intros H; simpl; auto.
  rewrite (H a (or_introl eq_refl)), IH; auto.
  intros i Hi. apply H. right. exact Hi.
Qed.

Lemma set_add_spec (v : sls_valuation) (out a b : bvect) :
  valuation_ok v -> words_ok a -> words_ok b -> words_ok out ->
  (nw v + 1 <= length out)%nat ->
  (fst (set_add v out a b) = true <->
   get_value (nw v) a + get_value (nw v) b > 2 ^ Z.of_nat (bw v) - 1)
  /\ get_value (nw v) (snd (set_add v out a b))
     = (get_value (nw v) a + get_value (nw v) b) mod 2 ^ Z.of_nat (bw v).
Proof.
  intros Hv Ha Hb Ho Hlen. unfold set_add, mpn_add. cbn [fst snd].
  set (S := get_value (nw v) a + get_value (nw v) b).
  set (out1 := copy_to (to_words (nw v + 1) S) (nw v + 1) out).
  pose proof (get_value_bound (nw v) a Ha) as HA.
  pose proof (get_value_bound (nw v) b Hb) as HB.
  pose proof (pow32 (nw v)) as Hp. pose proof (pow_bw_le v Hv) as Hle.
  assert (Hok1 : words_ok out1) by (apply copy_to_ok; auto; apply to_words_ok).
  assert (Hval : get_value (nw v) out1 = S mod 2 ^ (32 * Z.of_nat (nw v))).
  { unfold out1. rewrite get_value_copy_to, get_value_to_words by lia.
    reflexivity. }
  assert (Htop : wd out1 (nw v) = S / 2 ^ (32 * Z.of_nat (nw v))).
  { unfold out1. rewrite wd_copy_to.
    destruct (Nat.ltb_spec (nw v) (nw v + 1)),
      (Nat.ltb_spec (nw v) (length out)); try lia. cbn [andb].
    rewrite wd_to_words by lia. apply Z.mod_small.
    rewrite wB_eq. split.
    - apply Z.div_pos; lia.
    - apply Z.div_lt_upper_bound; lia. }
  split.
  - rewrite Htop.
    pose proof (has_overflow_value v out1 Hv Hok1) as Hov. rewrite Hval in Hov.
    destruct (Z_lt_le_dec S (2 ^ (32 * Z.of_nat (nw v)))) as [Hlt|Hge].
    + rewrite Z.div_small by (unfold S in *; lia). cbn [Z.eqb negb orb].
      rewrite Z.mod_small in Hov by (unfold S in *; lia).
      destruct Hov as [Hov1 Hov2].
      destruct (has_overflow v out1); split; intros H; auto; try lia;
        try discriminate; try (discriminate Hov2; lia).
    + assert (0 < S / 2 ^ (32 * Z.of_nat (nw v)))
        by (apply Z.div_str_pos; lia).
      destruct (Z.eqb_spec (S / 2 ^ (32 * Z.of_nat (nw v))) 0); [lia|].
      cbn [negb orb]. split; intros; auto. lia.
  - rewrite clear_overflow_value; auto.
    + rewrite Hval. apply Z.mod_mod_divide. apply pow_bw_divides; auto.
    + unfold out1. rewrite copy_to_length. lia.
Qed.

Lemma set_mul_spec (v : sls_valuation) (out a b : bvect) :
  valuation_ok v -> words_ok a -> words_ok b -> words_ok out ->
  (2 * nw v <= length out)%nat ->
  (fst (set_mul v out a b true) = true <->
   get_value (nw v) a * get_value (nw v) b > 2 ^ Z.of_nat (bw v) - 1)
  /\ get_value (nw v) (snd (set_mul v out a b true))
     = (get_value (nw v) a * get_value (nw v) b) mod 2 ^ Z.of_nat (bw v).
Proof.
  intros Hv Ha Hb Ho Hlen. unfold set_mul, mpn_mul. cbn [fst snd].
  set (P := get_value (nw v) a * get_value (nw v) b).
  set (out1 := copy_to (to_words (2 * nw v) P) (2 * nw v) out).
  pose proof (get_value_bound (nw v) a Ha) as HA.
  pose proof (get_value_bound (nw v) b Hb) as HB.
  pose proof (pow32 (nw v)) as Hp. pose proof (pow_bw_le v Hv) as Hle.
  destruct (valuation_geometry v Hv) as (m & Hm & Hn & Eb & Em).
  assert (HP : 0 <= P < 2 ^ (32 * Z.of_nat (2 * nw v))).
  { replace (32 * Z.of_nat (2 * nw v))
      with (32 * Z.of_nat (nw v) + 32 * Z.of_nat (nw v)) by lia.
    rewrite Z.pow_add_r by lia. unfold P. nia. }
  assert (Hok1 : words_ok out1) by (apply copy_to_ok; auto; apply to_words_ok).
  assert (Hval : get_value (nw v) out1 = P mod 2 ^ (32 * Z.of_nat (nw v))).
  { unfold out1. rewrite get_value_copy_to, get_value_to_words by lia.
    reflexivity. }
  split.
  - rewrite fold_orb_existsb.
    rewrite (existsb_ext_in _
               (fun i => negb ((P / 2 ^ (32 * Z.of_nat i)) mod wB =? 0))).
    2:{ intros i Hi. apply in_seq in Hi. unfold out1. rewrite wd_copy_to.
        destruct (Nat.ltb_spec i (2 * nw v)), (Nat.ltb_spec i (length out));
          try lia. cbn [andb]. rewrite wd_to_words by lia. reflexivity. }
    pose proof (high_words_zero P (nw v) (proj1 HP)) as Hhi.
    rewrite (Z.mod_small P) in Hhi by exact HP.
    pose proof (has_overflow_value v out1 Hv Hok1) as Hov. rewrite Hval in Hov.
    destruct (existsb _ _).
    + rewrite orb_true_r. split; intros; auto.
      destruct (Z_lt_le_dec P (2 ^ (32 * Z.of_nat (nw v)))) as [Hlt|Hge];
        [|lia].
      apply Hhi in Hlt. discriminate.
    + rewrite orb_false_r.
      assert (Hlt : P < 2 ^ (32 * Z.of_nat (nw v))) by (apply Hhi; auto).
      rewrite Z.mod_small in Hov by lia.
      destruct Hov as [Hov1 Hov2].
      destruct (has_overflow v out1); split; intros H; auto; try lia;
        try discriminate; try (discriminate Hov2; lia).
  - rewrite clear_overflow_value; auto.
    + rewrite Hval. apply Z.mod_mod_divide. apply pow_bw_divides; auto.
    + unfold out1. rewrite copy_to_length. lia.
Qed.

(** C8.  [set_add] returns true exactly when the exact sum of the operands
    exceeds [2^bw - 1] and leaves the sum modulo [2^bw] in [out];
    [set_mul] with [check_overflow = true] does the same for the exact
    product. *)
Theorem set_add_set_mul_overflow (v : sls_valuation) (out a b : bvect) :
  valuation_ok v -> words_ok a -> words_ok b -> words_ok out ->
  (2 * nw v <= length out)%nat ->
  has_overflow v a = false -> has_overflow v b = false ->
  ((fst (set_add v out a b) = true <->
    get_value (nw v) a + get_value (nw v) b > 2 ^ Z.of_nat (bw v) - 1)
   /\ get_value (nw v) (snd (set_add v out a b))
      = (get_value (nw v) a + get_value (nw v) b) mod 2 ^ Z.of_nat (bw v))
  /\ ((fst (set_mul v out a b true) = true <->
       get_value (nw v) a * get_value (nw v) b > 2 ^ Z.of_nat (bw v) - 1)
      /\ get_value (nw v) (snd (set_mul v out a b true))
         = (get_value (nw v) a * get_value (nw v) b) mod 2 ^ Z.of_nat (bw v)).
Proof.
  intros Hv Ha Hb Ho Hlen _ _.
  destruct (valuation_geometry v Hv) as (m & Hm & Hn & Eb & Em).
  split.
  - apply set_add_spec; auto. lia.
  - apply set_mul_spec; auto.
Qed.

Lemma set_add_set_mul_overflow_witness :
  fst (set_add example_valuation [0; 0] [200; 0] [100; 0]) = true
  /\ get_value 1 (snd (set_add example_valuation [0; 0] [200; 0] [100; 0]))
     = 44
  /\ fst (set_mul example_valuation [0; 0] [20; 0] [13; 0] true) = true
  /\ get_value 1 (snd (set_mul example_valuation [0; 0] [20; 0] [13; 0] true))
     = 4.
Proof.
  pose proof (set_add_set_mul_overflow example_valuation [0; 0] [200; 0]
                [100; 0] example_valuation_ok
                (words_okb_sound [200; 0] eq_refl)
                (words_okb_sound [100; 0] eq_refl)
                (words_okb_sound [0; 0] eq_refl)
                (le_n 2) eq_refl eq_refl) as [[Hadd Hsum] _].
  pose proof (set_add_set_mul_overflow example_valuation [0; 0] [20; 0]
                [13; 0] example_valuation_ok
                (words_okb_sound [20; 0] eq_refl)
                (words_okb_sound [13; 0] eq_refl)
                (words_okb_sound [0; 0] eq_refl)
                (le_n 2) eq_refl eq_refl) as [_ [Hmul Hprod]].
  split; [|split; [|split]].
  - apply Hadd. reflexivity.
  - etransitivity; [exact Hsum|reflexivity].
  - apply Hmul. reflexivity.
  - etransitivity; [exact Hprod|reflexivity].
Defined.

(** ** Bits of a value *)

Lemma testbit_add_high (L w k i : Z) :
  0 <= k -> 0 <= L < 2 ^ k -> 0 <= i ->
  Z.testbit (L + 2 ^ k * w) i
  = if i <? k then Z.testbit L i else Z.testbit w (i - k).
Proof.
  intros Hk HL Hi.
  assert (Hp : 0 < 2 ^ k) by (apply Z.pow_pos_nonneg; lia).
  destruct (Z.ltb_spec i k).
  - rewrite <- (Z.mod_pow2_bits_low (L + 2 ^ k * w) k i) by lia.
    rewrite (Z.mul_comm (2 ^ k) w), Z.mod_add, Z.mod_small by lia.
    reflexivity.
  - replace i with ((i - k) + k) at 1 by lia.
    rewrite <- Z.div_pow2_bits by lia.
    rewrite (Z.mul_comm (2 ^ k) w), Z.div_add, Z.div_small by lia.
    reflexivity.
Qed.

Lemma testbit_get_value (n : nat) (v : bvect) (i : nat) :
  words_ok v -> (i < digit_bits * n)%nat ->
  Z.testbit (get_value n v) (Z.of_nat i) = get v i.
Proof.
  intros Hv. induction n as [|n IH]; intros Hi; [unfold digit_bits in Hi; lia|].
  cbn [get_value].
  rewrite testbit_add_high by (try apply get_value_bound; auto; lia).
  pose proof (bit_index_split i) as Ei.
  pose proof (mod_digit_bits_lt i) as Hm.
  unfold digit_bits in *.
  destruct (Z.ltb_spec (Z.of_nat i) (32 * Z.of_nat n)).
  - apply IH. lia.
  - rewrite get_testbit. unfold digit_bits.
    assert (E : (i / 32)%nat = n) by lia.
    rewrite E. f_equal. lia.
Qed.

Lemma mod_pow2_succ (V : Z) (i : nat) :
  V mod 2 ^ Z.of_nat (S i)
  = V mod 2 ^ Z.of_nat i
    + (if Z.testbit V (Z.of_nat i) then 2 ^ Z.of_nat i else 0).
Proof.
  replace (Z.of_nat (S i)) with (Z.of_nat i + 1) by lia.
  rewrite Z.pow_add_r by lia. change (2 ^ 1) with 2.
  assert (0 < 2 ^ Z.of_nat i) by (apply Z.pow_pos_nonneg; lia).
  rewrite Z.rem_mul_r by lia.
  rewrite <- Z.testbit_spec' by lia.
  destruct (Z.testbit V (Z.of_nat i)); simpl; lia.
Qed.

Lemma high_bit_iff (V : Z) (i B : nat) :
  0 <= V < 2 ^ Z.of_nat B ->
  ((exists j, (i <= j < B)%nat /\ Z.testbit V (Z.of_nat j) = true)
   <-> 2 ^ Z.of_nat i <= V).
Proof.
  intros HV. split.
  - intros (j & Hj & Hb).
    destruct (Z_lt_le_dec V (2 ^ Z.of_nat i)) as [Hlt|]; auto. exfalso.
    destruct (Z.eq_dec V 0) as [->|Hne].
    + rewrite Z.bits_0 in Hb. discriminate.
    + rewrite Z.bits_above_log2 in Hb; [discriminate|lia|].
      assert (Z.log2 V < Z.of_nat i) by (apply Z.log2_lt_pow2; lia). lia.
  - intros Hle.
    assert (Hpos : 0 < V)
      by (pose proof (Z.pow_pos_nonneg 2 (Z.of_nat i)); lia).
    exists (Z.to_nat (Z.log2 V)).
    pose proof (Z.log2_nonneg V).
    rewrite Z2Nat.id by lia. split; [|apply Z.bit_log2; auto].
    assert (Z.of_nat i <= Z.log2 V) by (apply Z.log2_le_pow2; lia).
    assert (Z.log2 V < Z.of_nat B) by (apply Z.log2_lt_pow2; lia).
    lia.
Qed.

(** ** to_nat *)

Lemma any_bit_spec (d : bvect) (i cnt : nat) :
  any_bit d i cnt = true <-> exists j, (i <= j < i + cnt)%nat /\ get d j = true.
Proof.
  revert i. induction cnt as [|c IH]; intros i; cbn [any_bit].
  - split; [discriminate|]. intros (j & Hj & _). lia.
  - destruct (get d i) eqn:E.
    + split; auto. intros _. exists i. split; auto. lia.
    + rewrite IH. split; intros (j & Hj & Hb); exists j; split; auto; try lia.
      destruct (Nat.eq_dec j i); [subst; congruence|lia].
Qed.

Lemma to_nat_loop_spec (d : bvect) (max_n V : Z) (B : nat) :
  (forall j, (j < B)%nat -> get d j = Z.testbit V (Z.of_nat j)) ->
  0 <= V < 2 ^ Z.of_nat B -> 0 <= max_n < 2 ^ 31 ->
  forall cnt i : nat,
    (i + cnt = B)%nat ->
    (i = 0%nat \/ 2 ^ (Z.of_nat i - 1) < max_n) ->
    to_nat_loop d max_n i cnt (2 ^ Z.of_nat i) (V mod 2 ^ Z.of_nat i)
    = if V <? 2 ^ Z.min (Z.of_nat B) (Z.log2_up max_n) then V else max_n.
Proof.
  intros Hbits HV Hmax. induction cnt as [|c IH]; intros i Hi Hprev.
  - cbn [to_nat_loop]. replace i with B in * by lia.
    rewrite Z.mod_small by lia.
    assert (E : Z.min (Z.of_nat B) (Z.log2_up max_n) = Z.of_nat B).
    { pose proof (Z.log2_up_nonneg max_n).
      destruct Hprev as [->|Hprev]; [lia|].
      destruct (Nat.eq_dec B 0) as [->|]; [lia|].
      assert (0 < 2 ^ (Z.of_nat B - 1)) by (apply Z.pow_pos_nonneg; lia).
      assert (Z.of_nat B - 1 < Z.log2_up max_n)
        by (apply Z.log2_up_lt_pow2; lia).
      lia. }
    rewrite E. destruct (Z.ltb_spec V (2 ^ Z.of_nat B)); auto. lia.
  - cbn [to_nat_loop].
    assert (Hpi : 0 < 2 ^ Z.of_nat i) by (apply Z.pow_pos_nonneg; lia).
    destruct (Z.leb_spec max_n (2 ^ Z.of_nat i)) as [Hexit|Hgo].
    + assert (E : Z.min (Z.of_nat B) (Z.log2_up max_n) = Z.of_nat i).
      { pose proof (Z.log2_up_nonneg max_n).
        destruct (Z_le_gt_dec max_n 0) as [Hz|Hpos].
        - rewrite Z.log2_up_nonpos in * by lia.
          destruct Hprev as [->|Hprev]; [lia|].
          pose proof (Z.pow_nonneg 2 (Z.of_nat i - 1) ltac:(lia)). lia.
        - assert (Z.log2_up max_n <= Z.of_nat i)
            by (apply Z.log2_up_le_pow2; lia).
          destruct Hprev as [->|Hprev]; [lia|].
          destruct (Nat.eq_dec i 0) as [->|]; [lia|].
          assert (Z.of_nat i - 1 < Z.log2_up max_n)
            by (apply Z.log2_up_lt_pow2; lia).
          lia. }
      rewrite E.
      pose proof (any_bit_spec d i (S c)) as Hany.
      pose proof (high_bit_iff V i B HV) as Hhi.
      replace (i + S c)%nat with B in Hany by lia.
      destruct (Z.ltb_spec V (2 ^ Z.of_nat i)) as [Hlt|Hge].
      * rewrite Z.mod_small by lia.
        destruct (any_bit d i (S c)); auto. exfalso.
        destruct Hany as [Hany _]. destruct (Hany eq_refl) as (j & Hj & Hb).
        rewrite Hbits in Hb by lia.
        assert (2 ^ Z.of_nat i <= V); [|lia].
        apply Hhi. exists j. split; auto.
      * destruct (any_bit d i (S c)); auto. exfalso.
        destruct Hhi as [_ Hhi]. destruct (Hhi Hge) as (j & Hj & Hb).
        rewrite <- Hbits in Hb by lia.
        assert (false = true); [|discriminate].
        apply Hany. exists j. split; auto.
    + assert (Hp2 : wrap (Z.shiftl (2 ^ Z.of_nat i) 1) = 2 ^ Z.of_nat (S i)).
      { rewrite Z.shiftl_mul_pow2 by lia. change (2 ^ 1) with 2.
        replace (Z.of_nat (S i)) with (Z.of_nat i + 1) by lia.
        rewrite Z.pow_add_r by lia. change (2 ^ 1) with 2.
        apply wrap_small. unfold word_ok. rewrite wB_eq.
        change (2 ^ 31) with 2147483648 in Hmax. lia. }
      rewrite Hp2.
      assert (Hval : (if get d i
                      then wrap (V mod 2 ^ Z.of_nat i + 2 ^ Z.of_nat i)
                      else V mod 2 ^ Z.of_nat i)
                     = V mod 2 ^ Z.of_nat (S i)).
      { rewrite mod_pow2_succ, Hbits by lia.
        destruct (Z.testbit V (Z.of_nat i)); [|lia].
        apply wrap_small. unfold word_ok. rewrite wB_eq.
        pose proof (Z.mod_pos_bound V (2 ^ Z.of_nat i) Hpi).
        change (2 ^ 31) with 2147483648 in Hmax. lia. }
      transitivity (to_nat_loop d max_n (S i) c (2 ^ Z.of_nat (S i))
                                (V mod 2 ^ Z.of_nat (S i)));
        [f_equal; exact Hval|].
      apply IH; [lia|].
      right. replace (Z.of_nat (S i) - 1) with (Z.of_nat i) by lia. lia.
Qed.

Lemma bits_value_testbit (v : sls_valuation) (x : bvect) (j : nat) :
  valuation_ok v -> words_ok x -> (j < bw v)%nat ->
  get x j = Z.testbit (get_value (nw v) x) (Z.of_nat j).
Proof.
  intros Hv Hx Hj.
  destruct (valuation_geometry v Hv) as (m & Hm & Hn & Eb & Em).
  symmetry. apply testbit_get_value; auto. unfold digit_bits in *. lia.
Qed.

(** C9 (as amended).  [to_nat(max_n)] compares the committed value with
    the least power of two [2^k >= max_n] (with [k] capped by [bw]), not
    with [max_n] itself: it returns the value when the value is below
    [2^k] and [max_n] otherwise.  So a value [<= max_n] is returned as it
    is, a value [>= 2 * max_n] gives [max_n], and the result is at most
    [max(max_n, 2 * max_n - 3)]: it can exceed [max_n]. *)
Theorem to_nat_pow2_saturation (v : sls_valuation) (max_n : Z) :
  valuation_ok v -> has_overflow v (m_bits v) = false ->
  0 <= max_n < UINT_MAX / 2 ->
  to_nat v max_n
  = (if bits_value v <? 2 ^ Z.min (Z.of_nat (bw v)) (Z.log2_up max_n)
     then bits_value v else max_n)
  /\ (bits_value v <= max_n -> to_nat v max_n = bits_value v)
  /\ (2 * max_n <= bits_value v -> to_nat v max_n = max_n)
  /\ (to_nat v max_n = bits_value v \/ to_nat v max_n = max_n)
  /\ to_nat v max_n <= Z.max max_n (2 * max_n - 3).
Proof.
  intros Hv Hov Hmax.
  assert (Hb : words_ok (m_bits v)) by apply Hv.
  pose proof (get_value_bound (nw v) (m_bits v) Hb) as Hnn.
  apply (has_overflow_value v _ Hv Hb) in Hov.
  change (UINT_MAX / 2) with 2147483647 in Hmax.
  assert (Hspec : to_nat v max_n
          = if bits_value v <? 2 ^ Z.min (Z.of_nat (bw v)) (Z.log2_up max_n)
            then bits_value v else max_n).
  { unfold to_nat, bits_value.
    rewrite <- (to_nat_loop_spec (m_bits v) max_n
                  (get_value (nw v) (m_bits v)) (bw v)) with (cnt := bw v)
                                                             (i := 0%nat);
      auto; try lia;
      try (intros j Hj; apply bits_value_testbit; auto);
      try (change (2 ^ 31) with 2147483648; lia).
    change (2 ^ Z.of_nat 0) with 1. rewrite Z.mod_1_r. reflexivity. }
  split; [exact Hspec|]. rewrite Hspec. unfold bits_value in *.
  set (V := get_value (nw v) (m_bits v)) in *.
  set (k := Z.min (Z.of_nat (bw v)) (Z.log2_up max_n)).
  pose proof (Z.log2_up_nonneg max_n) as Hlog.
  assert (Hk0 : 0 <= k) by (unfold k; lia).
  assert (Hpk : 0 < 2 ^ k) by (apply Z.pow_pos_nonneg; lia).
  assert (Hup : 0 < max_n -> 2 ^ k <= 2 * max_n - 2 \/ k = 0).
  { intros Hpos. destruct (Z.eq_dec k 0) as [|Hk]; auto. left.
    assert (Hlt : k - 1 < Z.log2_up max_n) by (unfold k; lia).
    apply Z.log2_up_lt_pow2 in Hlt; auto.
    replace k with (k - 1 + 1) by lia. rewrite Z.pow_add_r by lia.
    change (2 ^ 1) with 2. lia. }
  assert (Hlow : V < 2 ^ k \/ max_n <= 2 ^ k).
  { unfold k. destruct (Z.min_spec (Z.of_nat (bw v)) (Z.log2_up max_n))
      as [[_ ->]|[_ ->]]; [left; lia|right].
    destruct (Z_le_gt_dec max_n 0) as [Hz|Hpos].
    - pose proof (Z.pow_pos_nonneg 2 (Z.log2_up max_n)). lia.
    - apply Z.log2_up_le_pow2; lia. }
  assert (Hz : max_n <= 0 -> k = 0).
  { intros Hle. unfold k. rewrite Z.log2_up_nonpos by lia. lia. }
  assert (Hsmall : V < 2 ^ k -> V <= 2 * max_n - 3 \/ V = 0).
  { intros Hlt. destruct (Z_le_gt_dec max_n 0) as [Hle|Hpos].
    - right. rewrite (Hz Hle) in Hlt. change (2 ^ 0) with 1 in Hlt. lia.
    - destruct (Hup ltac:(lia)) as [Hu|Hu]; [lia|].
      right. rewrite Hu in Hlt. change (2 ^ 0) with 1 in Hlt. lia. }
  destruct (Z.ltb_spec V (2 ^ k)) as [Hlt|Hge].
  - destruct (Hsmall Hlt); repeat split; auto; try lia.
  - repeat split; auto; try lia.
Qed.

Lemma to_nat_pow2_saturation_witness :
  to_nat seven_valuation 9 = 7 /\ to_nat seven_valuation 3 = 3.
Proof.
  pose proof (to_nat_pow2_saturation seven_valuation 9
                (valuation_okb_sound seven_valuation eq_refl) eq_refl
                ltac:(vm_compute; split; congruence)) as H9.
  pose proof (to_nat_pow2_saturation seven_valuation 3
                (valuation_okb_sound seven_valuation eq_refl) eq_refl
                ltac:(vm_compute; split; congruence)) as H3.
  split.
  - apply (proj1 (proj2 H9)). vm_compute. congruence.
  - apply (proj1 (proj2 (proj2 H3))). vm_compute. congruence.
Defined.

(** C9, the claim as stated fails: with [bw = 8], committed value 7 and
    [max_n = 5] the result is 7, which exceeds [max_n]. *)
Lemma to_nat_exceeds_max_n :
  valuation_ok seven_valuation
  /\ has_overflow seven_valuation (m_bits seven_valuation) = false
  /\ 5 < UINT_MAX / 2
  /\ bits_value seven_valuation = 7
  /\ to_nat seven_valuation 5 = 7
  /\ ~ to_nat seven_valuation 5 <= 5.
Proof.
  split; [apply valuation_okb_sound; reflexivity|].
  repeat split; try reflexivity. vm_compute. congruence.
Qed.

(** ** Failure leaves the valuation alone *)

Lemma try_set_false (v : sls_valuation) (x : bvect) :
  fst (try_set v x) = false -> snd (try_set v x) = v.
Proof. unfold try_set. destruct (can_set v x); simpl; congruence. Qed.

Lemma try_set_bit_false (v : sls_valuation) (i : nat) (b : bool) :
  fst (try_set_bit v i b) = false ->
  m_bits (snd (try_set_bit v i b)) = m_bits v
  /\ (snd (try_set_bit v i b) = v
      \/ in_range v (m_bits v) = false
         /\ eval (snd (try_set_bit v i b)) = set (set (eval v) i b) i (negb b)).
Proof.
  unfold try_set_bit.
  destruct (get (fixed v) i && negb (Bool.eqb (get_bit v i) b)); simpl; auto.
  change (in_range (with_eval v (set (eval v) i b)) (m_bits v))
    with (in_range v (m_bits v)).
  destruct (in_range v (m_bits v)); simpl; auto. discriminate.
Qed.

Lemma try_set_range_false (v : sls_valuation) (dst : bvect) (l h : nat)
      (b : bool) :
  fst (try_set_range v dst l h b) = false ->
  snd (try_set_range v dst l h b) = dst.
Proof. unfold try_set_range. destruct (existsb _ _); simpl; congruence. Qed.

Lemma commit_eval_false (v : sls_valuation) :
  fst (commit_eval v) = false -> snd (commit_eval v) = v.
Proof.
  unfold commit_eval.
  destruct (agree_fixed v (m_bits v) (eval v)); simpl; auto.
  destruct (in_range v (eval v)); simpl; auto. discriminate.
Qed.

Lemma set_repair_false (v : sls_valuation) (try_down : bool) (dst : bvect) :
  fst (fst (set_repair v try_down dst)) = false ->
  snd (fst (set_repair v try_down dst)) = v.
Proof.
  unfold set_repair.
  repeat match goal with
         | |- context [if ?c then _ else _] => destruct c
         end; simpl; auto; discriminate.
Qed.

Section SamplingFacts.

Variable random_gen : Type.
Variable rand : random_gen -> Z * random_gen.

Lemma ret_try_set_false (v : sls_valuation) (tmp : bvect) (g : random_gen) :
  sampled_ok (ret_try_set random_gen v tmp g) = false ->
  sampled_val (ret_try_set random_gen v tmp g) = v.
Proof.
  unfold ret_try_set, sampled_ok, sampled_val.
  pose proof (try_set_false v tmp) as H.
  destruct (try_set v tmp) as [ok v']. simpl in *. exact H.
Qed.

Ltac sampler_cases :=
  repeat match goal with
         | |- context [let '(_, _) := ?e in _] =>
             let p := fresh "p" in destruct e as [? ?] eqn:p
         | |- context [if ?c then _ else _] => destruct c
         end;
  auto using ret_try_set_false; try (simpl; discriminate).

Lemma set_random_at_most_false (v : sls_valuation) (src tmp : bvect)
      (g : random_gen) :
  sampled_ok (set_random_at_most random_gen rand v src tmp g) = false ->
  sampled_val (set_random_at_most random_gen rand v src tmp g) = v.
Proof. unfold set_random_at_most. sampler_cases. Qed.

Lemma set_random_at_least_false (v : sls_valuation) (src tmp : bvect)
      (g : random_gen) :
  sampled_ok (set_random_at_least random_gen rand v src tmp g) = false ->
  sampled_val (set_random_at_least random_gen rand v src tmp g) = v.
Proof. unfold set_random_at_least. sampler_cases. Qed.

Lemma set_random_in_range_false (v : sls_valuation) (l h tmp : bvect)
      (g : random_gen) :
  sampled_ok (set_random_in_range random_gen rand v l h tmp g) = false ->
  sampled_val (set_random_in_range random_gen rand v l h tmp g) = v.
Proof. unfold set_random_in_range. sampler_cases. Qed.

End SamplingFacts.

(** C7.  An operation that returns false leaves the valuation, and so
    [eval] and [bits], exactly as it was before the call: [try_set_bit]
    at any index below [bw], on a valuation whose committed value is in
    range, which the function asserts on entry; [try_set],
    [commit_eval], [set_repair] and the three randomized samplers on any
    valuation; a failing [try_set_range] leaves its [dst] untouched. *)
Theorem failed_operations_keep_state
        (random_gen : Type) (rand : random_gen -> Z * random_gen)
        (v : sls_valuation) :
  (forall i b, (i < bw v)%nat -> in_range v (m_bits v) = true ->
               fst (try_set_bit v i b) = false -> snd (try_set_bit v i b) = v)
  /\ (forall x, fst (try_set v x) = false -> snd (try_set v x) = v)
  /\ (forall dst l h b, fst (try_set_range v dst l h b) = false ->
                        snd (try_set_range v dst l h b) = dst)
  /\ (fst (commit_eval v) = false -> snd (commit_eval v) = v)
  /\ (forall try_down dst,
         fst (fst (set_repair v try_down dst)) = false ->
         snd (fst (set_repair v try_down dst)) = v)
  /\ (forall src tmp g,
         sampled_ok (set_random_at_most random_gen rand v src tmp g) = false ->
         sampled_val (set_random_at_most random_gen rand v src tmp g) = v)
  /\ (forall src tmp g,
         sampled_ok (set_random_at_least random_gen rand v src tmp g) = false ->
         sampled_val (set_random_at_least random_gen rand v src tmp g) = v)
  /\ (forall l h tmp g,
         sampled_ok (set_random_in_range random_gen rand v l h tmp g) = false ->
         sampled_val (set_random_in_range random_gen rand v l h tmp g) = v).
Proof.
  split; [|split; [|split; [|split; [|split; [|split; [|split]]]]]].
  - intros i b _ Hin Hf.
    destruct (try_set_bit_false v i b Hf) as [_ [E|[Hout _]]]; auto.
    congruence.
  - intros x. apply try_set_false.
  - intros dst l h b. apply try_set_range_false.
  - apply commit_eval_false.
  - intros try_down dst. apply set_repair_false.
  - intros src tmp g. apply set_random_at_most_false.
  - intros src tmp g. apply set_random_at_least_false.
  - intros l h tmp g. apply set_random_in_range_false.
Qed.

Lemma failed_operations_keep_state_witness :
  snd (try_set_bit odd_valuation 0 false) = odd_valuation
  /\ snd (try_set odd_valuation [4; 0]) = odd_valuation
  /\ sampled_val (set_random_at_least nat counter_rand odd_valuation
                                      [201; 0] [0; 0] 0%nat)
     = odd_valuation.
Proof.
  pose proof (failed_operations_keep_state nat counter_rand odd_valuation)
    as (Hbit & Hset & _ & _ & _ & _ & Hleast & _).
  split; [|split].
  - apply Hbit; [vm_compute; lia|reflexivity|reflexivity].
  - apply Hset. reflexivity.
  - apply Hleast. reflexivity.
Defined.

(** ** Bounded search *)

(** C3, the code at a failing input.  [odd_valuation] is well formed, has
    bit 0 fixed to 1 and the range [3, 11).  [get_at_most(6)] returns true
    with [dst = 6], which [can_set] rejects although 5 is feasible and
    below 6; [get_at_least(6)] returns true with [dst = 3], which is below
    its argument, although 7 is feasible. *)
Theorem get_at_most_returns_infeasible :
  odd_valuation
  = mk_valuation [3; 0] [3; 0] [11; 0] 0 255 8 1 [4294967041; 0] [3; 0]
  /\ valuation_okb odd_valuation = true
  /\ well_formed odd_valuation = true
  /\ has_overflow odd_valuation [6; 0] = false
  /\ get_at_most odd_valuation [6; 0] [0; 0] = (true, [6; 0])
  /\ can_set odd_valuation [6; 0] = false
  /\ can_set odd_valuation [5; 0] = true
  /\ get_at_least odd_valuation [6; 0] [0; 0] = (true, [3; 0])
  /\ can_set odd_valuation [7; 0] = true.
Proof. repeat split; reflexivity. Qed.

(** ** The wrap-around scenario *)

Lemma bytes_cases (P : Z -> Prop) :
  Forall P bytes -> forall n, 0 <= n < 256 -> P n.
Proof.
  intros H n Hn. rewrite Forall_forall in H. apply H.
  unfold bytes. replace n with (Z.of_nat (Z.to_nat n)) by lia.
  apply in_map. apply in_seq. lia.
Qed.

Lemma bytes_agree (f g : Z -> bool) :
  forallb (fun x => Bool.eqb (f x) (g x)) bytes = true ->
  forall x, 0 <= x < 256 -> f x = g x.
Proof.
  intros H. apply bytes_cases. apply Forall_forall. intros x Hx.
  rewrite forallb_forall in H. apply Bool.eqb_prop. apply H. exact Hx.
Qed.

(** One committed value of the scenario: an even one is excluded, an odd
    one is settled by evaluation. *)
Ltac scenario_case :=
  match goal with
  | Hodd : Z.odd ?n = true |- _ =>
      first
        [ discriminate Hodd
        | assert (Hcan : forall x, 0 <= x < 256 ->
                    can_set (fixed_then_ranged n) [x; 0]
                    = Z.odd x && ((x <? 5) || (10 <=? x)))
            by (apply (bytes_agree
                         (fun x => can_set (fixed_then_ranged n) [x; 0])
                         (fun x => Z.odd x && ((x <? 5) || (10 <=? x))));
                vm_compute; reflexivity);
          split; [vm_compute; reflexivity|];
          split; [intros i Hi;
                  do 8 (destruct i as [|i]; [vm_compute; reflexivity|]); lia|];
          split; [vm_compute; reflexivity|];
          split; [exact Hcan|];
          split; [vm_compute; reflexivity|];
          split; [vm_compute; reflexivity|];
          split; [vm_compute; reflexivity|];
          split; [intros x Hx; rewrite Hcan by lia;
                  assert (E1 : (x <? 5) = false) by (apply Z.ltb_ge; lia);
                  rewrite E1; cbn [orb];
                  destruct (Z.leb_spec 10 x);
                    [replace x with 10 by lia; reflexivity
                    |apply Bool.andb_false_r]|];
          intros Hr;
          first [split; vm_compute; reflexivity | exfalso; clear - Hr; lia] ]
  end.

(** C4.  The scenario of the claim, [bw = 8], only bit 0 fixed, committed
    value odd, wrap-around range from 10 to 5, as the valuation's own
    operations build it from any odd committed value [n]: bit 0 is the
    only fixed bit below [bw] and the committed bit 0 is 1; the values
    [can_set] accepts are exactly the odd [x] with [x < 5] or [x >= 10];
    [tighten_range] has raised the stored [lo] to 11; and
    [get_at_least(7, dst)] returns true with [dst = 11], the smallest
    feasible value from 7 on (words of [src] and [dst] beyond the first
    are not used).  When [n] itself lies in the range, the valuation is
    well formed, and fixing bit 0 after [add_range(10, 5)] and then
    calling [tighten_range] gives the same valuation. *)
Theorem get_at_least_wraparound_scenario
        (n : Z) (srest : bvect) (d0 : digit_t) (drest : bvect) :
  0 <= n < 256 -> Z.odd n = true ->
  bw (fixed_then_ranged n) = 8%nat
  /\ (forall i, (i < 8)%nat ->
                get (fixed (fixed_then_ranged n)) i = (i =? 0)%nat)
  /\ get_bit (fixed_then_ranged n) 0 = true
  /\ (forall x, 0 <= x < 256 ->
                can_set (fixed_then_ranged n) [x; 0]
                = Z.odd x && ((x <? 5) || (10 <=? x)))
  /\ lo (fixed_then_ranged n) = 11 /\ hi (fixed_then_ranged n) = 5
  /\ get_at_least (fixed_then_ranged n) (7 :: srest) (d0 :: drest)
     = (true, 11 :: drest)
  /\ (forall x, 7 <= x < 11 -> can_set (fixed_then_ranged n) [x; 0] = false)
  /\ (n < 5 \/ 10 <= n ->
      well_formed (fixed_then_ranged n) = true
      /\ ranged_then_fixed n = fixed_then_ranged n).
Proof.
  intros Hn. revert srest d0 drest. pattern n.
  apply bytes_cases; [clear n Hn|exact Hn].
  unfold bytes.
  let l := eval vm_compute in (map Z.of_nat (seq 0 256)) in
  change (map Z.of_nat (seq 0 256)) with l.
  repeat (apply Forall_cons; [intros srest d0 drest Hodd; scenario_case|]).
  apply Forall_nil.
Qed.

Lemma get_at_least_wraparound_scenario_witness :
  get_at_least (fixed_then_ranged 1) [7; 0] [0; 0] = (true, [11; 0])
  /\ can_set (fixed_then_ranged 1) [11; 0] = true
  /\ ranged_then_fixed 1 = fixed_then_ranged 1.
Proof.
  destruct (get_at_least_wraparound_scenario 1 [0] 0 [0]
              ltac:(lia) eq_refl)
    as (_ & _ & _ & Hcan & _ & _ & Hget & _ & Hsame).
  split; [exact Hget|]. split.
  - rewrite Hcan by lia. reflexivity.
  - apply Hsame. left. lia.
Defined.

(** ** Range maintenance *)

Lemma set_word_bits (w : Z) (k : nat) (b : bool) (j : Z) :
  (k < 32)%nat -> 0 <= j ->
  Z.testbit
    (Z.lxor w (Z.land (Z.lxor (wrap (0 - (if b then 1 else 0))) w) (wshl1 k)))
    j
  = if j =? Z.of_nat k then b else Z.testbit w j.
Proof.
  intros Hk Hj.
  rewrite Z.lxor_spec, Z.land_spec, Z.lxor_spec, wshl1_pow, Z.pow2_bits_eqb
    by lia.
  rewrite testbit_wrap. rewrite (Z.eqb_sym (Z.of_nat k) j).
  destruct (Z.eqb_spec j (Z.of_nat k)) as [->|Hne].
  - destruct (Z.ltb_spec (Z.of_nat k) 32); [|lia].
    destruct b; cbn [andb].
    + change (0 - 1) with (-1). rewrite Z.bits_m1 by lia.
      destruct (Z.testbit w (Z.of_nat k)); reflexivity.
    + change (0 - 0) with 0. rewrite Z.bits_0.
      destruct (Z.testbit w (Z.of_nat k)); reflexivity.
  - rewrite andb_false_r, xorb_false_r. reflexivity.
Qed.

Lemma set_word_ok (w : Z) (k : nat) (b : bool) :
  word_ok w ->
  word_ok
    (Z.lxor w (Z.land (Z.lxor (wrap (0 - (if b then 1 else 0))) w) (wshl1 k))).
Proof.
  intros Hw. apply lxor_ok; auto. apply land_ok.
  - apply lxor_ok; auto. apply wrap_ok.
  - unfold wshl1. apply wrap_ok.
Qed.

Lemma set_ok (x : bvect) (i : nat) (b : bool) :
  words_ok x -> words_ok (set x i b).
Proof.
  intros Hx. unfold set. apply upd_ok; auto.
  apply set_word_ok. apply wd_ok; auto.
Qed.

Lemma length_set (x : bvect) (i : nat) (b : bool) :
  length (set x i b) = length x.
Proof. unfold set. apply length_upd. Qed.

Lemma get_set (x : bvect) (i j : nat) (b : bool) :
  (i / digit_bits < length x)%nat ->
  get (set x i b) j = if (j =? i)%nat then b else get x j.
Proof.
  intros Hi. rewrite !get_testbit. unfold set, get_bit_word, get_pos_mask.
  rewrite wd_upd.
  pose proof (bit_index_split i) as Ei. pose proof (bit_index_split j) as Ej.
  pose proof (mod_digit_bits_lt i) as Hmi.
  destruct (Nat.ltb_spec (i / digit_bits) (length x)); [|lia].
  rewrite andb_true_r.
  destruct (Nat.eqb_spec (j / digit_bits) (i / digit_bits)) as [Ew|Nw].
  - rewrite set_word_bits by (auto; lia). rewrite Ew.
    destruct (Z.eqb_spec (Z.of_nat (j mod digit_bits))
                         (Z.of_nat (i mod digit_bits))) as [Eb|Nb].
    + destruct (Nat.eqb_spec j i); auto. lia.
    + destruct (Nat.eqb_spec j i); auto. subst. lia.
  - destruct (Nat.eqb_spec j i); auto. subst. lia.
Qed.

Lemma fold_set_ok (f : nat -> bool) (l : list nat) (x : bvect) :
  words_ok x -> words_ok (fold_left (fun d i => set d i (f i)) l x).
Proof.
  revert x. induction l as [|a l IH]; intros x Hx; simpl; auto.
  apply IH. apply set_ok. exact Hx.
Qed.

Lemma fold_set_length (f : nat -> bool) (l : list nat) (x : bvect) :
  length (fold_left (fun d i => set d i (f i)) l x) = length x.
Proof.
  revert x. induction l as [|a l IH]; intros x; simpl; auto.
  rewrite IH. apply length_set.
Qed.

Lemma fold_set_get (f : nat -> bool) (n : nat) (x : bvect) (j : nat) :
  (forall i, (i < n)%nat -> (i / digit_bits < length x)%nat) ->
  get (fold_left (fun d i => set d i (f i)) (seq 0 n) x) j
  = if (j <? n)%nat then f j else get x j.
Proof.
  induction n as [|n IH]; intros Hlen.
  - reflexivity.
  - rewrite seq_S, fold_left_app. cbn [fold_left Nat.add].
    rewrite get_set by (rewrite fold_set_length; apply Hlen; lia).
    rewrite IH by (intros; apply Hlen; lia).
    destruct (Nat.eqb_spec j n), (Nat.ltb_spec j (S n)), (Nat.ltb_spec j n);
      subst; auto; lia.
Qed.

Lemma value_of_bits (v : sls_valuation) (y : bvect) (N : Z) :
  valuation_ok v -> words_ok y ->
  (forall j, (j < bw v)%nat -> get y j = Z.testbit N (Z.of_nat j)) ->
  get_value (nw v) y mod 2 ^ Z.of_nat (bw v) = N mod 2 ^ Z.of_nat (bw v).
Proof.
  intros Hv Hy Hbits. apply Z.bits_inj'. intros k Hk.
  rewrite !Z.testbit_mod_pow2 by lia.
  destruct (Z.ltb_spec k (Z.of_nat (bw v))); cbn [andb]; auto.
  replace k with (Z.of_nat (Z.to_nat k)) by lia.
  rewrite <- Hbits by lia. symmetry. apply bits_value_testbit; auto. lia.
Qed.

(** [set_value] stores its argument modulo [2^bw]. *)
Lemma set_value_spec (v : sls_valuation) (x : bvect) (N : Z) :
  valuation_ok v -> shaped v x ->
  get_value (nw v) (set_value v x N) = N mod 2 ^ Z.of_nat (bw v)
  /\ shaped v (set_value v x N).
Proof.
  intros Hv [Hlen Hx].
  destruct (valuation_geometry v Hv) as (m & Hm & Hn & Eb & Em).
  unfold set_value.
  set (y := fold_left (fun d i => set d i (Z.testbit N (Z.of_nat i)))
                      (seq 0 (bw v)) x).
  assert (Hy : words_ok y) by (apply fold_set_ok; auto).
  assert (Hly : length y = length x) by apply fold_set_length.
  split.
  - rewrite clear_overflow_value by (auto; lia).
    apply value_of_bits; auto. intros j Hj. unfold y.
    rewrite (fold_set_get (fun i => Z.testbit N (Z.of_nat i))).
    + destruct (Nat.ltb_spec j (bw v)); auto. lia.
    + intros i Hi.
      assert (i / digit_bits < nw v)%nat; [|lia].
      apply Nat.Div0.div_lt_upper_bound. unfold digit_bits in *. lia.
  - split.
    + unfold clear_overflow_bits. rewrite length_upd. lia.
    + apply clear_overflow_ok; auto. rewrite Em, Z.ones_equiv.
      assert (0 < 2 ^ Z.of_nat m <= 2 ^ 32)
        by (split; [apply Z.pow_pos_nonneg|apply Z.pow_le_mono_r]; lia).
      unfold word_ok, wB. lia.
Qed.

(** The intersection step of [add_range] on a non-wrapped range: a lower
    bound strictly inside the range is stored. *)
Lemma intersect_range_nonwrapped_lo (v : sls_valuation) (l h : Z) :
  valuation_ok v -> lo v < hi v -> lo v < l < hi v ->
  0 <= l < 2 ^ Z.of_nat (bw v) ->
  lo (intersect_range v l h) = l.
Proof.
  intros Hv Hlt Hl Hr.
  assert (Hlo : shaped v (m_lo v)) by apply Hv.
  assert (Hhi : shaped v (m_hi v)) by apply Hv.
  unfold intersect_range.
  rewrite beq_spec by (apply Hlo || apply Hhi). fold (lo v) (hi v).
  destruct (Z.eqb_spec (lo v) (hi v)); [lia|].
  destruct (Z.ltb_spec (lo v) (hi v)); [|lia].
  destruct (Z.ltb_spec (lo v) l); [|lia].
  destruct (Z.ltb_spec l (hi v)); [|lia]. cbn [andb].
  destruct (Z.ltb_spec (hi v) h), (Z.ltb_spec h (hi v)); cbn [andb]; try lia;
    unfold lo; cbn [with_lo with_hi nw m_lo];
    rewrite (proj1 (set_value_spec v (m_lo v) l Hv Hlo));
    apply Z.mod_small; lia.
Qed.

Lemma tighten_lo_hi (v : sls_valuation) (cnt : nat) :
  m_hi (tighten_lo v cnt) = m_hi v.
Proof.
  induction cnt as [|i IH]; cbn [tighten_lo]; auto.
  repeat match goal with
         | |- context [if ?c then _ else _] => destruct c
         end; auto.
Qed.

Lemma tighten_range_hi (v : sls_valuation) :
  m_hi (tighten_range v) = m_hi v.
Proof.
  unfold tighten_range.
  repeat match goal with
         | |- context [if ?c then _ else _] => destruct c
         end; auto; rewrite tighten_lo_hi; reflexivity.
Qed.

(** In the non-wrapped case no call of [add_range] moves [hi]: the test
    that guards the update is [old_hi < h && h < old_hi]. *)
Lemma add_range_nonwrapped_hi (v : sls_valuation) (l h : Z) :
  beq (nw v) (m_lo v) (m_hi v) = false -> lo v < hi v ->
  m_hi (add_range v l h) = m_hi v.
Proof.
  intros Hne Hlt. unfold add_range.
  destruct (_ =? _); auto.
  rewrite tighten_range_hi. unfold intersect_range. rewrite Hne.
  destruct (Z.ltb_spec (lo v) (hi v)); [|lia].
  destruct (_ && _); cbn zeta beta iota;
    (destruct (Z.ltb_spec (hi v) (h mod 2 ^ Z.of_nat (bw v)));
     destruct (Z.ltb_spec (h mod 2 ^ Z.of_nat (bw v)) (hi v));
     simpl; auto; lia).
Qed.

(** C5, the code at a failing input.  [ranged_valuation] has the range
    [2, 10) and no fixed bit below [bw]; both 3 and 7 lie strictly inside.
    [add_range(3, 7)] stores [lo = 3] but leaves [hi = 10]. *)
Theorem add_range_keeps_hi :
  valuation_okb ranged_valuation = true
  /\ lo ranged_valuation = 2 /\ hi ranged_valuation = 10
  /\ lo (add_range ranged_valuation 3 7) = 3
  /\ hi (add_range ranged_valuation 3 7) = 10
  /\ hi (add_range ranged_valuation 3 7) <> 7.
Proof. repeat split; try reflexivity. vm_compute. congruence. Qed.

(** C6, the code at a failing input.  [odd_valuation] is well formed;
    after [add_range(4, 20)] the committed value is 3 and the stored range
    is [5, 11): the valuation is not well formed. *)
Theorem add_range_breaks_well_formed :
  valuation_okb odd_valuation = true
  /\ well_formed odd_valuation = true
  /\ stale_valuation = add_range odd_valuation 4 20
  /\ bits_value stale_valuation = 3
  /\ lo stale_valuation = 5 /\ hi stale_valuation = 11
  /\ has_range stale_valuation = true
  /\ in_range stale_valuation (m_bits stale_valuation) = false
  /\ well_formed stale_valuation = false.
Proof. repeat split; reflexivity. Qed.

(** * Further properties of the code *)

(** ** Ordering, bits and values of a vector *)

(** X1.  The comparison operators of [bvect] order two vectors as the
    unsigned integers [get_value] widens them to. *)
Theorem bvect_order_agrees_with_value (n : nat) (a b : bvect) :
  words_ok a -> words_ok b ->
  (beq n a b = true <-> get_value n a = get_value n b)
  /\ (bne n a b = true <-> get_value n a <> get_value n b)
  /\ (blt n a b = true <-> get_value n a < get_value n b)
  /\ (ble n a b = true <-> get_value n a <= get_value n b)
  /\ (bgt n a b = true <-> get_value n a > get_value n b)
  /\ (bge n a b = true <-> get_value n a >= get_value n b).
Proof.
  intros Ha Hb. unfold bne.
  rewrite beq_spec, blt_spec, ble_spec, bgt_spec, bge_spec by assumption.
  destruct (Z.eqb_spec (get_value n a) (get_value n b)),
    (Z.ltb_spec (get_value n a) (get_value n b)),
    (Z.leb_spec (get_value n a) (get_value n b)),
    (Z.ltb_spec (get_value n b) (get_value n a)),
    (Z.leb_spec (get_value n b) (get_value n a));
    repeat split; intros; simpl in *; try lia; try discriminate; auto.
Qed.

Lemma bvect_order_agrees_with_value_witness :
  blt 2 [7; 1] [3; 2] = true /\ bge 2 [7; 1] [3; 2] = false.
Proof.
  pose proof (bvect_order_agrees_with_value 2 [7; 1] [3; 2]
                (words_okb_sound [7; 1] eq_refl)
                (words_okb_sound [3; 2] eq_refl))
    as (_ & _ & Hlt & _ & _ & Hge).
  split.
  - apply Hlt. vm_compute. reflexivity.
  - apply Bool.not_true_is_false. intros E.
    apply Hge in E. vm_compute in E. congruence.
Defined.

Lemma get_set_other (x : bvect) (i j : nat) (b : bool) :
  j <> i -> get (set x i b) j = get x j.
Proof.
  intros Hne. rewrite !get_testbit. unfold set, get_bit_word, get_pos_mask.
  rewrite wd_upd.
  pose proof (bit_index_split i) as Ei. pose proof (bit_index_split j) as Ej.
  pose proof (mod_digit_bits_lt i) as Hmi.
  destruct (Nat.eqb_spec (j / digit_bits) (i / digit_bits)) as [Ew|Nw];
    [|reflexivity].
  destruct (Nat.ltb_spec (i / digit_bits) (length x)); [|reflexivity].
  cbn [andb]. rewrite set_word_bits by (auto; lia). rewrite Ew.
  destruct (Z.eqb_spec (Z.of_nat (j mod digit_bits))
                       (Z.of_nat (i mod digit_bits))); [lia|reflexivity].
Qed.

(** X2.  Writing bit [i] of a vector that holds it and reading bit [j]
    back gives the written value at [j = i] and the old bit elsewhere; the
    write keeps the length and the 32-bit range of the words. *)
Theorem bit_set_then_get (x : bvect) (i j : nat) (b : bool) :
  (i / digit_bits < length x)%nat -> words_ok x ->
  get (set x i b) j = (if (j =? i)%nat then b else get x j)
  /\ length (set x i b) = length x
  /\ words_ok (set x i b).
Proof.
  intros Hi Hx. split; [apply get_set; exact Hi|].
  split; [apply length_set|apply set_ok; exact Hx].
Qed.

Lemma bit_set_then_get_witness :
  get (set [5; 0] 33 true) 33 = true /\ get (set [5; 0] 33 true) 2 = true.
Proof.
  pose proof (bit_set_then_get [5; 0] 33 33 true ltac:(vm_compute; lia)
                (words_okb_sound [5; 0] eq_refl)) as [H33 _].
  pose proof (bit_set_then_get [5; 0] 33 2 true ltac:(vm_compute; lia)
                (words_okb_sound [5; 0] eq_refl)) as [H2 _].
  split; [rewrite H33|rewrite H2]; reflexivity.
Defined.

(** X3.  [get_value(n)] is the unsigned integer whose binary digits are
    the bits [get] reads: it lies in [0, 2^(32 n)) and its bit [i] is
    [get(i)] for every [i < 32 n]. *)
Theorem get_value_bits (n : nat) (v : bvect) :
  words_ok v ->
  0 <= get_value n v < 2 ^ (32 * Z.of_nat n)
  /\ forall i, (i < digit_bits * n)%nat ->
               Z.testbit (get_value n v) (Z.of_nat i) = get v i.
Proof.
  intros Hv. split; [apply get_value_bound; exact Hv|].
  intros i Hi. apply testbit_get_value; assumption.
Qed.

Lemma get_value_bits_witness :
  get_value 2 [5; 1] = 4294967301
  /\ Z.testbit (get_value 2 [5; 1]) 32 = get [5; 1] 32.
Proof.
  pose proof (get_value_bits 2 [5; 1] (words_okb_sound [5; 1] eq_refl))
    as [_ H].
  split; [reflexivity|]. apply (H 32%nat). vm_compute. lia.
Defined.

(** X4.  [has_overflow(x)] is false exactly when the value of [x] is below
    [2^bw]; [clear_overflow_bits] reduces the value modulo [2^bw], leaves
    no overflow bit (its own assertion) and changes nothing in a vector
    that had none. *)
Theorem clear_overflow_bits_reduces (v : sls_valuation) (x : bvect) :
  valuation_ok v -> words_ok x -> (nw v <= length x)%nat ->
  (has_overflow v x = false <-> get_value (nw v) x < 2 ^ Z.of_nat (bw v))
  /\ get_value (nw v) (clear_overflow_bits v x)
     = get_value (nw v) x mod 2 ^ Z.of_nat (bw v)
  /\ has_overflow v (clear_overflow_bits v x) = false
  /\ (has_overflow v x = false ->
      get_value (nw v) (clear_overflow_bits v x) = get_value (nw v) x).
Proof.
  intros Hv Hx Hlen.
  pose proof (has_overflow_value v x Hv Hx) as Hov.
  pose proof (clear_overflow_value v x Hv Hx Hlen) as Hcl.
  pose proof (pow_bw_le v Hv) as Hp.
  pose proof (get_value_bound (nw v) x Hx) as Hb.
  assert (Hm : word_ok (mask v)).
  { destruct (valuation_geometry v Hv) as (m & Hm & Hn & Eb & Em).
    rewrite Em, Z.ones_equiv.
    assert (0 < 2 ^ Z.of_nat m <= 2 ^ 32)
      by (split; [apply Z.pow_pos_nonneg|apply Z.pow_le_mono_r]; lia).
    unfold word_ok, wB. lia. }
  split; [exact Hov|]. split; [exact Hcl|]. split.
  - apply has_overflow_value; auto.
    + apply clear_overflow_ok; auto.
    + rewrite Hcl. apply Z.mod_pos_bound. lia.
  - intros H. rewrite Hcl. apply Z.mod_small. apply Hov in H. lia.
Qed.

Lemma clear_overflow_bits_reduces_witness :
  get_value 1 (clear_overflow_bits seven_valuation [300; 0]) = 44.
Proof.
  pose proof (clear_overflow_bits_reduces seven_valuation [300; 0]
                (valuation_okb_sound seven_valuation eq_refl)
                (words_okb_sound [300; 0] eq_refl)
                ltac:(vm_compute; lia)) as (_ & H & _).
  etransitivity; [exact H|reflexivity].
Defined.

(** X5.  [set_value(bits, n)] stores [n] modulo [2^bw]: the value read
    back is [n mod 2^bw], bit [j < bw] is bit [j] of [n], and no overflow
    bit is left. *)
Theorem set_value_roundtrip (v : sls_valuation) (x : bvect) (N : Z) :
  valuation_ok v -> shaped v x ->
  get_value (nw v) (set_value v x N) = N mod 2 ^ Z.of_nat (bw v)
  /\ has_overflow v (set_value v x N) = false
  /\ forall j, (j < bw v)%nat ->
               get (set_value v x N) j = Z.testbit N (Z.of_nat j).
Proof.
  intros Hv Hx.
  destruct (set_value_spec v x N Hv Hx) as [Hval [Hlen Hok]].
  pose proof (pow_bw_le v Hv) as Hp.
  split; [exact Hval|]. split.
  - apply has_overflow_value; auto. rewrite Hval.
    apply Z.mod_pos_bound. lia.
  - intros j Hj. rewrite (bits_value_testbit v _ j Hv Hok Hj), Hval.
    rewrite Z.testbit_mod_pow2 by lia.
    destruct (Z.ltb_spec (Z.of_nat j) (Z.of_nat (bw v))); [reflexivity|lia].
Qed.

Lemma set_value_roundtrip_witness :
  get_value 1 (set_value seven_valuation [0; 0] 300) = 44.
Proof.
  pose proof (set_value_roundtrip seven_valuation [0; 0] 300
                (valuation_okb_sound seven_valuation eq_refl)
                (shapedb_sound seven_valuation [0; 0] eq_refl)) as [H _].
  etransitivity; [exact H|reflexivity].
Defined.

(** ** The value of a vector after a write *)

Lemma get_value_upd (n : nat) (x : bvect) (j : nat) (w : Z) :
  (j < n)%nat -> (j < length x)%nat ->
  get_value n (upd x j w)
  = get_value n x + 2 ^ (32 * Z.of_nat j) * (w - wd x j).
Proof.
  intros Hj Hl. induction n as [|n IH]; [lia|].
  cbn [get_value]. rewrite wd_upd.
  destruct (Nat.ltb_spec j (length x)); [|lia]. rewrite andb_true_r.
  destruct (Nat.eqb_spec n j) as [->|Hne].
  - rewrite (get_value_ext j (upd x j w) x).
    + ring.
    + intros i Hi. rewrite wd_upd.
      destruct (Nat.eqb_spec i j); [lia|reflexivity].
  - rewrite IH by lia. ring.
Qed.

Lemma set_word_value (w : Z) (k : nat) (b : bool) :
  (k < 32)%nat ->
  Z.lxor w (Z.land (Z.lxor (wrap (0 - (if b then 1 else 0))) w) (wshl1 k))
  = w + (Z.b2z b - Z.b2z (Z.testbit w (Z.of_nat k))) * 2 ^ Z.of_nat k.
Proof.
  intros Hk. rewrite wshl1_pow by exact Hk. rewrite land_pow2 by lia.
  rewrite Z.lxor_spec, testbit_wrap.
  destruct (Z.ltb_spec (Z.of_nat k) 32); [|lia]. cbn [andb].
  assert (Hv : Z.testbit (0 - (if b then 1 else 0)) (Z.of_nat k) = b).
  { destruct b.
    - change (0 - 1) with (-1). apply Z.bits_m1. lia.
    - apply Z.bits_0. }
  rewrite Hv.
  destruct b, (Z.testbit w (Z.of_nat k)) eqn:Ew; cbn [xorb Z.b2z].
  - rewrite Z.lxor_0_r. lia.
  - rewrite <- Z.add_nocarry_lxor; [lia|].
    rewrite land_pow2, Ew by lia. reflexivity.
  - assert (E : Z.lxor w (2 ^ Z.of_nat k) + 2 ^ Z.of_nat k = w).
    { rewrite Z.add_nocarry_lxor.
      - rewrite Z.lxor_assoc, Z.lxor_nilpotent, Z.lxor_0_r. reflexivity.
      - rewrite land_pow2 by lia.
        rewrite Z.lxor_spec, Ew, Z.pow2_bits_true by lia. reflexivity. }
    lia.
  - rewrite Z.lxor_0_r. lia.
Qed.

Lemma set_value_change (n : nat) (x : bvect) (i : nat) (b : bool) :
  (i < digit_bits * n)%nat -> (n <= length x)%nat ->
  get_value n (set x i b)
  = get_value n x + (Z.b2z b - Z.b2z (get x i)) * 2 ^ Z.of_nat i.
Proof.
  intros Hi Hl. unfold set, get_bit_word, get_pos_mask.
  pose proof (bit_index_split i) as Ei.
  pose proof (mod_digit_bits_lt i) as Hm.
  assert (Hj : (i / digit_bits < n)%nat)
    by (apply Nat.Div0.div_lt_upper_bound; exact Hi).
  rewrite get_value_upd by lia.
  rewrite set_word_value by exact Hm.
  rewrite get_testbit.
  replace (2 ^ Z.of_nat i)
    with (2 ^ (32 * Z.of_nat (i / digit_bits))
          * 2 ^ Z.of_nat (i mod digit_bits)).
  - ring.
  - rewrite <- Z.pow_add_r by lia. f_equal. unfold digit_bits in *. lia.
Qed.

(** ** sub1 *)

Lemma any_bit_set_above (x : bvect) (i j cnt : nat) (b : bool) :
  (i < j)%nat -> any_bit (set x i b) j cnt = any_bit x j cnt.
Proof.
  revert j. induction cnt as [|c IH]; intros j Hj; cbn [any_bit]; auto.
  rewrite get_set_other by lia. rewrite IH by lia. reflexivity.
Qed.

Lemma sub1_from_value (n : nat) (x : bvect) (i cnt : nat) :
  (i + cnt <= digit_bits * n)%nat -> (n <= length x)%nat ->
  get_value n (sub1_from x i cnt)
  = if any_bit x i cnt then get_value n x - 2 ^ Z.of_nat i
    else get_value n x + 2 ^ Z.of_nat i * (2 ^ Z.of_nat cnt - 1).
Proof.
  revert x i. induction cnt as [|c IH]; intros x i Hi Hl.
  - cbn [sub1_from any_bit]. change (2 ^ Z.of_nat 0) with 1. lia.
  - cbn [sub1_from any_bit]. destruct (get x i) eqn:Eg.
    + rewrite set_value_change, Eg by lia. cbn [Z.b2z]. lia.
    + rewrite IH by (rewrite ?length_set; lia).
      rewrite any_bit_set_above by lia.
      rewrite set_value_change, Eg by lia. cbn [Z.b2z].
      replace (Z.of_nat (S i)) with (Z.of_nat i + 1) by lia.
      replace (Z.of_nat (S c)) with (Z.of_nat c + 1) by lia.
      rewrite !Z.pow_add_r by lia. change (2 ^ 1) with 2.
      destruct (any_bit x (S i) c); lia.
Qed.

Lemma sub1_from_ok (x : bvect) (i cnt : nat) :
  words_ok x ->
  words_ok (sub1_from x i cnt) /\ length (sub1_from x i cnt) = length x.
Proof.
  revert x i. induction cnt as [|c IH]; intros x i Hx; cbn [sub1_from]; auto.
  destruct (get x i).
  - split; [apply set_ok; auto|apply length_set].
  - destruct (IH (set x i true) (S i) (set_ok _ _ _ Hx)) as [H1 H2].
    split; auto. rewrite H2. apply length_set.
Qed.

Lemma any_bit_zero (v : sls_valuation) (x : bvect) :
  valuation_ok v -> words_ok x ->
  get_value (nw v) x < 2 ^ Z.of_nat (bw v) ->
  (any_bit x 0 (bw v) = true <-> 1 <= get_value (nw v) x).
Proof.
  intros Hv Hx Hlt.
  pose proof (get_value_bound (nw v) x Hx) as Hb.
  rewrite any_bit_spec.
  rewrite <- (high_bit_iff (get_value (nw v) x) 0 (bw v)) by lia.
  split; intros (j & Hj & Hg); exists j; (split; [lia|]).
  - rewrite <- (bits_value_testbit v x j) by (auto; lia). exact Hg.
  - rewrite (bits_value_testbit v x j) by (auto; lia). exact Hg.
Qed.

Lemma mod_minus_one (M : Z) : 0 < M -> (0 - 1) mod M = M - 1.
Proof.
  intros HM. symmetry. apply Z.mod_unique with (q := -1); lia.
Qed.

Lemma sub1_spec (v : sls_valuation) (x : bvect) :
  valuation_ok v -> shaped v x -> has_overflow v x = false ->
  get_value (nw v) (sub1 v x)
  = (get_value (nw v) x - 1) mod 2 ^ Z.of_nat (bw v)
  /\ has_overflow v (sub1 v x) = false
  /\ shaped v (sub1 v x).
Proof.
  intros Hv [Hlen Hx] Hov.
  destruct (valuation_geometry v Hv) as (m & Hm & Hn & Eb & Em).
  apply (has_overflow_value v x Hv Hx) in Hov.
  pose proof (get_value_bound (nw v) x Hx) as Hb.
  pose proof (pow_bw_le v Hv) as Hp.
  destruct (sub1_from_ok x 0 (bw v) Hx) as [Hok Hl].
  assert (Hval : get_value (nw v) (sub1 v x)
                 = (get_value (nw v) x - 1) mod 2 ^ Z.of_nat (bw v)).
  { unfold sub1. rewrite sub1_from_value.
    - pose proof (any_bit_zero v x Hv Hx Hov) as Hany.
      change (2 ^ Z.of_nat 0) with 1.
      destruct (any_bit x 0 (bw v)).
      + rewrite Z.mod_small; [reflexivity|].
        destruct Hany as [Hany _]. specialize (Hany eq_refl). lia.
      + assert (get_value (nw v) x = 0).
        { destruct (Z.eq_dec (get_value (nw v) x) 0); auto.
          destruct Hany as [_ Hany]. discriminate Hany. lia. }
        rewrite H, mod_minus_one by lia. lia.
    - rewrite Eb. unfold digit_bits. lia.
    - exact Hlen. }
  split; [exact Hval|]. split.
  - apply has_overflow_value; auto. rewrite Hval.
    apply Z.mod_pos_bound. lia.
  - split; [unfold sub1; rewrite Hl; exact Hlen|exact Hok].
Qed.

(** X6.  [sub1] decrements modulo [2^bw]: on a vector without overflow
    bits the value becomes [value - 1], and the value 0 wraps to
    [2^bw - 1]; the result has no overflow bit. *)
Theorem sub1_decrements (v : sls_valuation) (x : bvect) :
  valuation_ok v -> shaped v x -> has_overflow v x = false ->
  get_value (nw v) (sub1 v x)
  = (get_value (nw v) x - 1) mod 2 ^ Z.of_nat (bw v)
  /\ has_overflow v (sub1 v x) = false
  /\ shaped v (sub1 v x).
Proof. apply sub1_spec. Qed.

Lemma sub1_decrements_witness :
  get_value 1 (sub1 seven_valuation [0; 0]) = 255
  /\ get_value 1 (sub1 seven_valuation [8; 0]) = 7.
Proof.
  pose proof (sub1_decrements seven_valuation [0; 0]
                (valuation_okb_sound seven_valuation eq_refl)
                (shapedb_sound seven_valuation [0; 0] eq_refl) eq_refl)
    as [H0 _].
  pose proof (sub1_decrements seven_valuation [8; 0]
                (valuation_okb_sound seven_valuation eq_refl)
                (shapedb_sound seven_valuation [8; 0] eq_refl) eq_refl)
    as [H8 _].
  split; (etransitivity; [eassumption|reflexivity]).
Defined.

(** ** Clamping into the range *)

Lemma in_range_value (v : sls_valuation) (x : bvect) :
  valuation_ok v -> words_ok x ->
  in_range v x
  = if lo v =? hi v then true
    else if lo v <? hi v
         then (lo v <=? get_value (nw v) x) && (get_value (nw v) x <? hi v)
         else (lo v <=? get_value (nw v) x) || (get_value (nw v) x <? hi v).
Proof.
  intros Hv Hx.
  assert (Hl : words_ok (m_lo v)) by apply Hv.
  assert (Hh : words_ok (m_hi v)) by apply Hv.
  unfold in_range, lo, hi. rewrite !mpn_compare_spec by assumption.
  destruct (Z.compare_spec (get_value (nw v) (m_lo v))
                           (get_value (nw v) (m_hi v)));
    destruct (Z.compare_spec (get_value (nw v) (m_lo v)) (get_value (nw v) x));
    destruct (Z.compare_spec (get_value (nw v) x) (get_value (nw v) (m_hi v)));
    destruct (Z.eqb_spec (get_value (nw v) (m_lo v))
                         (get_value (nw v) (m_hi v)));
    destruct (Z.ltb_spec (get_value (nw v) (m_lo v))
                         (get_value (nw v) (m_hi v)));
    destruct (Z.leb_spec (get_value (nw v) (m_lo v)) (get_value (nw v) x));
    destruct (Z.ltb_spec (get_value (nw v) x) (get_value (nw v) (m_hi v)));
    simpl; auto; lia.
Qed.

Lemma fold_upd_ok (f : bvect -> nat -> Z) (l : list nat) (d : bvect) :
  (forall d i, words_ok d -> word_ok (f d i)) -> words_ok d ->
  words_ok (fold_left (fun d i => upd d i (f d i)) l d).
Proof.
  intros Hf. revert d. induction l as [|a l IH]; intros d Hd; simpl; auto.
  apply IH. apply upd_ok; auto.
Qed.

Lemma wnot_ok (x : Z) : word_ok (wnot x).
Proof. unfold wnot. apply wrap_ok. Qed.

Lemma round_up_spec (v : sls_valuation) (dst : bvect) :
  valuation_ok v -> shaped v dst ->
  (fst (round_up v dst) = false <->
   lo v < hi v /\ hi v <= get_value (nw v) dst)
  /\ (fst (round_up v dst) = true ->
      in_range v (snd (round_up v dst)) = true
      /\ get_value (nw v) dst <= get_value (nw v) (snd (round_up v dst))
      /\ (snd (round_up v dst) = dst
          \/ get_value (nw v) (snd (round_up v dst)) = lo v))
  /\ shaped v (snd (round_up v dst)).
Proof.
  intros Hv [Hlen Hx].
  assert (Hl : words_ok (m_lo v)) by apply Hv.
  assert (Hh : words_ok (m_hi v)) by apply Hv.
  assert (Hc : get_value (nw v) (copy_to (m_lo v) (nw v) dst) = lo v)
    by (apply get_value_copy_to; lia).
  assert (Hco : words_ok (copy_to (m_lo v) (nw v) dst))
    by (apply copy_to_ok; auto).
  unfold round_up.
  rewrite blt_spec, ble_spec, bgt_spec by assumption. fold (lo v) (hi v).
  destruct (Z.ltb_spec (lo v) (hi v));
    destruct (Z.leb_spec (hi v) (get_value (nw v) dst));
    destruct (Z.ltb_spec (get_value (nw v) dst) (lo v));
    cbn [fst snd andb]; rewrite ?in_range_value by assumption;
    rewrite ?Hc;
    repeat match goal with
           | |- context [Z.eqb ?a ?b] => destruct (Z.eqb_spec a b)
           | |- context [Z.ltb ?a ?b] => destruct (Z.ltb_spec a b)
           | |- context [Z.leb ?a ?b] => destruct (Z.leb_spec a b)
           end;
    repeat split; intros; auto; try lia; try discriminate;
    try (rewrite copy_to_length; lia).
Qed.

Lemma round_down_spec (v : sls_valuation) (dst : bvect) :
  valuation_ok v -> shaped v dst ->
  has_overflow v (m_lo v) = false -> has_overflow v (m_hi v) = false ->
  (fst (round_down v dst) = false <->
   lo v < hi v /\ get_value (nw v) dst < lo v)
  /\ (fst (round_down v dst) = true ->
      in_range v (snd (round_down v dst)) = true
      /\ (snd (round_down v dst) = dst
          \/ get_value (nw v) (snd (round_down v dst))
             = (hi v - 1) mod 2 ^ Z.of_nat (bw v)))
  /\ shaped v (snd (round_down v dst)).
Proof.
  intros Hv [Hlen Hx] Hol Hoh.
  assert (Hl : words_ok (m_lo v)) by apply Hv.
  assert (Hh : words_ok (m_hi v)) by apply Hv.
  apply (has_overflow_value v _ Hv Hl) in Hol.
  pose proof (pow_bw_le v Hv) as Hp.
  pose proof (get_value_bound (nw v) (m_lo v) Hl) as Hbl.
  pose proof (get_value_bound (nw v) (m_hi v) Hh) as Hbh.
  assert (Hsh : shaped v (copy_to (m_hi v) (nw v) dst)).
  { split; [rewrite copy_to_length; lia|apply copy_to_ok; auto]. }
  assert (Hc : get_value (nw v) (copy_to (m_hi v) (nw v) dst) = hi v)
    by (apply get_value_copy_to; lia).
  assert (Hoc : has_overflow v (copy_to (m_hi v) (nw v) dst) = false).
  { apply has_overflow_value; [auto|apply Hsh|].
    rewrite Hc. apply (has_overflow_value v _ Hv Hh). exact Hoh. }
  destruct (sub1_spec v _ Hv Hsh Hoc) as (Hs & _ & Hss).
  rewrite Hc in Hs.
  apply (has_overflow_value v _ Hv Hh) in Hoh.
  fold (lo v) in Hol, Hbl. fold (hi v) in Hoh, Hbh.
  assert (Hm : hi v = 0 /\ (hi v - 1) mod 2 ^ Z.of_nat (bw v)
                           = 2 ^ Z.of_nat (bw v) - 1
               \/ 0 < hi v /\ (hi v - 1) mod 2 ^ Z.of_nat (bw v) = hi v - 1).
  { destruct (Z.eq_dec (hi v) 0) as [E|N].
    - left. split; auto. rewrite E. apply mod_minus_one. lia.
    - right. split; [lia|]. apply Z.mod_small. lia. }
  unfold round_down.
  rewrite blt_spec, ble_spec, bgt_spec by assumption. fold (lo v) (hi v).
  destruct (Z.ltb_spec (lo v) (hi v));
    destruct (Z.leb_spec (hi v) (get_value (nw v) dst));
    destruct (Z.ltb_spec (get_value (nw v) dst) (lo v));
    cbn [fst snd andb]; rewrite ?in_range_value by (auto; apply Hss);
    rewrite ?Hs;
    repeat match goal with
           | |- context [Z.eqb ?a ?b] => destruct (Z.eqb_spec a b)
           | |- context [Z.ltb ?a ?b] => destruct (Z.ltb_spec a b)
           | |- context [Z.leb ?a ?b] => destruct (Z.leb_spec a b)
           end;
    repeat split; intros; auto; try lia; try discriminate;
    try apply Hss.
Qed.

Lemma fold_upd_shaped (v : sls_valuation) (f : bvect -> nat -> Z)
      (l : list nat) (d : bvect) :
  (forall d i, words_ok d -> word_ok (f d i)) -> shaped v d ->
  shaped v (fold_left (fun d i => upd d i (f d i)) l d).
Proof.
  intros Hf [Hl Hd]. split.
  - rewrite fold_upd_length. exact Hl.
  - apply fold_upd_ok; auto.
Qed.

Lemma upd_shaped (v : sls_valuation) (d : bvect) (i : nat) (w : Z) :
  word_ok w -> shaped v d -> shaped v (upd d i w).
Proof.
  intros Hw [Hl Hd]. split; [rewrite length_upd; exact Hl|apply upd_ok; auto].
Qed.

Lemma at_most_scan_shaped (v : sls_valuation) (src dst : bvect) (cnt : nat) :
  valuation_ok v -> shaped v dst -> shaped v (at_most_scan v src dst cnt).
Proof.
  intros Hv Hd.
  assert (Hb : words_ok (m_bits v)) by apply Hv.
  induction cnt as [|i IH]; cbn [at_most_scan]; auto.
  destruct (negb _); auto.
  apply (fold_upd_shaped v
           (fun _ j => Z.lor (wnot (wd (fixed v) j)) (wd (m_bits v) j))).
  - intros d j _. apply lor_ok; [apply wnot_ok|apply wd_ok; auto].
  - apply upd_shaped; auto. apply lor_ok.
    + apply land_ok; [apply wnot_ok|apply wrap_ok].
    + apply wd_ok. apply Hd.
Qed.

Lemma at_least_scan_shaped (v : sls_valuation) (src dst : bvect) (cnt : nat) :
  valuation_ok v -> shaped v dst -> shaped v (at_least_scan v src dst cnt).
Proof.
  intros Hv Hd.
  assert (Hf : words_ok (fixed v)) by apply Hv.
  induction cnt as [|i IH]; cbn [at_least_scan]; auto.
  destruct (negb _); auto.
  apply (fold_upd_shaped v (fun d j => Z.land (wd d j) (wd (fixed v) j))).
  - intros d j Hd'. apply land_ok; apply wd_ok; auto.
  - apply upd_shaped; auto. apply land_ok; [apply wd_ok; apply Hd|].
    apply lor_ok; [apply wd_ok; auto|apply wrap_ok].
Qed.

Lemma get_at_most_shaped (v : sls_valuation) (src dst : bvect) :
  valuation_ok v -> words_ok src -> shaped v dst ->
  shaped v
    (at_most_scan v src
       (fold_left
          (fun d i =>
             upd d i (Z.land (wd src i)
                             (Z.lor (wnot (wd (fixed v) i)) (wd (m_bits v) i))))
          (seq 0 (nw v)) dst) (nw v)).
Proof.
  intros Hv Hs Hd. apply at_most_scan_shaped; auto.
  apply (fold_upd_shaped v
           (fun _ i => Z.land (wd src i)
                         (Z.lor (wnot (wd (fixed v) i)) (wd (m_bits v) i))));
    auto.
  intros d i _. apply land_ok; [apply wd_ok; auto|].
  apply lor_ok; [apply wnot_ok|apply wd_ok; apply Hv].
Qed.

Lemma get_at_least_shaped (v : sls_valuation) (src dst : bvect) :
  valuation_ok v -> words_ok src -> shaped v dst ->
  shaped v
    (at_least_scan v src
       (fold_left
          (fun d i =>
             upd d i (Z.lor (Z.land (wnot (wd (fixed v) i)) (wd src i))
                            (Z.land (wd (fixed v) i) (wd (m_bits v) i))))
          (seq 0 (nw v)) dst) (nw v)).
Proof.
  intros Hv Hs Hd. apply at_least_scan_shaped; auto.
  apply (fold_upd_shaped v
           (fun _ i => Z.lor (Z.land (wnot (wd (fixed v) i)) (wd src i))
                         (Z.land (wd (fixed v) i) (wd (m_bits v) i))));
    auto.
  intros d i _. apply lor_ok; apply land_ok;
    try apply wnot_ok; apply wd_ok; auto; apply Hv.
Qed.

(** X7.  Whatever [get_at_most] or [get_at_least] returns with [true] is
    in range (the assertions [in_range(tmp)] of [set_random_in_range]),
    and both can only fail on a non-wrapped range [lo < hi]: on an
    unconstrained or a wrap-around range they always succeed. *)
Theorem bounded_search_result_in_range (v : sls_valuation) (src dst : bvect) :
  valuation_ok v -> words_ok src -> shaped v dst ->
  has_overflow v (m_lo v) = false -> has_overflow v (m_hi v) = false ->
  (fst (get_at_most v src dst) = true ->
   in_range v (snd (get_at_most v src dst)) = true)
  /\ (fst (get_at_least v src dst) = true ->
      in_range v (snd (get_at_least v src dst)) = true)
  /\ (fst (get_at_most v src dst) = false -> lo v < hi v)
  /\ (fst (get_at_least v src dst) = false -> lo v < hi v).
Proof.
  intros Hv Hs Hd Hol Hoh.
  pose proof (get_at_most_shaped v src dst Hv Hs Hd) as Hm.
  pose proof (get_at_least_shaped v src dst Hv Hs Hd) as Hl.
  destruct (round_down_spec v _ Hv Hm Hol Hoh) as (Hdf & Hdt & _).
  destruct (round_up_spec v _ Hv Hl) as (Huf & Hut & _).
  unfold get_at_most, get_at_least.
  repeat split.
  - intros H. apply Hdt. exact H.
  - intros H. apply Hut. exact H.
  - intros H. apply Hdf. exact H.
  - intros H. apply Huf. exact H.
Qed.

Lemma bounded_search_result_in_range_witness :
  in_range odd_valuation (snd (get_at_most odd_valuation [200; 0] [0; 0]))
  = true.
Proof.
  pose proof (bounded_search_result_in_range odd_valuation [200; 0] [0; 0]
                (valuation_okb_sound odd_valuation eq_refl)
                (words_okb_sound [200; 0] eq_refl)
                (shapedb_sound odd_valuation [0; 0] eq_refl)
                eq_refl eq_refl) as [H _].
  apply H. reflexivity.
Defined.

(** ** The extremes of the envelope *)

Lemma wd_fold_seq (g : nat -> Z) (a n : nat) (dst : bvect) (j : nat) :
  wd (fold_left (fun d i => upd d i (g i)) (seq a n) dst) j =
  if ((a <=? j) && (j <? a + n) && (j <? length dst))%nat then g j
  else wd dst j.
Proof.
  revert a dst. induction n as [|n IH]; intros a dst; simpl.
  - replace (a + 0)%nat with a by lia.
    destruct (Nat.leb_spec a j), (Nat.ltb_spec j a); simpl; auto; lia.
  - rewrite IH, length_upd, wd_upd.
    destruct (Nat.leb_spec (S a) j), (Nat.ltb_spec j (S a + n)),
      (Nat.ltb_spec j (length dst)), (Nat.leb_spec a j),
      (Nat.ltb_spec j (a + S n)), (Nat.eqb_spec j a),
      (Nat.ltb_spec a (length dst)); simpl; auto; try lia.
Qed.

Lemma subset_le (a b : Z) : 0 <= a -> 0 <= b -> Z.land a b = a -> a <= b.
Proof.
  intros Ha Hb H.
  assert (Hc : 0 <= Z.ldiff b a) by (apply Z.ldiff_nonneg; lia).
  assert (E : a + Z.ldiff b a = b).
  { rewrite Z.add_nocarry_lxor.
    - apply Z.bits_inj'. intros k Hk.
      apply (f_equal (fun z => Z.testbit z k)) in H.
      rewrite Z.land_spec in H.
      rewrite Z.lxor_spec, Z.ldiff_spec.
      destruct (Z.testbit a k), (Z.testbit b k); simpl in *; congruence.
    - apply Z.bits_inj'. intros k Hk.
      rewrite Z.land_spec, Z.ldiff_spec, Z.bits_0.
      destruct (Z.testbit a k), (Z.testbit b k); reflexivity. }
  lia.
Qed.

Lemma get_value_le (n : nat) (a b : bvect) :
  (forall i, (i < n)%nat -> wd a i <= wd b i) ->
  get_value n a <= get_value n b.
Proof.
  induction n as [|n IH]; intros H; cbn [get_value]; [lia|].
  pose proof (pow32 n). specialize (H n ltac:(lia)) as Hn.
  assert (get_value n a <= get_value n b) by (apply IH; intros; apply H; lia).
  nia.
Qed.

Lemma agree_word_between (f x b : Z) :
  word_ok x ->
  Z.land f (Z.lxor x b) = 0 ->
  Z.land (Z.land f b) x = Z.land f b
  /\ Z.land x (Z.lor (wnot f) b) = x.
Proof.
  intros Hx H. split; apply Z.bits_inj'; intros k Hk;
    apply (f_equal (fun z => Z.testbit z k)) in H;
    rewrite Z.land_spec, Z.lxor_spec, Z.bits_0 in H;
    rewrite ?Z.land_spec, ?Z.lor_spec, ?testbit_wnot by lia.
  - destruct (Z.testbit f k), (Z.testbit x k), (Z.testbit b k);
      simpl in *; congruence.
  - destruct (Z.ltb_spec k 32).
    + destruct (Z.testbit f k), (Z.testbit x k), (Z.testbit b k);
        simpl in *; congruence.
    + rewrite (testbit_high x k) by (auto; lia). reflexivity.
Qed.

Lemma repair_sign_bits_unsigned (v : sls_valuation) (dst : bvect) :
  m_signed_prefix v = 0%nat -> repair_sign_bits v dst = dst.
Proof. intros H. unfold repair_sign_bits. rewrite H. reflexivity. Qed.

(** X8.  With no signed prefix, every value that [can_set] accepts lies
    between [min_feasible] and [max_feasible]: between [lo] and [hi - 1]
    on a non-wrapped range, and otherwise between the completions of the
    fixed bits with zeros and with ones. *)
Theorem feasible_between_min_and_max (v : sls_valuation) (out x : bvect) :
  valuation_ok v -> m_signed_prefix v = 0%nat ->
  has_overflow v (m_hi v) = false ->
  shaped v out -> words_ok x -> can_set v x = true ->
  get_value (nw v) (min_feasible v out) <= get_value (nw v) x
  /\ get_value (nw v) x <= get_value (nw v) (max_feasible v out).
Proof.
  intros Hv Hp Hoh [Hlen Ho] Hx Hc.
  assert (Hl : words_ok (m_lo v)) by apply Hv.
  assert (Hh : words_ok (m_hi v)) by apply Hv.
  assert (Hb : words_ok (m_bits v)) by apply Hv.
  assert (Hf : words_ok (fixed v)) by apply Hv.
  unfold can_set in Hc.
  destruct (agree_fixed v x (m_bits v)) eqn:Ea; [|discriminate].
  unfold agree_fixed in Ea. rewrite agree_from_spec in Ea.
  rewrite in_range_value in Hc by auto.
  unfold min_feasible, max_feasible.
  rewrite !repair_sign_bits_unsigned by exact Hp.
  rewrite blt_spec by assumption. fold (lo v) (hi v).
  destruct (Z.ltb_spec (lo v) (hi v)) as [Hlt|Hge].
  - destruct (Z.eqb_spec (lo v) (hi v)); [lia|].
    destruct (Z.ltb_spec (lo v) (hi v)); [|lia].
    apply andb_true_iff in Hc. destruct Hc as [H1 H2].
    apply Z.leb_le in H1. apply Z.ltb_lt in H2.
    assert (Hsh : shaped v (copy_to (m_hi v) (nw v) out)).
    { split; [rewrite copy_to_length; lia|apply copy_to_ok; auto]. }
    assert (Hcv : get_value (nw v) (copy_to (m_hi v) (nw v) out) = hi v)
      by (apply get_value_copy_to; lia).
    assert (Hoc : has_overflow v (copy_to (m_hi v) (nw v) out) = false).
    { apply has_overflow_value; [auto|apply Hsh|].
      rewrite Hcv. apply (has_overflow_value v _ Hv Hh). exact Hoh. }
    destruct (sub1_spec v _ Hv Hsh Hoc) as (Hs & _).
    rewrite Hs, Hcv, get_value_copy_to by lia. fold (lo v).
    apply (has_overflow_value v _ Hv Hh) in Hoh. fold (hi v) in Hoh.
    pose proof (get_value_bound (nw v) (m_lo v) Hl) as Hbl. fold (lo v) in Hbl.
    rewrite Z.mod_small by lia. lia.
  - split; apply get_value_le; intros i Hi; rewrite wd_fold_seq;
      destruct (Nat.leb_spec 0 i), (Nat.ltb_spec i (0 + nw v)),
        (Nat.ltb_spec i (length out)); try lia; cbn [andb];
      destruct (agree_word_between (wd (fixed v) i) (wd x i) (wd (m_bits v) i)
                  (wd_ok x i Hx) (Ea i ltac:(lia))) as [Hmin Hmax];
      pose proof (wd_ok x i Hx) as Hwx; unfold word_ok in Hwx.
    + apply subset_le; auto; try lia.
      apply Z.land_nonneg. left.
      pose proof (wd_ok (fixed v) i Hf) as Hw. unfold word_ok in Hw. lia.
    + apply subset_le; auto; try lia.
      pose proof (lor_ok _ _ (wnot_ok (wd (fixed v) i)) (wd_ok _ i Hb)) as Hw.
      unfold word_ok in Hw. lia.
Qed.

Lemma feasible_between_min_and_max_witness :
  get_value 1 (min_feasible odd_valuation [0; 0]) <= 5
  /\ 5 <= get_value 1 (max_feasible odd_valuation [0; 0]).
Proof.
  exact (feasible_between_min_and_max odd_valuation [0; 0] [5; 0]
           (valuation_okb_sound odd_valuation eq_refl) eq_refl eq_refl
           (shapedb_sound odd_valuation [0; 0] eq_refl)
           (words_okb_sound [5; 0] eq_refl) eq_refl).
Defined.

(** ** Bit-pattern predicates *)

Lemma get_value_zero_iff (n : nat) (a : bvect) :
  words_ok a -> (get_value n a = 0 <-> forall i, (i < n)%nat -> wd a i = 0).
Proof.
  intros Ha. induction n as [|n IH]; cbn [get_value].
  - split; auto. intros _ i Hi. lia.
  - pose proof (get_value_bound n a Ha). pose proof (pow32 n).
    pose proof (wd_ok a n Ha) as Hw. unfold word_ok in Hw.
    split.
    + intros E i Hi.
      assert (wd a n = 0) by nia. assert (get_value n a = 0) by nia.
      destruct (Nat.eq_dec i n); [subst; auto|]. apply IH; auto. lia.
    + intros Hall. rewrite (Hall n) by lia.
      rewrite (proj2 IH) by (intros; apply Hall; lia). lia.
Qed.

Lemma get_value_max_iff (n : nat) (a : bvect) :
  words_ok a ->
  (get_value n a = 2 ^ (32 * Z.of_nat n) - 1
   <-> forall i, (i < n)%nat -> wd a i = wB - 1).
Proof.
  intros Ha. induction n as [|n IH]; cbn [get_value].
  - split; [intros _ i Hi; lia|reflexivity].
  - pose proof (get_value_bound n a Ha). pose proof (pow32 n).
    pose proof (wd_ok a n Ha) as Hw. unfold word_ok in Hw.
    replace (32 * Z.of_nat (S n)) with (32 * Z.of_nat n + 32) by lia.
    rewrite Z.pow_add_r by lia. fold wB.
    split.
    + intros E i Hi.
      assert (wd a n = wB - 1) by nia.
      assert (get_value n a = 2 ^ (32 * Z.of_nat n) - 1) by nia.
      destruct (Nat.eq_dec i n); [subst; auto|]. apply IH; auto. lia.
    + intros Hall. rewrite (Hall n) by lia.
      rewrite (proj2 IH) by (intros; apply Hall; lia). lia.
Qed.

Lemma get_value_one_iff (n : nat) (a : bvect) :
  words_ok a -> (1 <= n)%nat ->
  (get_value n a = 1
   <-> wd a 0 = 1 /\ forall i, (1 <= i < n)%nat -> wd a i = 0).
Proof.
  intros Ha Hn. induction n as [|n IH]; [lia|].
  cbn [get_value].
  pose proof (get_value_bound n a Ha). pose proof (pow32 n).
  pose proof (wd_ok a n Ha) as Hw. unfold word_ok in Hw.
  destruct (Nat.eq_dec n 0) as [->|Hn0].
  - cbn [get_value]. change (2 ^ (32 * Z.of_nat 0)) with 1.
    split; [intros E; split; [lia|intros; lia]|intros [E _]; lia].
  - assert (Hbig : 2 ^ 32 <= 2 ^ (32 * Z.of_nat n))
      by (apply Z.pow_le_mono_r; lia).
    change (2 ^ 32) with 4294967296 in Hbig.
    split.
    + intros E. assert (wd a n = 0) by nia.
      assert (E1 : get_value n a = 1) by nia.
      apply IH in E1; [|lia]. destruct E1 as [E0 Hall].
      split; auto. intros i Hi.
      destruct (Nat.eq_dec i n); [subst; auto|]. apply Hall. lia.
    + intros [E0 Hall]. rewrite (Hall n) by lia.
      rewrite (proj2 (IH ltac:(lia))); [lia|].
      split; auto. intros; apply Hall; lia.
Qed.

Lemma wnot_val (x : Z) : word_ok x -> wnot x = wB - 1 - x.
Proof.
  intros Hx. unfold wnot, wrap, word_ok in *. rewrite wB_eq in *.
  symmetry. apply Z.mod_unique with (q := -1); unfold Z.lnot; lia.
Qed.

Lemma ones_subset (w : Z) (m : nat) :
  0 <= w < 2 ^ Z.of_nat m -> (m <= 32)%nat ->
  (0 = Z.land (Z.ones (Z.of_nat m)) (wnot w) <-> w = 2 ^ Z.of_nat m - 1).
Proof.
  intros Hw Hm.
  replace (2 ^ Z.of_nat m - 1) with (Z.ones (Z.of_nat m))
    by (rewrite Z.ones_equiv; lia).
  split.
  - intros H. symmetry in H. rewrite land_zero_bits in H.
    apply Z.bits_inj'. intros k Hk.
    rewrite Z.testbit_ones_nonneg by lia.
    specialize (H k Hk).
    rewrite Z.testbit_ones_nonneg, testbit_wnot in H by lia.
    destruct (Z.ltb_spec k (Z.of_nat m)).
    + destruct (Z.ltb_spec k 32); [|lia].
      destruct (Z.testbit w k); simpl in *; congruence.
    + rewrite <- (Z.mod_small w (2 ^ Z.of_nat m)) by lia.
      apply Z.mod_pow2_bits_high. lia.
  - intros ->. symmetry. apply land_zero_bits. intros k Hk.
    rewrite testbit_wnot, Z.testbit_ones_nonneg by lia.
    destruct (Z.ltb_spec k (Z.of_nat m)), (Z.ltb_spec k 32); reflexivity.
Qed.

Lemma forallb_seq (f : nat -> bool) (a n : nat) :
  forallb f (seq a n) = true <-> forall i, (a <= i < a + n)%nat -> f i = true.
Proof.
  rewrite forallb_forall. split; intros H i Hi; apply H.
  - apply in_seq. exact Hi.
  - apply in_seq in Hi. exact Hi.
Qed.

(** X9.  [is_zero(a)] holds exactly when the value of [a] is 0 modulo
    [2^bw], [is_one(a)] exactly when the value is 1, and, on a vector
    without overflow bits, [is_ones(a)] exactly when the value is
    [2^bw - 1]. *)
Theorem bit_pattern_predicates (v : sls_valuation) (a : bvect) :
  valuation_ok v -> shaped v a ->
  (is_zero v a = true <-> get_value (nw v) a mod 2 ^ Z.of_nat (bw v) = 0)
  /\ (is_one v a = true <-> get_value (nw v) a = 1)
  /\ (has_overflow v a = false ->
      (is_ones v a = true <-> get_value (nw v) a = 2 ^ Z.of_nat (bw v) - 1)).
Proof.
  intros Hv [Hlen Ha].
  destruct (valuation_geometry v Hv) as (m & Hm & Hn & Eb & Em).
  assert (Hmask : word_ok (mask v)).
  { rewrite Em, Z.ones_equiv.
    assert (0 < 2 ^ Z.of_nat m <= 2 ^ 32)
      by (split; [apply Z.pow_pos_nonneg|apply Z.pow_le_mono_r]; lia).
    unfold word_ok, wB. lia. }
  split; [|split].
  - rewrite <- clear_overflow_value by auto.
    rewrite get_value_zero_iff by (apply clear_overflow_ok; auto).
    unfold is_zero, clear_overflow_bits.
    rewrite andb_true_iff, forallb_seq, Z.eqb_eq.
    split.
    + intros [Hlow Htop] i Hi. rewrite wd_upd.
      destruct (Nat.eqb_spec i (nw v - 1)) as [->|Hne];
        destruct (Nat.ltb_spec (nw v - 1) (length a)); try lia; cbn [andb];
        auto.
      apply Z.eqb_eq. apply Hlow. lia.
    + intros Hall. split.
      * intros i Hi. apply Z.eqb_eq.
        specialize (Hall i ltac:(lia)). rewrite wd_upd in Hall.
        destruct (Nat.eqb_spec i (nw v - 1)); [lia|exact Hall].
      * specialize (Hall (nw v - 1)%nat ltac:(lia)). rewrite wd_upd in Hall.
        rewrite Nat.eqb_refl in Hall.
        destruct (Nat.ltb_spec (nw v - 1) (length a)); [exact Hall|lia].
  - rewrite get_value_one_iff by (auto; lia).
    unfold is_one. rewrite andb_true_iff, forallb_seq, Z.eqb_eq.
    split.
    + intros [Hhi H0]. split; [lia|].
      intros i Hi. symmetry. apply Z.eqb_eq. apply Hhi. lia.
    + intros [H0 Hhi]. split; [|lia].
      intros i Hi. apply Z.eqb_eq. symmetry. apply Hhi. lia.
  - intros Hov. apply has_overflow_false in Hov.
    rewrite Em in Hov. rewrite word_high_bits in Hov by (auto; apply wd_ok; auto).
    unfold is_ones. rewrite andb_true_iff, forallb_seq, Em.
    pose proof (wd_ok a (nw v - 1) Ha) as Hw. unfold word_ok in Hw.
    rewrite Z.eqb_eq, ones_subset by lia.
    rewrite Eb, pow_bw_split.
    destruct (nw v) as [|n]; [lia|].
    replace (S n - 1)%nat with n in * by lia. cbn [get_value].
    pose proof (get_value_bound n a Ha) as Hb. pose proof (pow32 n) as Hp.
    assert (Hm2 : 0 < 2 ^ Z.of_nat m) by (apply Z.pow_pos_nonneg; lia).
    split.
    + intros [Hlow Htop].
      rewrite (proj2 (get_value_max_iff n a Ha)), Htop; [ring|].
      intros i Hi. specialize (Hlow i ltac:(lia)). apply Z.eqb_eq in Hlow.
      rewrite wnot_val in Hlow by (apply wd_ok; auto). lia.
    + intros E.
      assert (Et : wd a n = 2 ^ Z.of_nat m - 1) by nia.
      assert (El : get_value n a = 2 ^ (32 * Z.of_nat n) - 1) by nia.
      split; auto. intros i Hi. apply Z.eqb_eq.
      rewrite wnot_val by (apply wd_ok; auto).
      rewrite (proj1 (get_value_max_iff n a Ha) El i) by lia. lia.
Qed.

Lemma bit_pattern_predicates_witness :
  is_zero seven_valuation [256; 0] = true
  /\ is_ones seven_valuation [255; 0] = true.
Proof.
  pose proof (bit_pattern_predicates seven_valuation [256; 0]
                (valuation_okb_sound seven_valuation eq_refl)
                (shapedb_sound seven_valuation [256; 0] eq_refl))
    as (Hz & _ & _).
  pose proof (bit_pattern_predicates seven_valuation [255; 0]
                (valuation_okb_sound seven_valuation eq_refl)
                (shapedb_sound seven_valuation [255; 0] eq_refl))
    as (_ & _ & Ho).
  split.
  - apply Hz. reflexivity.
  - apply (Ho eq_refl). reflexivity.
Defined.

(** ** msb, shift_right, set_sub and set_range *)

Lemma msb_scan_spec (b : nat) (src : bvect) (cnt : nat) :
  words_ok src ->
  msb_scan b src cnt
  = if get_value cnt src =? 0 then Z.of_nat b else Z.log2 (get_value cnt src).
Proof.
  intros Hs. induction cnt as [|i IH]; cbn [msb_scan get_value].
  - reflexivity.
  - pose proof (get_value_bound i src Hs) as Hb. pose proof (pow32 i) as Hp.
    pose proof (wd_ok src i Hs) as Hw. unfold word_ok in Hw.
    destruct (Z.eqb_spec (wd src i) 0) as [E|N]; cbn [negb].
    + rewrite IH, E. replace (get_value i src + 2 ^ (32 * Z.of_nat i) * 0)
        with (get_value i src) by ring. reflexivity.
    + destruct (Z.eqb_spec (get_value i src + 2 ^ (32 * Z.of_nat i) * wd src i)
                           0); [nia|].
      unfold log2. symmetry. apply Z.log2_unique.
      * pose proof (Z.log2_nonneg (wd src i)). lia.
      * pose proof (Z.log2_spec (wd src i) ltac:(lia)) as Hl.
        pose proof (Z.log2_nonneg (wd src i)) as Hn.
        replace (Z.of_nat (i * 8 * 4)) with (32 * Z.of_nat i) by lia.
        rewrite <- Z.add_succ_r, !Z.pow_add_r by lia. nia.
Qed.

(** X10.  [msb(src)] is [bw] when the value of [src] is zero and otherwise
    the position of its most significant set bit, the integer logarithm of
    the value. *)
Theorem msb_is_log2 (v : sls_valuation) (src : bvect) :
  words_ok src ->
  (get_value (nw v) src = 0 -> msb v src = Z.of_nat (bw v))
  /\ (0 < get_value (nw v) src ->
      msb v src = Z.log2 (get_value (nw v) src)
      /\ 2 ^ msb v src <= get_value (nw v) src < 2 ^ (msb v src + 1)
      /\ get src (Z.to_nat (msb v src)) = true).
Proof.
  intros Hs. unfold msb. rewrite msb_scan_spec by exact Hs.
  split.
  - intros ->. reflexivity.
  - intros Hpos.
    destruct (Z.eqb_spec (get_value (nw v) src) 0); [lia|].
    pose proof (Z.log2_nonneg (get_value (nw v) src)) as Hn.
    pose proof (get_value_bound (nw v) src Hs) as Hb.
    split; [reflexivity|]. split; [apply Z.log2_spec; exact Hpos|].
    rewrite <- (testbit_get_value (nw v)); auto.
    + rewrite Z2Nat.id by lia. apply Z.bit_log2. exact Hpos.
    + assert (Z.log2 (get_value (nw v) src) < 32 * Z.of_nat (nw v))
        by (apply Z.log2_lt_pow2; lia).
      unfold digit_bits. lia.
Qed.

Lemma msb_is_log2_witness :
  msb seven_valuation [0; 0] = 8 /\ msb seven_valuation [100; 0] = 6.
Proof.
  pose proof (msb_is_log2 seven_valuation [0; 0]
                (words_okb_sound [0; 0] eq_refl)) as [H0 _].
  pose proof (msb_is_log2 seven_valuation [100; 0]
                (words_okb_sound [100; 0] eq_refl)) as [_ H1].
  split.
  - apply H0. reflexivity.
  - apply H1. reflexivity.
Defined.

Lemma testbit_above (V : Z) (B k : Z) :
  0 <= V < 2 ^ B -> B <= k -> Z.testbit V k = false.
Proof.
  intros HV Hk. destruct (Z_lt_le_dec B 0).
  - rewrite Z.pow_neg_r in HV by lia. lia.
  - rewrite <- (Z.mod_small V (2 ^ B)) by lia.
    apply Z.mod_pow2_bits_high. lia.
Qed.

Lemma overflow_bits_kept (v : sls_valuation) (x y : bvect) :
  valuation_ok v -> words_ok x -> words_ok y ->
  (forall j, (bw v <= j)%nat -> get y j = get x j) ->
  has_overflow v x = false -> has_overflow v y = false.
Proof.
  intros Hv Hx Hy Hsame Hov.
  destruct (valuation_geometry v Hv) as (m & Hm & Hn & Eb & Em).
  apply (has_overflow_value v x Hv Hx) in Hov.
  apply (has_overflow_value v y Hv Hy).
  pose proof (get_value_bound (nw v) x Hx) as Hbx.
  pose proof (get_value_bound (nw v) y Hy) as Hby.
  pose proof (pow_bw_le v Hv) as Hp.
  assert (E : get_value (nw v) y / 2 ^ Z.of_nat (bw v) = 0).
  { apply Z.bits_inj'. intros k Hk.
    rewrite Z.div_pow2_bits, Z.bits_0 by lia.
    destruct (Z_lt_le_dec (k + Z.of_nat (bw v)) (32 * Z.of_nat (nw v))).
    - replace (k + Z.of_nat (bw v))
        with (Z.of_nat (Z.to_nat k + bw v)) by lia.
      rewrite testbit_get_value by (auto; unfold digit_bits; lia).
      rewrite Hsame by lia.
      rewrite <- (testbit_get_value (nw v)) by (auto; unfold digit_bits; lia).
      apply (testbit_above _ (Z.of_nat (bw v))); lia.
    - apply (testbit_above _ (32 * Z.of_nat (nw v))); lia. }
  pose proof (Z.div_mod (get_value (nw v) y) (2 ^ Z.of_nat (bw v))
                ltac:(lia)) as Hdm.
  pose proof (Z.mod_pos_bound (get_value (nw v) y) (2 ^ Z.of_nat (bw v))
                ltac:(lia)).
  rewrite E in Hdm. lia.
Qed.

(** X11.  [shift_right(out, shift)] writes the committed value shifted
    right by [shift] places: on an [out] without overflow bits the value
    of [out] becomes [value / 2^shift], and no overflow bit appears. *)
Theorem shift_right_divides (v : sls_valuation) (out : bvect) (shift : nat) :
  valuation_ok v -> has_overflow v (m_bits v) = false ->
  shaped v out -> has_overflow v out = false -> (shift < bw v)%nat ->
  get_value (nw v) (shift_right v out shift)
  = bits_value v / 2 ^ Z.of_nat shift
  /\ has_overflow v (shift_right v out shift) = false.
Proof.
  intros Hv Hob [Hlen Ho] Hoo Hs.
  destruct (valuation_geometry v Hv) as (m & Hm & Hn & Eb & Em).
  assert (Hb : words_ok (m_bits v)) by apply Hv.
  apply (has_overflow_value v _ Hv Hb) in Hob.
  pose proof (get_value_bound (nw v) (m_bits v) Hb) as Hbb.
  pose proof (pow_bw_le v Hv) as Hp.
  set (f := fun i => if (i + shift <? bw v)%nat
                     then get (m_bits v) (i + shift) else false).
  assert (Hy : words_ok (shift_right v out shift))
    by (apply (fold_set_ok f); auto).
  assert (Hget : forall j, get (shift_right v out shift) j
                           = if (j <? bw v)%nat then f j else get out j).
  { intros j. apply (fold_set_get f). intros i Hi.
    assert (i / digit_bits < nw v)%nat; [|lia].
    apply Nat.Div0.div_lt_upper_bound. unfold digit_bits in *. lia. }
  assert (Hno : has_overflow v (shift_right v out shift) = false).
  { apply (overflow_bits_kept v out); auto.
    intros j Hj. rewrite Hget.
    destruct (Nat.ltb_spec j (bw v)); [lia|reflexivity]. }
  split; [|exact Hno].
  apply (has_overflow_value v _ Hv Hy) in Hno.
  pose proof (get_value_bound (nw v) _ Hy) as Hby.
  assert (Hq : 0 <= bits_value v / 2 ^ Z.of_nat shift < 2 ^ Z.of_nat (bw v)).
  { unfold bits_value.
    assert (0 < 2 ^ Z.of_nat shift) by (apply Z.pow_pos_nonneg; lia).
    split; [apply Z.div_pos; lia|].
    apply Z.div_lt_upper_bound; [lia|]. nia. }
  rewrite <- (Z.mod_small (get_value (nw v) (shift_right v out shift))
                          (2 ^ Z.of_nat (bw v))) by lia.
  rewrite <- (Z.mod_small (bits_value v / 2 ^ Z.of_nat shift)
                          (2 ^ Z.of_nat (bw v))) by lia.
  apply value_of_bits; auto.
  intros j Hj. rewrite Hget.
  destruct (Nat.ltb_spec j (bw v)); [|lia].
  unfold f, bits_value. rewrite Z.div_pow2_bits by lia.
  destruct (Nat.ltb_spec (j + shift) (bw v)).
  - rewrite (bits_value_testbit v (m_bits v) (j + shift)) by (auto; lia).
    f_equal. lia.
  - symmetry. apply (testbit_above _ (Z.of_nat (bw v))); lia.
Qed.

Lemma shift_right_divides_witness :
  get_value 1 (shift_right seven_valuation [0; 0] 1) = 3.
Proof.
  pose proof (shift_right_divides seven_valuation [0; 0] 1
                (valuation_okb_sound seven_valuation eq_refl) eq_refl
                (shapedb_sound seven_valuation [0; 0] eq_refl) eq_refl
                ltac:(vm_compute; lia)) as [H _].
  etransitivity; [exact H|reflexivity].
Defined.

(** X12.  [set_sub(out, a, b)] leaves the difference of the operands
    modulo [2^bw] in [out], without overflow bits (the subtraction of the
    arithmetic backend is the multi-word difference). *)
Theorem set_sub_difference (v : sls_valuation) (out a b : bvect) :
  valuation_ok v -> words_ok a -> words_ok b -> shaped v out ->
  get_value (nw v) (set_sub v out a b)
  = (get_value (nw v) a - get_value (nw v) b) mod 2 ^ Z.of_nat (bw v)
  /\ has_overflow v (set_sub v out a b) = false.
Proof.
  intros Hv Ha Hb [Hlen Ho]. unfold set_sub, mpn_sub.
  set (D := get_value (nw v) a - get_value (nw v) b).
  pose proof (pow_bw_le v Hv) as Hp.
  assert (Hok : words_ok (copy_to (to_words (nw v) D) (nw v) out))
    by (apply copy_to_ok; auto; apply to_words_ok).
  assert (Hm : word_ok (mask v)).
  { destruct (valuation_geometry v Hv) as (m & Hm & Hn & Eb & Em).
    rewrite Em, Z.ones_equiv.
    assert (0 < 2 ^ Z.of_nat m <= 2 ^ 32)
      by (split; [apply Z.pow_pos_nonneg|apply Z.pow_le_mono_r]; lia).
    unfold word_ok, wB. lia. }
  assert (Hval : get_value (nw v)
                   (clear_overflow_bits v
                      (copy_to (to_words (nw v) D) (nw v) out))
                 = D mod 2 ^ Z.of_nat (bw v)).
  { rewrite clear_overflow_value by (auto; rewrite copy_to_length; lia).
    rewrite get_value_copy_to, get_value_to_words by lia.
    apply Z.mod_mod_divide. apply pow_bw_divides. exact Hv. }
  split; [exact Hval|].
  apply has_overflow_value; auto.
  - apply clear_overflow_ok; auto.
  - rewrite Hval. apply Z.mod_pos_bound. lia.
Qed.

Lemma set_sub_difference_witness :
  get_value 1 (set_sub seven_valuation [0; 0] [3; 0] [5; 0]) = 254.
Proof.
  pose proof (set_sub_difference seven_valuation [0; 0] [3; 0] [5; 0]
                (valuation_okb_sound seven_valuation eq_refl)
                (words_okb_sound [3; 0] eq_refl)
                (words_okb_sound [5; 0] eq_refl)
                (shapedb_sound seven_valuation [0; 0] eq_refl)) as [H _].
  etransitivity; [exact H|reflexivity].
Defined.

(** ** From a speculative value to a committed one *)

Lemma mpn_compare_ext (n : nat) (a a' b b' : bvect) :
  (forall i, (i < n)%nat -> wd a i = wd a' i) ->
  (forall i, (i < n)%nat -> wd b i = wd b' i) ->
  mpn_compare a b n = mpn_compare a' b' n.
Proof.
  induction n as [|n IH]; intros Ha Hb; cbn [mpn_compare]; auto.
  rewrite (Ha n), (Hb n), IH by (intros; auto with arith). reflexivity.
Qed.

Lemma in_range_ext (v : sls_valuation) (x y : bvect) :
  (forall i, (i < nw v)%nat -> wd x i = wd y i) ->
  in_range v x = in_range v y.
Proof.
  intros H. unfold in_range.
  rewrite (mpn_compare_ext (nw v) (m_lo v) (m_lo v) x y) by auto.
  rewrite (mpn_compare_ext (nw v) x y (m_hi v) (m_hi v)) by auto.
  reflexivity.
Qed.

Lemma agree_from_ext (f a a' b : bvect) (i cnt : nat) :
  (forall j, (i <= j < i + cnt)%nat -> wd a j = wd a' j) ->
  agree_from f a b i cnt = agree_from f a' b i cnt.
Proof.
  revert i. induction cnt as [|c IH]; intros i H; cbn [agree_from]; auto.
  rewrite (H i) by lia. rewrite IH by (intros; apply H; lia). reflexivity.
Qed.

Lemma can_set_ext (v : sls_valuation) (x y : bvect) :
  (forall i, (i < nw v)%nat -> wd x i = wd y i) -> can_set v x = can_set v y.
Proof.
  intros H. unfold can_set, agree_fixed.
  rewrite (agree_from_ext (fixed v) x y) by (intros; apply H; lia).
  rewrite (in_range_ext v x y) by exact H. reflexivity.
Qed.

(** [commit_eval] succeeds exactly when [can_set] accepts [eval]. *)
Lemma commit_eval_can_set (v : sls_valuation) :
  fst (commit_eval v) = can_set v (eval v).
Proof.
  unfold commit_eval, can_set, agree_fixed.
  rewrite (agree_from_sym (fixed v) (m_bits v) (eval v)).
  destruct (agree_from _ _ _ _ _); cbn [negb fst]; auto.
  destruct (in_range v (eval v)); reflexivity.
Qed.

Lemma land_mask_id (w m : Z) :
  word_ok w -> Z.land w (wnot m) = 0 -> Z.land w m = w.
Proof.
  intros Hw H. rewrite land_zero_bits in H.
  apply Z.bits_inj'. intros k Hk. specialize (H k Hk).
  rewrite testbit_wnot in H by lia. rewrite Z.land_spec.
  destruct (Z.ltb_spec k 32).
  - destruct (Z.testbit w k), (Z.testbit m k); simpl in *; congruence.
  - rewrite (testbit_high w k) by (auto; lia). reflexivity.
Qed.

Lemma set_eval_words (v : sls_valuation) (src : bvect) :
  valuation_ok v -> words_ok src -> has_overflow v src = false ->
  forall i, (i < nw v)%nat -> wd (eval (set_eval v src)) i = wd src i.
Proof.
  intros Hv Hs Hov i Hi.
  assert (He : (nw v <= length (eval v))%nat) by apply Hv.
  apply has_overflow_false in Hov.
  unfold set_eval, clear_overflow_bits. cbn [eval with_eval].
  rewrite wd_upd, copy_to_length, !wd_copy_to.
  destruct (Nat.ltb_spec (nw v - 1) (length (eval v))); [|lia].
  destruct (Nat.ltb_spec (nw v - 1) (nw v)); [|lia].
  destruct (Nat.ltb_spec i (nw v)); [|lia].
  destruct (Nat.ltb_spec i (length (eval v))); [|lia]. cbn [andb].
  rewrite andb_true_r.
  destruct (Nat.eqb_spec i (nw v - 1)) as [->|]; [|reflexivity].
  apply land_mask_id; [apply wd_ok; auto|exact Hov].
Qed.

Lemma try_set_commits (v : sls_valuation) (src : bvect) :
  valuation_ok v -> words_ok src -> has_overflow v src = false ->
  can_set v src = true ->
  get_eval (set_eval v src) = get_value (nw v) src
  /\ fst (commit_eval (set_eval v src)) = true
  /\ bits_value (snd (commit_eval (set_eval v src))) = get_value (nw v) src.
Proof.
  intros Hv Hs Hov Hc.
  pose proof (set_eval_words v src Hv Hs Hov) as Hw.
  assert (Hb : (nw v <= length (m_bits v))%nat) by apply Hv.
  assert (Hval : get_eval (set_eval v src) = get_value (nw v) src).
  { unfold get_eval. apply get_value_ext. exact Hw. }
  assert (Hcan : can_set (set_eval v src) (eval (set_eval v src)) = true).
  { change (can_set (set_eval v src) (eval (set_eval v src)))
      with (can_set v (eval (set_eval v src))).
    rewrite (can_set_ext v _ src) by exact Hw. exact Hc. }
  split; [exact Hval|]. split.
  - rewrite commit_eval_can_set. exact Hcan.
  - pose proof (commit_eval_can_set (set_eval v src)) as Hce.
    rewrite Hcan in Hce. unfold commit_eval in *.
    destruct (negb (agree_fixed _ _ _)); [discriminate|].
    destruct (negb (in_range _ _)); [discriminate|].
    cbn [snd]. unfold bits_value. cbn [nw m_bits with_bits].
    change (nw (set_eval v src)) with (nw v).
    change (m_bits (set_eval v src)) with (m_bits v).
    rewrite get_value_copy_to by lia. exact Hval.
Qed.

(** X13.  [try_set(src)] succeeds exactly when [can_set(src)] holds; after
    a success [eval] holds the value of [src], and a following
    [commit_eval] succeeds and makes that value the committed one. *)
Theorem try_set_then_commit_eval (v : sls_valuation) (src : bvect) :
  valuation_ok v -> words_ok src -> has_overflow v src = false ->
  (fst (try_set v src) = true <-> can_set v src = true)
  /\ (fst (try_set v src) = true ->
      get_eval (snd (try_set v src)) = get_value (nw v) src
      /\ fst (commit_eval (snd (try_set v src))) = true
      /\ bits_value (snd (commit_eval (snd (try_set v src))))
         = get_value (nw v) src).
Proof.
  intros Hv Hs Hov. unfold try_set.
  destruct (can_set v src) eqn:Hc; cbn [negb fst snd].
  - split; [tauto|]. intros _. apply try_set_commits; auto.
  - split; [tauto|discriminate].
Qed.

Lemma try_set_then_commit_eval_witness :
  bits_value (snd (commit_eval (snd (try_set odd_valuation [9; 0])))) = 9.
Proof.
  pose proof (try_set_then_commit_eval odd_valuation [9; 0]
                (valuation_okb_sound odd_valuation eq_refl)
                (words_okb_sound [9; 0] eq_refl) eq_refl) as [_ H].
  destruct (H eq_refl) as (_ & _ & Hb).
  etransitivity; [exact Hb|reflexivity].
Defined.

(** ** Fixed bits are never written *)

Lemma keeps_fixed_refl (v : sls_valuation) (a : bvect) : keeps_fixed v a a.
Proof. intros j _. reflexivity. Qed.

Lemma keeps_fixed_trans (v : sls_valuation) (a b c : bvect) :
  keeps_fixed v a b -> keeps_fixed v b c -> keeps_fixed v a c.
Proof. intros H1 H2 j Hj. rewrite (H2 j Hj). apply H1. exact Hj. Qed.

Lemma set_keeps_fixed (v : sls_valuation) (a : bvect) (i : nat) (b : bool) :
  get (fixed v) i = false -> keeps_fixed v a (set a i b).
Proof.
  intros Hi j Hj. apply get_set_other. intros ->. congruence.
Qed.

Lemma fold_free_keeps_fixed (v : sls_valuation) (g : bvect -> nat -> bool)
      (l : list nat) (dst : bvect) :
  keeps_fixed v dst
    (fold_left (fun d j => if negb (get (fixed v) j) then set d j (g d j) else d)
               l dst).
Proof.
  revert dst. induction l as [|a l IH]; intros dst; cbn [fold_left].
  - apply keeps_fixed_refl.
  - eapply keeps_fixed_trans; [|apply IH].
    destruct (get (fixed v) a) eqn:E; cbn [negb].
    + apply keeps_fixed_refl.
    + apply set_keeps_fixed. exact E.
Qed.

Lemma repair_sign_loop_keeps_fixed (v : sls_valuation) (s : bool)
      (dst : bvect) (idxs : list nat) :
  keeps_fixed v dst (repair_sign_loop v s dst idxs).
Proof.
  revert dst. induction idxs as [|i rest IH]; intros dst;
    cbn [repair_sign_loop].
  - apply keeps_fixed_refl.
  - destruct (negb (Bool.eqb (get dst i) s)); [|apply IH].
    destruct (get (fixed v) i) eqn:E.
    + apply (fold_free_keeps_fixed v (fun _ _ => negb s)).
    + eapply keeps_fixed_trans; [apply set_keeps_fixed; exact E|apply IH].
Qed.

Lemma repair_sign_bits_keeps_fixed (v : sls_valuation) (dst : bvect) :
  keeps_fixed v dst (repair_sign_bits v dst).
Proof.
  unfold repair_sign_bits. destruct (_ =? _)%nat.
  - apply keeps_fixed_refl.
  - apply repair_sign_loop_keeps_fixed.
Qed.

Lemma fold_free_outside (v : sls_valuation) (b : bool) (l : list nat)
      (dst : bvect) (j : nat) :
  ~ In j l ->
  get (fold_left (fun d k => if negb (get (fixed v) k) then set d k b else d)
                 l dst) j
  = get dst j.
Proof.
  revert dst. induction l as [|a l IH]; intros dst Hj; cbn [fold_left]; auto.
  rewrite IH by (intros H; apply Hj; right; exact H).
  destruct (negb (get (fixed v) a)); auto.
  apply get_set_other. intros ->. apply Hj. left. reflexivity.
Qed.

Lemma repair_sign_loop_outside (v : sls_valuation) (s : bool) (dst : bvect)
      (idxs : list nat) (j : nat) :
  ~ In j idxs -> ~ In j (sign_range v) ->
  get (repair_sign_loop v s dst idxs) j = get dst j.
Proof.
  revert dst. induction idxs as [|i rest IH]; intros dst Hj Hr;
    cbn [repair_sign_loop]; auto.
  assert (Hrest : ~ In j rest) by (intros H; apply Hj; right; exact H).
  assert (Hne : j <> i) by (intros ->; apply Hj; left; reflexivity).
  destruct (negb (Bool.eqb (get dst i) s)); [|apply IH; auto].
  destruct (get (fixed v) i).
  - apply fold_free_outside. exact Hr.
  - rewrite IH by auto. apply get_set_other. exact Hne.
Qed.

Lemma repair_sign_loop_free (v : sls_valuation) (s : bool) (idxs : list nat) :
  forall dst : bvect,
    (forall i, In i idxs ->
               get (fixed v) i = false /\ (i / digit_bits < length dst)%nat) ->
    forall j, In j idxs \/ get dst j = s ->
              get (repair_sign_loop v s dst idxs) j = s.
Proof.
  induction idxs as [|i rest IH]; intros dst Hfree j Hj;
    cbn [repair_sign_loop].
  - destruct Hj as [[]|Hj]. exact Hj.
  - destruct (Hfree i (or_introl eq_refl)) as [Hfi Hli]. rewrite Hfi.
    destruct (Bool.eqb (get dst i) s) eqn:E; cbn [negb].
    + apply IH.
      * intros k Hk. apply Hfree. right. exact Hk.
      * destruct Hj as [[<-|Hj]|Hj]; auto.
        right. apply Bool.eqb_prop. exact E.
    + apply IH.
      * intros k Hk. rewrite length_set. apply Hfree. right. exact Hk.
      * destruct (Nat.eq_dec j i) as [->|Hne].
        -- right. rewrite get_set by exact Hli.
           rewrite Nat.eqb_refl. reflexivity.
        -- destruct Hj as [[Hj|Hj]|Hj]; [congruence|left; exact Hj|].
           right. rewrite get_set_other by exact Hne. exact Hj.
Qed.

(** X14.  [repair_sign_bits] writes only free bits of the signed prefix:
    fixed bits and bits outside the prefix are as before.  When no bit of
    the prefix is fixed, every bit of the prefix ends up equal to the sign
    bit [dst[bw - 1]] the vector had. *)
Theorem repair_sign_bits_extends_sign (v : sls_valuation) (dst : bvect) :
  keeps_fixed v dst (repair_sign_bits v dst)
  /\ (forall j, ~ In j (sign_range v) ->
                get (repair_sign_bits v dst) j = get dst j)
  /\ ((0 < m_signed_prefix v < bw v)%nat ->
      (digit_bits * length dst >= bw v)%nat ->
      (forall i, In i (sign_range v) -> get (fixed v) i = false) ->
      forall j, In j (sign_range v) ->
                get (repair_sign_bits v dst) j = get dst (bw v - 1)).
Proof.
  split; [apply repair_sign_bits_keeps_fixed|]. split.
  - intros j Hj. unfold repair_sign_bits. destruct (_ =? _)%nat; auto.
    apply repair_sign_loop_outside; auto.
  - intros Hp Hlen Hfree j Hj. unfold repair_sign_bits.
    destruct (Nat.eqb_spec (m_signed_prefix v) 0); [lia|].
    apply repair_sign_loop_free; auto.
    intros i Hi. split; [apply Hfree; exact Hi|].
    unfold sign_range in Hi. apply in_rev, in_seq in Hi.
    apply Nat.Div0.div_lt_upper_bound. unfold digit_bits in *. lia.
Qed.

Lemma repair_sign_bits_extends_sign_witness :
  get (repair_sign_bits (set_signed seven_valuation 3) [135; 0]) 5 = true.
Proof.
  pose proof (repair_sign_bits_extends_sign (set_signed seven_valuation 3)
                [135; 0]) as (_ & _ & H).
  apply (H ltac:(vm_compute; lia) ltac:(vm_compute; lia)).
  - intros i Hi. vm_compute in Hi.
    repeat (destruct Hi as [<-|Hi]; [reflexivity|]). destruct Hi.
  - vm_compute. tauto.
Defined.

(** ** Rounding against a predicate *)

Lemma round_down_loop_keeps_fixed (v : sls_valuation) (feas : bvect -> bool)
      (cnt : nat) :
  forall dst, keeps_fixed v dst (round_down_loop v feas dst cnt).
Proof.
  induction cnt as [|i IH]; intros dst; cbn [round_down_loop].
  - destruct (feas dst); apply keeps_fixed_refl.
  - destruct (feas dst); [apply keeps_fixed_refl|].
    eapply keeps_fixed_trans; [|apply IH].
    destruct (get (fixed v) i) eqn:E; cbn [negb andb].
    + apply keeps_fixed_refl.
    + destruct (get dst i); [|apply keeps_fixed_refl].
      apply set_keeps_fixed. exact E.
Qed.

Lemma round_up_loop_keeps_fixed (v : sls_valuation) (feas : bvect -> bool)
      (cnt : nat) :
  forall dst i, keeps_fixed v dst (round_up_loop v feas dst i cnt).
Proof.
  induction cnt as [|c IH]; intros dst i; cbn [round_up_loop].
  - destruct (feas dst); apply keeps_fixed_refl.
  - destruct (feas dst); [apply keeps_fixed_refl|].
    eapply keeps_fixed_trans; [|apply IH].
    destruct (get (fixed v) i) eqn:E; cbn [negb andb].
    + apply keeps_fixed_refl.
    + destruct (get dst i); cbn [negb]; [apply keeps_fixed_refl|].
      apply set_keeps_fixed. exact E.
Qed.

Lemma round_down_loop_length (v : sls_valuation) (feas : bvect -> bool)
      (cnt : nat) :
  forall dst, length (round_down_loop v feas dst cnt) = length dst.
Proof.
  induction cnt as [|i IH]; intros dst; cbn [round_down_loop].
  - destruct (feas dst); reflexivity.
  - destruct (feas dst); [reflexivity|]. rewrite IH.
    destruct (_ && _); [apply length_set|reflexivity].
Qed.

Lemma round_up_loop_length (v : sls_valuation) (feas : bvect -> bool)
      (cnt : nat) :
  forall dst i, length (round_up_loop v feas dst i cnt) = length dst.
Proof.
  induction cnt as [|c IH]; intros dst i; cbn [round_up_loop].
  - destruct (feas dst); reflexivity.
  - destruct (feas dst); [reflexivity|]. rewrite IH.
    destruct (_ && _); [apply length_set|reflexivity].
Qed.

Lemma round_down_loop_le (v : sls_valuation) (feas : bvect -> bool)
      (n cnt : nat) :
  forall dst, (cnt <= digit_bits * n)%nat -> (n <= length dst)%nat ->
              get_value n (round_down_loop v feas dst cnt) <= get_value n dst.
Proof.
  induction cnt as [|i IH]; intros dst Hc Hl; cbn [round_down_loop].
  - destruct (feas dst); lia.
  - destruct (feas dst); [lia|].
    destruct (negb (get (fixed v) i) && get dst i) eqn:E.
    + apply andb_true_iff in E. destruct E as [_ Eg].
      etransitivity; [apply IH; rewrite ?length_set; lia|].
      rewrite set_value_change, Eg by lia. cbn [Z.b2z].
      pose proof (Z.pow_pos_nonneg 2 (Z.of_nat i)). lia.
    + apply IH; lia.
Qed.

Lemma round_up_loop_ge (v : sls_valuation) (feas : bvect -> bool)
      (n cnt : nat) :
  forall dst i, (i + cnt <= digit_bits * n)%nat -> (n <= length dst)%nat ->
                get_value n dst <= get_value n (round_up_loop v feas dst i cnt).
Proof.
  induction cnt as [|c IH]; intros dst i Hc Hl; cbn [round_up_loop].
  - destruct (feas dst); lia.
  - destruct (feas dst); [lia|].
    destruct (negb (get (fixed v) i) && negb (get dst i)) eqn:E.
    + apply andb_true_iff in E. destruct E as [_ Eg].
      apply negb_true_iff in Eg.
      etransitivity; [|apply IH; rewrite ?length_set; lia].
      rewrite set_value_change, Eg by lia. cbn [Z.b2z].
      pose proof (Z.pow_pos_nonneg 2 (Z.of_nat i)). lia.
    + apply IH; lia.
Qed.

Lemma round_down_loop_above (v : sls_valuation) (feas : bvect -> bool)
      (cnt : nat) :
  forall dst j, (cnt <= j)%nat ->
                get (round_down_loop v feas dst cnt) j = get dst j.
Proof.
  induction cnt as [|i IH]; intros dst j Hj; cbn [round_down_loop].
  - destruct (feas dst); reflexivity.
  - destruct (feas dst); [reflexivity|]. rewrite IH by lia.
    destruct (_ && _); [|reflexivity]. apply get_set_other. lia.
Qed.

Lemma round_down_loop_exhausts (v : sls_valuation) (feas : bvect -> bool)
      (cnt : nat) :
  forall dst,
    (digit_bits * length dst >= cnt)%nat ->
    feas (round_down_loop v feas dst cnt) = false ->
    forall i, (i < cnt)%nat -> get (fixed v) i = false ->
              get (round_down_loop v feas dst cnt) i = false.
Proof.
  induction cnt as [|c IH]; intros dst Hl Hf i Hi Hfi; [lia|].
  cbn [round_down_loop] in *.
  destruct (feas dst) eqn:Ef; [congruence|].
  destruct (Nat.eq_dec i c) as [->|Hne].
  - rewrite round_down_loop_above by lia. rewrite Hfi. cbn [negb andb].
    destruct (get dst c) eqn:Eg; [|exact Eg].
    rewrite get_set, Nat.eqb_refl; [reflexivity|].
    apply Nat.Div0.div_lt_upper_bound. unfold digit_bits in *. lia.
  - apply IH; auto; try lia.
    destruct (_ && _); rewrite ?length_set; lia.
Qed.

Lemma round_up_loop_below (v : sls_valuation) (feas : bvect -> bool)
      (cnt : nat) :
  forall dst i j, (j < i)%nat ->
                  get (round_up_loop v feas dst i cnt) j = get dst j.
Proof.
  induction cnt as [|c IH]; intros dst i j Hj; cbn [round_up_loop].
  - destruct (feas dst); reflexivity.
  - destruct (feas dst); [reflexivity|]. rewrite IH by lia.
    destruct (_ && _); [|reflexivity]. apply get_set_other. lia.
Qed.

Lemma round_up_loop_exhausts (v : sls_valuation) (feas : bvect -> bool)
      (cnt : nat) :
  forall dst i,
    (digit_bits * length dst >= i + cnt)%nat ->
    feas (round_up_loop v feas dst i cnt) = false ->
    forall k, (i <= k < i + cnt)%nat -> get (fixed v) k = false ->
              get (round_up_loop v feas dst i cnt) k = true.
Proof.
  induction cnt as [|c IH]; intros dst i Hl Hf k Hk Hfk; [lia|].
  cbn [round_up_loop] in *.
  destruct (feas dst) eqn:Ef; [congruence|].
  destruct (Nat.eq_dec k i) as [->|Hne].
  - rewrite round_up_loop_below by lia. rewrite Hfk. cbn [negb andb].
    destruct (get dst i) eqn:Eg; cbn [negb]; [exact Eg|].
    rewrite get_set, Nat.eqb_refl; [reflexivity|].
    apply Nat.Div0.div_lt_upper_bound. unfold digit_bits in *. lia.
  - apply IH; auto; try lia.
    destruct (_ && _); rewrite ?length_set; lia.
Qed.

(** X15.  The predicate-driven [round_down] and [round_up] never write a
    fixed bit.  With no signed prefix, [round_down] never raises and
    [round_up] never lowers the value, a vector that is feasible already
    is returned as it is, and a result that is still infeasible has every
    free bit below [bw] cleared (for [round_down]) or set (for
    [round_up]). *)
Theorem predicate_rounding (v : sls_valuation) (dst : bvect)
        (feas : bvect -> bool) :
  valuation_ok v -> shaped v dst ->
  keeps_fixed v dst (round_down_pred v dst feas)
  /\ keeps_fixed v dst (round_up_pred v dst feas)
  /\ (m_signed_prefix v = 0%nat ->
      get_value (nw v) (round_down_pred v dst feas) <= get_value (nw v) dst
      /\ get_value (nw v) dst <= get_value (nw v) (round_up_pred v dst feas)
      /\ (feas dst = true ->
          round_down_pred v dst feas = dst /\ round_up_pred v dst feas = dst)
      /\ (feas (round_down_pred v dst feas) = false ->
          forall i, (i < bw v)%nat -> get (fixed v) i = false ->
                    get (round_down_pred v dst feas) i = false)
      /\ (feas (round_up_pred v dst feas) = false ->
          forall i, (i < bw v)%nat -> get (fixed v) i = false ->
                    get (round_up_pred v dst feas) i = true)).
Proof.
  intros Hv [Hlen Hd].
  destruct (valuation_geometry v Hv) as (m & Hm & Hn & Eb & Em).
  assert (Hbw : (bw v <= digit_bits * nw v)%nat)
    by (rewrite Eb; unfold digit_bits; lia).
  assert (Hbl : (digit_bits * length dst >= bw v)%nat)
    by (unfold digit_bits in *; lia).
  unfold round_down_pred, round_up_pred.
  split; [|split].
  - eapply keeps_fixed_trans;
      [apply round_down_loop_keeps_fixed|apply repair_sign_bits_keeps_fixed].
  - eapply keeps_fixed_trans;
      [apply round_up_loop_keeps_fixed|apply repair_sign_bits_keeps_fixed].
  - intros Hp. rewrite !repair_sign_bits_unsigned by exact Hp.
    split; [apply round_down_loop_le; auto|].
    split; [apply round_up_loop_ge; auto|].
    split; [|split].
    + intros Hf. destruct (bw v); cbn [round_down_loop round_up_loop];
        rewrite Hf; auto.
    + intros Hf i Hi Hfi. apply round_down_loop_exhausts; auto.
    + intros Hf i Hi Hfi. apply round_up_loop_exhausts; auto. lia.
Qed.

Lemma predicate_rounding_witness :
  get (round_down_pred odd_valuation [9; 0] (fun _ => false)) 0 = true.
Proof.
  pose proof (predicate_rounding odd_valuation [9; 0] (fun _ => false)
                (valuation_okb_sound odd_valuation eq_refl)
                (shapedb_sound odd_valuation [9; 0] eq_refl))
    as (Hk & _ & _).
  rewrite (Hk 0%nat eq_refl). reflexivity.
Defined.

(** ** Repair *)

Lemma wd_fold_seq_dep (g : nat -> Z -> Z) (n : nat) :
  forall (a : nat) (dst : bvect) (j : nat),
    wd (fold_left (fun d i => upd d i (g i (wd d i))) (seq a n) dst) j =
    if ((a <=? j) && (j <? a + n) && (j <? length dst))%nat
    then g j (wd dst j) else wd dst j.
Proof.
  induction n as [|n IH]; intros a dst j; simpl.
  - replace (a + 0)%nat with a by lia.
    destruct (Nat.leb_spec a j), (Nat.ltb_spec j a); simpl; auto; lia.
  - rewrite IH, length_upd, !wd_upd.
    destruct (Nat.leb_spec (S a) j), (Nat.ltb_spec j (S a + n)),
      (Nat.ltb_spec j (length dst)), (Nat.leb_spec a j),
      (Nat.ltb_spec j (a + S n)), (Nat.eqb_spec j a),
      (Nat.ltb_spec a (length dst)); simpl; auto; try lia.
    subst. reflexivity.
Qed.

Lemma forced_word_agrees (f d b : Z) :
  Z.land f (Z.lxor (Z.lor (Z.land (wnot f) d) (Z.land f b)) b) = 0.
Proof.
  apply land_zero_bits. intros k Hk.
  rewrite Z.lxor_spec, Z.lor_spec, !Z.land_spec, testbit_wnot by lia.
  destruct (Z.testbit f k), (Z.testbit d k), (Z.testbit b k), (k <? 32);
    reflexivity.
Qed.

Lemma wd_reserve (x : bvect) (n i : nat) : wd (reserve x n) i = wd x i.
Proof.
  unfold wd, reserve. destruct (Nat.lt_ge_cases i (length x)).
  - apply app_nth1. exact H.
  - rewrite app_nth2 by exact H. rewrite (nth_overflow x) by exact H.
    apply (wd_repeat0 (n - length x) (i - length x)).
Qed.

Lemma get_reserve (x : bvect) (n j : nat) : get (reserve x n) j = get x j.
Proof. rewrite !get_testbit, wd_reserve. reflexivity. Qed.

Lemma agree_kept (v : sls_valuation) (a a' b : bvect) :
  agree_on_fixed v a b -> keeps_fixed v a a' -> agree_on_fixed v a' b.
Proof.
  intros Ha Hk i Hi Hf. rewrite (Hk i Hf). apply Ha; auto.
Qed.

Lemma repaired_can_set (v : sls_valuation) (d : bvect) :
  valuation_ok v -> agree_on_fixed v d (m_bits v) -> in_range v d = true ->
  can_set v (copy_to d (nw v) (eval v)) = true.
Proof.
  intros Hv Ha Hr.
  assert (He : (nw v <= length (eval v))%nat) by apply Hv.
  assert (Hf : words_ok (fixed v)) by apply Hv.
  rewrite (can_set_ext v _ d).
  - unfold can_set. rewrite (proj2 (agree_fixed_bits v d (m_bits v) Hf) Ha).
    exact Hr.
  - intros i Hi. rewrite wd_copy_to.
    destruct (Nat.ltb_spec i (nw v)), (Nat.ltb_spec i (length (eval v)));
      try lia. reflexivity.
Qed.

(** X16.  When [set_repair] returns true, the [eval] it leaves holds the
    repaired [dst], which is in range and agrees with the committed value
    on every fixed bit: [can_set] accepts it and a following [commit_eval]
    succeeds. *)
Theorem set_repair_success_is_feasible (v : sls_valuation) (try_down : bool)
        (dst : bvect) :
  valuation_ok v -> (nw v <= length dst)%nat ->
  fst (fst (set_repair v try_down dst)) = true ->
  in_range v (snd (set_repair v try_down dst)) = true
  /\ agree_on_fixed v (snd (set_repair v try_down dst)) (m_bits v)
  /\ (forall i, (i < nw v)%nat ->
                wd (eval (snd (fst (set_repair v try_down dst)))) i
                = wd (snd (set_repair v try_down dst)) i)
  /\ can_set v (eval (snd (fst (set_repair v try_down dst)))) = true
  /\ fst (commit_eval (snd (fst (set_repair v try_down dst)))) = true.
Proof.
  intros Hv Hlen.
  assert (He : (nw v <= length (eval v))%nat) by apply Hv.
  assert (Hf : words_ok (fixed v)) by apply Hv.
  unfold set_repair.
  set (d1 := fold_left _ (seq 0 (nw v)) dst).
  assert (Ha1 : agree_on_fixed v d1 (m_bits v)).
  { apply (agree_fixed_bits v d1 (m_bits v) Hf).
    unfold agree_fixed. apply agree_from_spec. intros j Hj. unfold d1.
    rewrite (wd_fold_seq_dep
               (fun i w => Z.lor (Z.land (wnot (wd (fixed v) i)) w)
                                 (Z.land (wd (fixed v) i) (wd (m_bits v) i)))).
    destruct (Nat.leb_spec 0 j), (Nat.ltb_spec j (0 + nw v)),
      (Nat.ltb_spec j (length dst)); try lia. cbn [andb].
    apply forced_word_agrees. }
  set (d2 := repair_sign_bits v d1).
  assert (Ha2 : agree_on_fixed v d2 (m_bits v))
    by (eapply agree_kept; [exact Ha1|apply repair_sign_bits_keeps_fixed]).
  assert (Hfin : forall d, agree_on_fixed v d (m_bits v) ->
            in_range v d = true ->
            in_range v d = true
            /\ agree_on_fixed v d (m_bits v)
            /\ (forall i, (i < nw v)%nat ->
                          wd (copy_to d (nw v) (eval v)) i = wd d i)
            /\ can_set v (copy_to d (nw v) (eval v)) = true
            /\ fst (commit_eval (with_eval v (copy_to d (nw v) (eval v))))
               = true).
  { intros d Ha Hr.
    pose proof (repaired_can_set v d Hv Ha Hr) as Hc.
    repeat split; auto.
    - intros i Hi. rewrite wd_copy_to.
      destruct (Nat.ltb_spec i (nw v)), (Nat.ltb_spec i (length (eval v)));
        try lia. reflexivity.
    - rewrite commit_eval_can_set. exact Hc. }
  destruct (in_range v d2) eqn:Er2; cbn [fst snd].
  - intros _. apply Hfin; auto.
  - set (d3 := reserve d2 (nw_of (bw v) + 1)).
    assert (Ha3 : agree_on_fixed v d3 (m_bits v)).
    { intros i Hi Hfi. unfold d3. rewrite get_reserve. apply Ha2; auto. }
    match goal with
    | |- context [repair_sign_bits v ?d] =>
        set (d4 := d); set (d5 := repair_sign_bits v d4)
    end.
    assert (Ha4 : agree_on_fixed v d4 (m_bits v)).
    { eapply agree_kept; [exact Ha3|]. unfold d4.
      destruct (blt (nw v) (m_lo v) (m_hi v)).
      - eapply keeps_fixed_trans;
          [apply round_down_loop_keeps_fixed|apply round_up_loop_keeps_fixed].
      - eapply keeps_fixed_trans;
          [apply round_up_loop_keeps_fixed|apply round_down_loop_keeps_fixed]. }
    assert (Ha5 : agree_on_fixed v d5 (m_bits v))
      by (eapply agree_kept; [exact Ha4|apply repair_sign_bits_keeps_fixed]).
    destruct (in_range v d5) eqn:Er5; cbn [fst snd].
    + intros _. apply Hfin; auto.
    + discriminate.
Qed.

Lemma set_repair_success_is_feasible_witness :
  fst (commit_eval (snd (fst (set_repair odd_valuation true [200; 0]))))
  = true.
Proof.
  pose proof (set_repair_success_is_feasible odd_valuation true [200; 0]
                (valuation_okb_sound odd_valuation eq_refl)
                ltac:(vm_compute; lia) eq_refl) as (_ & _ & _ & _ & H).
  exact H.
Defined.

(** ** Successful samplers *)

Section SamplingSuccess.

Variable random_gen : Type.
Variable rand : random_gen -> Z * random_gen.

Lemma ret_try_set_sound (v : sls_valuation) (tmp : bvect) (g : random_gen) :
  sampler_sound v (ret_try_set random_gen v tmp g).
Proof.
  unfold sampler_sound, ret_try_set, try_set, sampled_ok, sampled_val,
    sampled_tmp.
  destruct (can_set v tmp) eqn:E; simpl; [auto|intros H; discriminate H].
Qed.

Lemma failed_sound (v : sls_valuation) (tmp : bvect) (g : random_gen) :
  sampler_sound v (false, v, tmp, g).
Proof. unfold sampler_sound, sampled_ok. simpl. intros H. discriminate H. Qed.

Ltac sampler_sound_cases :=
  repeat match goal with
         | |- context [let '(_, _) := ?e in _] =>
             let p := fresh "p" in destruct e as [? ?] eqn:p
         | |- context [if ?c then _ else _] => destruct c
         end;
  auto using ret_try_set_sound, failed_sound.

Lemma set_random_at_most_sound (v : sls_valuation) (src tmp : bvect)
      (g : random_gen) :
  sampler_sound v (set_random_at_most random_gen rand v src tmp g).
Proof. unfold set_random_at_most. sampler_sound_cases. Qed.

Lemma set_random_at_least_sound (v : sls_valuation) (src tmp : bvect)
      (g : random_gen) :
  sampler_sound v (set_random_at_least random_gen rand v src tmp g).
Proof. unfold set_random_at_least. sampler_sound_cases. Qed.

Lemma set_random_in_range_sound (v : sls_valuation) (l h tmp : bvect)
      (g : random_gen) :
  sampler_sound v (set_random_in_range random_gen rand v l h tmp g).
Proof. unfold set_random_in_range. sampler_sound_cases. Qed.

End SamplingSuccess.

(** X17.  A randomized sampler that returns true has done exactly one
    successful [try_set]: the scratch vector it hands back is accepted by
    [can_set], and the valuation differs from the one before only in
    [eval], which holds that vector (with overflow bits cleared). *)
Theorem successful_sampler_sets_feasible_eval
        (random_gen : Type) (rand : random_gen -> Z * random_gen)
        (v : sls_valuation) (a b tmp : bvect) (g : random_gen) :
  forall r : sampled random_gen,
    r = set_random_at_most random_gen rand v a tmp g
    \/ r = set_random_at_least random_gen rand v a tmp g
    \/ r = set_random_in_range random_gen rand v a b tmp g ->
    sampled_ok r = true ->
    can_set v (sampled_tmp r) = true
    /\ sampled_val r = set_eval v (sampled_tmp r)
    /\ sampled_val r = snd (try_set v (sampled_tmp r))
    /\ m_bits (sampled_val r) = m_bits v.
Proof.
  intros r Hr Hok.
  assert (Hs : sampler_sound v r).
  { destruct Hr as [->|[->| ->]].
    - apply set_random_at_most_sound.
    - apply set_random_at_least_sound.
    - apply set_random_in_range_sound. }
  destruct (Hs Hok) as [Hc Hv].
  split; [exact Hc|]. split; [exact Hv|]. split.
  - unfold try_set. rewrite Hc. exact Hv.
  - rewrite Hv. reflexivity.
Qed.

Lemma successful_sampler_sets_feasible_eval_witness :
  can_set odd_valuation
          (sampled_tmp (set_random_at_most nat counter_rand odd_valuation
                                           [9; 0] [0; 0] 0%nat))
  = true.
Proof.
  apply (successful_sampler_sets_feasible_eval nat counter_rand odd_valuation
           [9; 0] [0; 0] [0; 0] 0%nat _ (or_introl eq_refl) eq_refl).
Defined.

(** ** add_range without fixed bits *)

Lemma tighten_lo_free (v : sls_valuation) (cnt : nat) :
  (forall i, (i < cnt)%nat -> get (fixed v) i = false) -> tighten_lo v cnt = v.
Proof.
  induction cnt as [|i IH]; intros H; cbn [tighten_lo]; auto.
  rewrite (H i) by lia. cbn [negb]. apply IH. intros; apply H; lia.
Qed.

Lemma high_bits_clear (v : sls_valuation) (x : bvect) (j : nat) :
  valuation_ok v -> words_ok x -> has_overflow v x = false ->
  (bw v <= j < digit_bits * nw v)%nat -> get x j = false.
Proof.
  intros Hv Hx Hov Hj.
  apply (has_overflow_value v x Hv Hx) in Hov.
  pose proof (get_value_bound (nw v) x Hx) as Hb.
  rewrite <- (testbit_get_value (nw v)) by (auto; lia).
  apply (testbit_above _ (Z.of_nat (bw v))); lia.
Qed.

Lemma free_agree (v : sls_valuation) (a b : bvect) :
  valuation_ok v -> (forall i, (i < bw v)%nat -> get (fixed v) i = false) ->
  words_ok a -> words_ok b ->
  has_overflow v a = false -> has_overflow v b = false ->
  agree_fixed v a b = true.
Proof.
  intros Hv Hfree Ha Hb Hoa Hob.
  apply agree_fixed_bits; [apply Hv|].
  intros i Hi Hf.
  destruct (Nat.lt_ge_cases i (bw v)) as [Hlt|Hge].
  - rewrite Hfree in Hf by exact Hlt. discriminate.
  - rewrite (high_bits_clear v a i), (high_bits_clear v b i); auto.
Qed.

Lemma with_lo_range_ok (v : sls_valuation) (l : Z) :
  range_ok v -> range_ok (with_lo v (set_value v (m_lo v) l)).
Proof.
  intros (Hv & Hlo & Hhi).
  destruct (set_value_spec v (m_lo v) l Hv) as [Hval Hsh]; [apply Hv|].
  assert (Hv' : valuation_ok (with_lo v (set_value v (m_lo v) l))).
  { unfold valuation_ok, shaped in *. cbn. intuition. }
  split; [exact Hv'|]. split; [|exact Hhi].
  change (has_overflow v (set_value v (m_lo v) l) = false).
  apply has_overflow_value; [auto|apply Hsh|].
  rewrite Hval. apply Z.mod_pos_bound. apply Z.pow_pos_nonneg; lia.
Qed.

Lemma with_hi_range_ok (v : sls_valuation) (h : Z) :
  range_ok v -> range_ok (with_hi v (set_value v (m_hi v) h)).
Proof.
  intros (Hv & Hlo & Hhi).
  destruct (set_value_spec v (m_hi v) h Hv) as [Hval Hsh]; [apply Hv|].
  assert (Hv' : valuation_ok (with_hi v (set_value v (m_hi v) h))).
  { unfold valuation_ok, shaped in *. cbn. intuition. }
  split; [exact Hv'|]. split; [exact Hlo|].
  change (has_overflow v (set_value v (m_hi v) h) = false).
  apply has_overflow_value; [auto|apply Hsh|].
  rewrite Hval. apply Z.mod_pos_bound. apply Z.pow_pos_nonneg; lia.
Qed.

Lemma intersect_range_ok (v : sls_valuation) (l h : Z) :
  range_ok v ->
  range_ok (intersect_range v l h)
  /\ m_bits (intersect_range v l h) = m_bits v
  /\ fixed (intersect_range v l h) = fixed v
  /\ eval (intersect_range v l h) = eval v
  /\ bw (intersect_range v l h) = bw v.
Proof.
  intros Hr. unfold intersect_range.
  pose proof (with_lo_range_ok v l Hr) as Hl.
  pose proof (with_hi_range_ok v h Hr) as Hh.
  pose proof (with_hi_range_ok _ h Hl) as Hlh.
  repeat match goal with
         | |- context [if ?c then _ else _] => destruct c
         end; cbn [fst snd]; auto.
Qed.

Lemma tighten_range_free (v : sls_valuation) :
  range_ok v -> free_below_bw v -> has_overflow v (m_bits v) = false ->
  well_formed (tighten_range v) = true
  /\ range_ok (tighten_range v)
  /\ m_lo (tighten_range v) = m_lo v
  /\ m_hi (tighten_range v) = m_hi v
  /\ fixed (tighten_range v) = fixed v
  /\ eval (tighten_range v) = eval v
  /\ m_bits (tighten_range v)
     = if in_range v (m_bits v) then m_bits v
       else copy_to (m_lo v) (nw v) (m_bits v).
Proof.
  intros (Hv & Hlo & Hhi) Hfree Hbits.
  assert (Hb : shaped v (m_bits v)) by apply Hv.
  assert (Hl : shaped v (m_lo v)) by apply Hv.
  assert (Hh : shaped v (m_hi v)) by apply Hv.
  unfold tighten_range.
  destruct (beq (nw v) (m_lo v) (m_hi v)) eqn:Eeq.
  - assert (Hin : in_range v (m_bits v) = true).
    { rewrite in_range_value by (auto; apply Hb).
      rewrite beq_spec in Eeq by (apply Hl || apply Hh).
      unfold lo, hi. rewrite Eeq. reflexivity. }
    rewrite Hin. unfold well_formed, has_range, bne, range_ok.
    rewrite Hbits, Eeq. cbn. repeat split; auto; apply Hv.
  - destruct (in_range v (m_bits v)) eqn:Ein; cbn [negb].
    + rewrite tighten_lo_free by exact Hfree.
      unfold well_formed, range_ok. rewrite Hbits, Ein, Bool.orb_true_r.
      repeat split; auto; apply Hv.
    + rewrite free_agree by (auto; apply Hb || apply Hl).
      set (nb := copy_to (m_lo v) (nw v) (m_bits v)).
      assert (Hnb : shaped v nb).
      { split.
        - unfold nb. rewrite copy_to_length. apply Hb.
        - apply copy_to_ok; apply Hl || apply Hb. }
      assert (Hval : get_value (nw v) nb = get_value (nw v) (m_lo v)).
      { unfold nb. apply get_value_copy_to; auto. apply Hb. }
      assert (Hv' : valuation_ok (with_bits v nb)).
      { unfold valuation_ok, shaped in *. cbn. intuition. }
      rewrite tighten_lo_free by exact Hfree.
      assert (Hov : has_overflow v nb = false).
      { apply has_overflow_value; [auto|apply Hnb|]. rewrite Hval.
        apply has_overflow_value; auto. apply Hl. }
      assert (Hin : in_range (with_bits v nb) nb = true).
      { rewrite in_range_value by (auto; apply Hnb).
        change (lo (with_bits v nb)) with (lo v).
        change (hi (with_bits v nb)) with (hi v).
        change (nw (with_bits v nb)) with (nw v).
        rewrite Hval. fold (lo v).
        rewrite beq_spec in Eeq by (apply Hl || apply Hh).
        fold (lo v) in Eeq. fold (hi v) in Eeq. rewrite Eeq.
        rewrite Z.leb_refl. destruct (lo v <? hi v); reflexivity. }
      unfold well_formed.
      change (has_overflow (with_bits v nb) (m_bits (with_bits v nb)))
        with (has_overflow v nb).
      change (m_bits (with_bits v nb)) with nb.
      rewrite Hov, Hin, Bool.orb_true_r.
      split; [reflexivity|]. split; [|repeat split].
      split; [exact Hv'|]. split; [exact Hlo|exact Hhi].
Qed.

Lemma tighten_range_geometry (v : sls_valuation) :
  free_below_bw v ->
  bw (tighten_range v) = bw v /\ nw (tighten_range v) = nw v.
Proof.
  intros Hfree. unfold tighten_range.
  destruct (beq (nw v) (m_lo v) (m_hi v)); [split; reflexivity|].
  rewrite tighten_lo_free.
  - destruct (negb (in_range v (m_bits v))); [|split; reflexivity].
    destruct (agree_fixed v (m_bits v) (m_lo v)); split; reflexivity.
  - destruct (negb (in_range v (m_bits v))); [|exact Hfree].
    destruct (agree_fixed v (m_bits v) (m_lo v)); exact Hfree.
Qed.

Lemma intersect_range_fresh (v : sls_valuation) (l h : Z) :
  valuation_ok v -> lo v = hi v ->
  lo (intersect_range v l h) = l mod 2 ^ Z.of_nat (bw v)
  /\ hi (intersect_range v l h) = h mod 2 ^ Z.of_nat (bw v).
Proof.
  intros Hv Heq. unfold intersect_range.
  rewrite beq_spec by apply Hv. fold (lo v). fold (hi v).
  rewrite Heq, Z.eqb_refl.
  destruct (set_value_spec v (m_lo v) l Hv) as [Hl _]; [apply Hv|].
  destruct (set_value_spec v (m_hi v) h Hv) as [Hh _]; [apply Hv|].
  split; [exact Hl|exact Hh].
Qed.

(** X18. [add_range] on a valuation without fixed bits below [bw]: when
    the stored bounds are below [2^bw] and the valuation is well formed,
    the result is well formed again, keeps [fixed] and [eval], keeps
    [m_bits] if they lie in the new range and otherwise moves them to the
    new [lo]; starting without a range and with [l] and [h] different
    modulo [2^bw], the new range is exactly [l mod 2^bw, h mod 2^bw). *)
Theorem add_range_well_formed_without_fixed_bits
    (v : sls_valuation) (l h : Z) :
  range_ok v -> free_below_bw v -> well_formed v = true ->
  well_formed (add_range v l h) = true
  /\ range_ok (add_range v l h)
  /\ fixed (add_range v l h) = fixed v
  /\ eval (add_range v l h) = eval v
  /\ (in_range (add_range v l h) (m_bits v) = true ->
      m_bits (add_range v l h) = m_bits v)
  /\ (in_range (add_range v l h) (m_bits v) = false ->
      bits_value (add_range v l h) = lo (add_range v l h))
  /\ (lo v = hi v ->
      l mod 2 ^ Z.of_nat (bw v) <> h mod 2 ^ Z.of_nat (bw v) ->
      lo (add_range v l h) = l mod 2 ^ Z.of_nat (bw v)
      /\ hi (add_range v l h) = h mod 2 ^ Z.of_nat (bw v)).
Proof.
  intros Hr Hfree Hwf.
  assert (Hbits : has_overflow v (m_bits v) = false).
  { unfold well_formed in Hwf. apply andb_prop in Hwf.
    destruct Hwf as [H _]. now apply Bool.negb_true_iff in H. }
  unfold add_range.
  set (l' := l mod 2 ^ Z.of_nat (bw v)).
  set (h' := h mod 2 ^ Z.of_nat (bw v)).
  destruct (h' =? l') eqn:Ehl.
  - apply Z.eqb_eq in Ehl.
    repeat split; auto; try apply Hr.
    + intros Hin. exfalso.
      unfold well_formed in Hwf. rewrite Hin, Bool.orb_false_r in Hwf.
      apply andb_prop in Hwf. destruct Hwf as [_ Hwf].
      apply Bool.negb_true_iff in Hwf.
      rewrite in_range_value in Hin by (apply Hr).
      unfold has_range, bne in Hwf. apply Bool.negb_false_iff in Hwf.
      rewrite beq_spec in Hwf by apply Hr.
      fold (lo v) in Hwf. fold (hi v) in Hwf. rewrite Hwf in Hin.
      discriminate.
    + congruence.
    + congruence.
  - destruct (intersect_range_ok v l' h' Hr) as (Hr1 & Eb & Ef & Ee & Ew).
    set (v1 := intersect_range v l' h') in *.
    assert (Hfree1 : free_below_bw v1).
    { unfold free_below_bw. rewrite Ef, Ew. exact Hfree. }
    assert (Hbits1 : has_overflow v1 (m_bits v1) = false).
    { rewrite Eb. destruct Hr as (Hv & _), Hr1 as (Hv1 & _).
      apply has_overflow_value; [auto|apply Hv|].
      apply (has_overflow_value v) in Hbits; [|auto|apply Hv].
      destruct Hv1 as (_ & En1 & _), Hv as (_ & En & _).
      rewrite En1, Ew, <- En. exact Hbits. }
    destruct (tighten_range_free v1 Hr1 Hfree1 Hbits1)
      as (Hw & Hr2 & El & Eh & Ef2 & Ee2 & Eb2).
    assert (Ein : forall x, in_range (tighten_range v1) x = in_range v1 x).
    { intros x. destruct Hr1 as (Hv1 & _), Hr2 as (Hv2 & _).
      unfold in_range. rewrite El, Eh.
      destruct Hv1 as (_ & En1 & _), Hv2 as (_ & En2 & _).
      rewrite En2, En1.
      destruct (tighten_range_geometry v1 Hfree1) as [-> _]. reflexivity. }
    split; [exact Hw|]. split; [exact Hr2|].
    split; [congruence|]. split; [congruence|].
    split; [|split].
    + intros Hin. rewrite Ein, <- Eb in Hin. rewrite Eb2, Hin. exact Eb.
    + intros Hin. rewrite Ein, <- Eb in Hin.
      unfold bits_value, lo. rewrite Eb2, Hin, El.
      destruct Hr1 as (Hv1 & _), Hr2 as (Hv2 & _).
      destruct Hv1 as (_ & En1 & _ & Hb1 & _), Hv2 as (_ & En2 & _).
      destruct (tighten_range_geometry v1 Hfree1) as [_ ->]. apply get_value_copy_to; auto. apply Hb1.
    + intros Heq Hne.
      destruct (intersect_range_fresh v l' h') as [Hl1 Hh1];
        [apply Hr|exact Heq|].
      fold v1 in Hl1, Hh1. unfold l', h' in Hl1, Hh1.
      rewrite Z.mod_mod in Hl1, Hh1 by (apply Z.pow_nonzero; lia).
      destruct Hr1 as (Hv1 & _), Hr2 as (Hv2 & _).
      destruct Hv1 as (_ & En1 & _), Hv2 as (_ & En2 & _).
      unfold lo, hi in *. rewrite El, Eh.
      destruct (tighten_range_geometry v1 Hfree1) as [_ ->]. split; assumption.
Qed.

Lemma add_range_well_formed_without_fixed_bits_witness :
  well_formed (add_range seven_valuation 10 20) = true
  /\ lo (add_range seven_valuation 10 20) = 10
  /\ hi (add_range seven_valuation 10 20) = 20
  /\ bits_value (add_range seven_valuation 10 20) = 10.
Proof.
  assert (Hr : range_ok seven_valuation).
  { split; [exact (valuation_okb_sound seven_valuation eq_refl)|].
    split; reflexivity. }
  assert (Hfree : free_below_bw seven_valuation).
  { intros i Hi. cbn [bw seven_valuation] in Hi.
    do 8 (destruct i as [|i]; [reflexivity|]). lia. }
  destruct (add_range_well_formed_without_fixed_bits seven_valuation 10 20
              Hr Hfree eq_refl) as (Hw & _ & _ & _ & _ & Hb & Hfresh).
  destruct Hfresh as [Hl Hh]; [reflexivity|discriminate|].
  split; [exact Hw|]. split; [exact Hl|]. split; [exact Hh|].
  rewrite Hb; [exact Hl|reflexivity].
Defined.

(** ** set_range and try_set_range *)

Lemma set_range_length (dst : bvect) (l h : nat) (b : bool) :
  length (set_range dst l h b) = length dst.
Proof.
  unfold set_range. generalize (seq l (h - l)). intros idxs. revert dst.
  induction idxs as [|i idxs IH]; intros dst; cbn [fold_left]; auto.
  rewrite IH. unfold set. apply length_upd.
Qed.

Lemma set_range_get (dst : bvect) (l h : nat) (b : bool) (j : nat) :
  (forall i, (l <= i < h)%nat -> (i / digit_bits < length dst)%nat) ->
  get (set_range dst l h b) j
  = if ((l <=? j) && (j <? h))%nat then b else get dst j.
Proof.
  unfold set_range. remember (h - l)%nat as n eqn:En. revert h En.
  induction n as [|n IH]; intros h En Hlen.
  - cbn [seq fold_left].
    destruct (Nat.leb_spec l j), (Nat.ltb_spec j h); cbn; auto; lia.
  - rewrite seq_S, fold_left_app. cbn [fold_left].
    specialize (IH (l + n)%nat ltac:(lia) ltac:(intros; apply Hlen; lia)).
    replace (l + n - l)%nat with n in IH by lia.
    rewrite get_set.
    + rewrite IH.
      destruct (Nat.eqb_spec j (l + n)), (Nat.leb_spec l j),
        (Nat.ltb_spec j h), (Nat.ltb_spec j (l + n)); cbn; auto; lia.
    + pose proof (set_range_length dst l (l + n) b) as Hl.
      unfold set_range in Hl. replace (l + n - l)%nat with n in Hl by lia.
      rewrite Hl. apply Hlen. lia.
Qed.

(** X19. [try_set_range(dst, lo, hi, b)] succeeds exactly when every
    fixed position in [lo, hi) already carries [b] in the committed
    bits; on failure [dst] is untouched, and on success the bits of
    [dst] in [lo, hi) read [b] while every other bit keeps its value. *)
Theorem try_set_range_spec
    (v : sls_valuation) (dst : bvect) (l h : nat) (b : bool) :
  (forall i, (l <= i < h)%nat -> (i / digit_bits < length dst)%nat) ->
  (fst (try_set_range v dst l h b) = true <->
   forall i, (l <= i < h)%nat -> get (fixed v) i = true -> get_bit v i = b)
  /\ (fst (try_set_range v dst l h b) = false ->
      snd (try_set_range v dst l h b) = dst)
  /\ (fst (try_set_range v dst l h b) = true ->
      forall j, get (snd (try_set_range v dst l h b)) j
                = if ((l <=? j) && (j <? h))%nat then b else get dst j).
Proof.
  intros Hlen. unfold try_set_range.
  destruct (existsb _ _) eqn:Eex; cbn [fst snd].
  - split; [|split]; auto; try discriminate.
    split; [discriminate|]. intros Hall. exfalso.
    apply existsb_exists in Eex. destruct Eex as (i & Hi & Hc).
    apply in_seq in Hi. apply andb_prop in Hc. destruct Hc as [Hf Hne].
    rewrite (Hall i) in Hne by (auto; lia).
    rewrite Bool.eqb_reflx in Hne. discriminate.
  - split; [|split]; try discriminate.
    + split; [|reflexivity]. intros _ i Hi Hf.
      assert (Hnot : existsb (fun i => get (fixed v) i
                                       && negb (Bool.eqb (get_bit v i) b))
                             (seq l (h - l)) <> true) by congruence.
      destruct (Bool.eqb (get_bit v i) b) eqn:Eb.
      * now apply Bool.eqb_prop.
      * exfalso. apply Hnot. apply existsb_exists. exists i. split.
        -- apply in_seq. lia.
        -- rewrite Hf, Eb. reflexivity.
    + intros _ j. apply set_range_get. exact Hlen.
Qed.

Lemma try_set_range_spec_witness :
  get (snd (try_set_range example_valuation [0; 0] 0 4 true)) 2 = true
  /\ get (snd (try_set_range example_valuation [0; 0] 0 4 true)) 4 = false.
Proof.
  assert (Hlen : forall i, (0 <= i < 4)%nat ->
                           (i / digit_bits < length [0; 0])%nat).
  { intros i Hi. cbn [length].
    assert (i / digit_bits = 0)%nat by (apply Nat.div_small; unfold digit_bits; lia).
    lia. }
  destruct (try_set_range_spec example_valuation [0; 0] 0 4 true Hlen)
    as (_ & _ & Hget).
  split; rewrite Hget; reflexivity.
Defined.

(** ** Random moves: set_random_above, set_random_below, get_variant *)

Lemma repair_sign_loop_shaped (v : sls_valuation) (s : bool) (idxs : list nat) :
  forall dst, shaped v dst -> shaped v (repair_sign_loop v s dst idxs).
Proof.
  assert (Hset : forall d i b, shaped v d -> shaped v (set d i b)).
  { intros d i b [Hl Hw]. split; [rewrite length_set; exact Hl|].
    apply set_ok. exact Hw. }
  induction idxs as [|i rest IH]; intros dst Hd; cbn [repair_sign_loop]; auto.
  destruct (negb (Bool.eqb (get dst i) s)); [|apply IH; exact Hd].
  destruct (get (fixed v) i).
  - generalize (sign_range v). intros l. revert dst Hd.
    induction l as [|a l IHl]; intros dst Hd; cbn [fold_left]; auto.
    apply IHl. destruct (negb (get (fixed v) a)); auto.
  - apply IH. apply Hset. exact Hd.
Qed.

Lemma repair_sign_bits_shaped (v : sls_valuation) (dst : bvect) :
  shaped v dst -> shaped v (repair_sign_bits v dst).
Proof.
  intros Hd. unfold repair_sign_bits. destruct (_ =? _)%nat; auto.
  apply repair_sign_loop_shaped. exact Hd.
Qed.

Lemma mask_ok (v : sls_valuation) : valuation_ok v -> word_ok (mask v).
Proof.
  intros Hv. destruct (valuation_geometry v Hv) as (m & Hm & Hn & Eb & Em).
  rewrite Em, Z.ones_equiv.
  assert (0 < 2 ^ Z.of_nat m <= 2 ^ 32)
    by (split; [apply Z.pow_pos_nonneg|apply Z.pow_le_mono_r]; lia).
  unfold word_ok, wB. lia.
Qed.

Lemma get_clear_overflow_bits (v : sls_valuation) (x : bvect) (j : nat) :
  valuation_ok v -> shaped v x -> (j < bw v)%nat ->
  get (clear_overflow_bits v x) j = get x j.
Proof.
  intros Hv [Hl Hx] Hj.
  destruct (valuation_geometry v Hv) as (m & Hm & Hn & Eb & Em).
  assert (Hj' : (j < digit_bits * nw v)%nat) by (unfold digit_bits in *; lia).
  assert (Hc : words_ok (clear_overflow_bits v x)).
  { apply clear_overflow_ok; auto. apply mask_ok. exact Hv. }
  rewrite <- (testbit_get_value (nw v)) by auto.
  rewrite <- (testbit_get_value (nw v) x) by auto.
  rewrite clear_overflow_value by auto.
  apply Z.mod_pow2_bits_low. lia.
Qed.

Lemma agree_above_lt (n : nat) (a b : bvect) (i : nat) :
  words_ok a -> words_ok b -> (i <= digit_bits * n)%nat ->
  (forall j, (i <= j < digit_bits * n)%nat -> get a j = get b j) ->
  get_value n a < get_value n b + 2 ^ Z.of_nat i.
Proof.
  intros Ha Hb Hi Hagree.
  pose proof (get_value_bound n a Ha) as Ba.
  pose proof (get_value_bound n b Hb) as Bb.
  assert (Hp : 0 < 2 ^ Z.of_nat i) by (apply Z.pow_pos_nonneg; lia).
  assert (Hq : get_value n a / 2 ^ Z.of_nat i = get_value n b / 2 ^ Z.of_nat i).
  { apply Z.bits_inj'. intros k Hk.
    rewrite <- !Z.shiftr_div_pow2, !Z.shiftr_spec by lia.
    destruct (Z.lt_ge_cases (k + Z.of_nat i) (Z.of_nat (digit_bits * n)))
      as [Hlt|Hge].
    - replace (k + Z.of_nat i) with (Z.of_nat (Z.to_nat k + i)) by lia.
      rewrite !testbit_get_value by (auto; lia).
      apply Hagree. lia.
    - rewrite (testbit_above (get_value n a) (32 * Z.of_nat n)),
        (testbit_above (get_value n b) (32 * Z.of_nat n));
        auto; unfold digit_bits in Hge; lia. }
  pose proof (Z.div_mod (get_value n a) (2 ^ Z.of_nat i) ltac:(lia)) as Da.
  pose proof (Z.div_mod (get_value n b) (2 ^ Z.of_nat i) ltac:(lia)) as Db.
  pose proof (Z.mod_pos_bound (get_value n a) (2 ^ Z.of_nat i) Hp).
  pose proof (Z.mod_pos_bound (get_value n b) (2 ^ Z.of_nat i) Hp).
  rewrite Hq in Da. nia.
Qed.

Section RandomMoves.

Variable random_gen : Type.
Variable rand : random_gen -> Z * random_gen.

Lemma random_bits_fold_ok (l : list Z) :
  forall r g, word_ok r ->
    word_ok (fst (fold_left
                    (fun (st : digit_t * random_gen) i =>
                       let '(r, g) := st in
                       let '(x, g) := rand g in
                       (Z.lxor r (wrap (Z.shiftl x (8 * i))), g))
                    l (r, g))).
Proof.
  induction l as [|i l IH]; intros r g Hr; cbn [fold_left fst]; auto.
  destruct (rand g) as [x g']. apply IH. apply lxor_ok; [exact Hr|apply wrap_ok].
Qed.

Lemma random_bits_ok (g : random_gen) :
  word_ok (fst (random_bits random_gen rand g)).
Proof.
  unfold random_bits. apply random_bits_fold_ok.
  unfold word_ok. rewrite wB_eq. lia.
Qed.

Lemma above_fold (v : sls_valuation) (idxs : list nat) :
  forall d g, words_ok d ->
    let r := fst (fold_left
                    (fun (st : bvect * random_gen) i =>
                       let '(d, g) := st in
                       let '(x, g) := random_bits random_gen rand g in
                       (upd d i (Z.lor (wd d i)
                                       (Z.land x (wnot (wd (fixed v) i)))), g))
                    idxs (d, g)) in
    length r = length d /\ words_ok r
    /\ (forall j, wd d j <= wd r j)
    /\ keeps_fixed v d r.
Proof.
  induction idxs as [|i idxs IH]; intros d g Hd; cbn [fold_left].
  - cbn [fst]. split; [reflexivity|]. split; [exact Hd|].
    split; [intros; lia|apply keeps_fixed_refl].
  - pose proof (random_bits_ok g) as Hx.
    destruct (random_bits random_gen rand g) as [x g']. cbn [fst] in Hx.
    set (w := Z.lor (wd d i) (Z.land x (wnot (wd (fixed v) i)))).
    assert (Hw : word_ok w).
    { apply lor_ok; [apply wd_ok; auto|apply land_ok; auto using wnot_ok]. }
    assert (Hd1 : words_ok (upd d i w)) by (apply upd_ok; auto).
    destruct (IH (upd d i w) g' Hd1) as (Hl & Hok & Hle & Hk).
    cbv zeta. split; [rewrite Hl; apply length_upd|]. split; [exact Hok|].
    split.
    + intros j. eapply Z.le_trans; [|apply Hle].
      rewrite wd_upd. destruct ((j =? i)%nat && (i <? length d)%nat) eqn:E;
        [|lia].
      apply andb_prop in E. destruct E as [E _].
      apply Nat.eqb_eq in E. subst j.
      pose proof (wd_ok d i Hd) as Hdi. unfold word_ok in Hdi, Hw.
      apply subset_le; [lia|lia|]. unfold w.
      apply Z.bits_inj'. intros k _.
      rewrite Z.land_spec, Z.lor_spec.
      destruct (Z.testbit (wd d i) k); reflexivity.
    + eapply keeps_fixed_trans; [|exact Hk].
      intros j Hj. rewrite !get_testbit. rewrite wd_upd.
      destruct ((j / digit_bits =? i)%nat && (i <? length d)%nat) eqn:E;
        [|reflexivity].
      apply andb_prop in E. destruct E as [E _]. apply Nat.eqb_eq in E.
      rewrite get_testbit, E in Hj. unfold w.
      rewrite Z.lor_spec, Z.land_spec, testbit_wnot by lia.
      rewrite Hj, E. cbn [negb]. rewrite !Bool.andb_false_r, Bool.orb_false_r.
      reflexivity.
Qed.

Lemma variant_fold (v : sls_valuation) (idxs : list nat) :
  words_ok (fixed v) -> words_ok (m_bits v) ->
  forall d g, words_ok d ->
    let r := fst (fold_left
                    (fun (st : bvect * random_gen) i =>
                       let '(d, g) := st in
                       let '(x, g) := random_bits random_gen rand g in
                       (upd d i (Z.lor (Z.land x (wnot (wd (fixed v) i)))
                                       (Z.land (wd (fixed v) i)
                                               (wd (m_bits v) i))), g))
                    idxs (d, g)) in
    length r = length d /\ words_ok r
    /\ (forall j : nat,
           (In (j / digit_bits)%nat idxs /\ (j / digit_bits < length d)%nat)
           \/ (get (fixed v) j = true -> get d j = get (m_bits v) j) ->
           get (fixed v) j = true -> get r j = get (m_bits v) j).
Proof.
  intros Hfx Hbt.
  induction idxs as [|i idxs IH]; intros d g Hd; cbn [fold_left].
  - cbn [fst]. repeat split; auto. intros j [[[] _]|H]; exact H.
  - pose proof (random_bits_ok g) as Hx.
    destruct (random_bits random_gen rand g) as [x g']. cbn [fst] in Hx.
    set (w := Z.lor (Z.land x (wnot (wd (fixed v) i)))
                    (Z.land (wd (fixed v) i) (wd (m_bits v) i))).
    assert (Hw : word_ok w).
    { apply lor_ok; apply land_ok; auto using wnot_ok, wd_ok. }
    assert (Hd1 : words_ok (upd d i w)) by (apply upd_ok; auto).
    destruct (IH (upd d i w) g' Hd1) as (Hl & Hok & Hag).
    cbv zeta. split; [rewrite Hl; apply length_upd|]. split; [exact Hok|].
    intros j Hj Hfj. apply Hag; [|exact Hfj].
    rewrite length_upd.
    destruct (Nat.eq_dec (j / digit_bits) i) as [E|E].
    + destruct (Nat.lt_ge_cases i (length d)) as [Hlt|Hge].
      * right. intros _. rewrite (get_testbit (upd d i w)), wd_upd, E.
        rewrite Nat.eqb_refl. apply Nat.ltb_lt in Hlt. rewrite Hlt.
        cbn [andb]. unfold w.
        rewrite get_testbit, E in Hfj.
        rewrite Z.lor_spec, !Z.land_spec, testbit_wnot, Hfj by lia.
        cbn [negb andb]. rewrite !Bool.andb_false_r. cbn [orb].
        rewrite get_testbit, E. reflexivity.
      * destruct Hj as [[_ Hlt]|Hj]; [lia|].
        right. intros _. rewrite <- (Hj Hfj).
        rewrite !get_testbit, wd_upd.
        apply Nat.ltb_ge in Hge. rewrite Hge, Bool.andb_false_r. reflexivity.
    + destruct Hj as [[[Hin|Hin] Hlt]|Hj]; [congruence|left; auto|].
      right. intros _. rewrite <- (Hj Hfj).
      rewrite !get_testbit, wd_upd.
      apply Nat.eqb_neq in E. rewrite E. reflexivity.
Qed.

Lemma below_fold (v : sls_valuation) (idxs : list nat) :
  forall d g, shaped v d ->
    let r := fst (fold_left
                    (fun (st : bvect * random_gen) i =>
                       let '(d, g) := st in
                       if negb (get (fixed v) i) then
                         let '(x, g) := rand g in (set d i (x mod 2 =? 0), g)
                       else st)
                    idxs (d, g)) in
    shaped v r /\ keeps_fixed v d r
    /\ (forall j, ~ In j idxs -> get r j = get d j).
Proof.
  induction idxs as [|i idxs IH]; intros d g Hd; cbn [fold_left].
  - cbn [fst]. split; [exact Hd|]. split; [apply keeps_fixed_refl|reflexivity].
  - destruct (get (fixed v) i) eqn:Ef; cbn [negb].
    + destruct (IH d g Hd) as (Hs & Hk & Ho).
      cbv zeta. split; [exact Hs|]. split; [exact Hk|].
      intros j Hj. apply Ho. intros Hin. apply Hj. right. exact Hin.
    + destruct (rand g) as [x g'].
      assert (Hd1 : shaped v (set d i (x mod 2 =? 0))).
      { destruct Hd as [Hl Hw]. split; [rewrite length_set; exact Hl|].
        apply set_ok. exact Hw. }
      destruct (IH _ g' Hd1) as (Hs & Hk & Ho).
      cbv zeta. split; [exact Hs|]. split.
      * eapply keeps_fixed_trans; [apply set_keeps_fixed; exact Ef|exact Hk].
      * intros j Hj. rewrite Ho by (intros Hin; apply Hj; right; exact Hin).
        apply get_set_other. intros ->. apply Hj. left. reflexivity.
Qed.

Lemma pick_fold (v : sls_valuation) (dst : bvect) (idxs : list nat) :
  forall n idx g,
    (forall i, idx = Some i ->
               get dst i = true /\ get (fixed v) i = false) ->
    forall i,
      snd (fst (fold_left
                  (fun (st : Z * option nat * random_gen) i =>
                     let '(n, idx, g) := st in
                     if get dst i && negb (get (fixed v) i) then
                       let '(x, g) := rand g in
                       let n := n + 1 in
                       if x mod n =? 0 then (n, Some i, g) else (n, idx, g)
                     else st)
                  idxs (n, idx, g))) = Some i ->
      (In i idxs \/ idx = Some i)
      /\ get dst i = true /\ get (fixed v) i = false.
Proof.
  induction idxs as [|a idxs IH]; intros n idx g Hinv i; cbn [fold_left].
  - cbn [fst snd]. intros E. split; [right; exact E|apply Hinv; exact E].
  - destruct (get dst a && negb (get (fixed v) a)) eqn:Ec.
    + destruct (rand g) as [x g']. cbv zeta.
      apply andb_prop in Ec. destruct Ec as [Ea Eb].
      apply Bool.negb_true_iff in Eb.
      destruct (x mod (n + 1) =? 0).
      * intros E. apply IH in E.
        -- destruct E as [[Hin|Hs] Hp]; split; auto.
           ++ left. right. exact Hin.
           ++ left. left. congruence.
        -- intros i' Hi'. injection Hi' as <-. split; assumption.
      * intros E. apply IH in E; [|exact Hinv].
        destruct E as [[Hin|Hs] Hp]; split; auto. left. right. exact Hin.
    + intros E. apply IH in E; [|exact Hinv].
      destruct E as [[Hin|Hs] Hp]; split; auto. left. right. exact Hin.
Qed.

End RandomMoves.

(** X20. [set_random_above] never changes a fixed bit, and with no signed
    prefix it only adds bits: the value of [dst] does not go down. *)
Theorem set_random_above_only_raises
    (random_gen : Type) (rand : random_gen -> Z * random_gen)
    (v : sls_valuation) (dst : bvect) (g : random_gen) :
  shaped v dst ->
  shaped v (fst (set_random_above random_gen rand v dst g))
  /\ keeps_fixed v dst (fst (set_random_above random_gen rand v dst g))
  /\ (m_signed_prefix v = 0%nat ->
      get_value (nw v) dst
      <= get_value (nw v) (fst (set_random_above random_gen rand v dst g))).
Proof.
  intros [Hl Hw]. unfold set_random_above.
  pose proof (above_fold random_gen rand v (seq 0 (nw v)) dst g Hw) as H.
  destruct (fold_left _ _ _) as [d1 g1]. cbn [fst] in *.
  destruct H as (Hl1 & Hw1 & Hle & Hk).
  assert (Hs1 : shaped v d1) by (split; [rewrite Hl1; exact Hl|exact Hw1]).
  split; [apply repair_sign_bits_shaped; exact Hs1|]. split.
  - eapply keeps_fixed_trans; [exact Hk|apply repair_sign_bits_keeps_fixed].
  - intros Hu. rewrite repair_sign_bits_unsigned by exact Hu.
    apply get_value_le. intros i _. apply Hle.
Qed.

Lemma set_random_above_only_raises_witness :
  7 <= get_value 1 (fst (set_random_above nat counter_rand seven_valuation
                           [7; 0] 0%nat)).
Proof.
  refine (proj2 (proj2 (set_random_above_only_raises nat counter_rand
                          seven_valuation [7; 0] 0%nat _)) eq_refl).
  exact (shapedb_sound seven_valuation [7; 0] eq_refl).
Defined.

(** X21. [set_random_below] never changes a fixed bit, and with no signed
    prefix it either leaves [dst] as it is or strictly lowers its value. *)
Theorem set_random_below_only_lowers
    (random_gen : Type) (rand : random_gen -> Z * random_gen)
    (v : sls_valuation) (dst : bvect) (g : random_gen) :
  valuation_ok v -> shaped v dst ->
  shaped v (fst (set_random_below random_gen rand v dst g))
  /\ keeps_fixed v dst (fst (set_random_below random_gen rand v dst g))
  /\ (m_signed_prefix v = 0%nat ->
      fst (set_random_below random_gen rand v dst g) = dst
      \/ get_value (nw v) (fst (set_random_below random_gen rand v dst g))
         < get_value (nw v) dst).
Proof.
  intros Hv Hd. unfold set_random_below.
  assert (Hsame : shaped v dst /\ keeps_fixed v dst dst
                  /\ (m_signed_prefix v = 0%nat ->
                      dst = dst \/ get_value (nw v) dst < get_value (nw v) dst)).
  { split; [exact Hd|]. split; [apply keeps_fixed_refl|auto]. }
  destruct (is_zero v dst); [exact Hsame|].
  pose proof (pick_fold random_gen rand v dst (seq 0 (bw v)) 0 None g) as Hpick.
  destruct (fold_left _ _ _) as [[n idx] g1]. cbn [fst snd] in Hpick.
  destruct idx as [i|]; [|exact Hsame].
  destruct (Hpick ltac:(intros ? H; discriminate H) i eq_refl)
    as ([Hin|Hin] & Hdi & Hfi); [|discriminate Hin].
  apply in_seq in Hin.
  destruct (valuation_geometry v Hv) as (m & Hm & Hn & Eb & Em).
  assert (Hi : (i < digit_bits * nw v)%nat) by (unfold digit_bits in *; lia).
  assert (Hd0 : shaped v (set dst i false)).
  { destruct Hd as [Hl Hw]. split; [rewrite length_set; exact Hl|].
    apply set_ok. exact Hw. }
  pose proof (below_fold random_gen rand v (seq 0 i) (set dst i false) g1 Hd0)
    as H.
  destruct (fold_left _ _ _) as [d1 g2]. cbn [fst] in *.
  destruct H as (Hs1 & Hk & Ho).
  split; [apply repair_sign_bits_shaped; exact Hs1|]. split.
  - eapply keeps_fixed_trans; [|apply repair_sign_bits_keeps_fixed].
    eapply keeps_fixed_trans; [apply set_keeps_fixed; exact Hfi|exact Hk].
  - intros Hu. right. rewrite repair_sign_bits_unsigned by exact Hu.
    pose proof (agree_above_lt (nw v) d1 (set dst i false) i
                  (proj2 Hs1) (proj2 Hd0) ltac:(lia)) as Hlt.
    rewrite set_value_change in Hlt by (auto; apply Hd).
    rewrite Hdi in Hlt. cbn [Z.b2z] in Hlt.
    assert (get_value (nw v) d1
            < get_value (nw v) dst + (0 - 1) * 2 ^ Z.of_nat i + 2 ^ Z.of_nat i);
      [|lia].
    apply Hlt. intros j Hj. apply Ho. rewrite in_seq. lia.
Qed.

Lemma set_random_below_only_lowers_witness :
  get_value 1 (fst (set_random_below nat counter_rand seven_valuation
                      [7; 0] 0%nat)) < 7.
Proof.
  destruct (set_random_below_only_lowers nat counter_rand seven_valuation
              [7; 0] 0%nat
              (valuation_okb_sound seven_valuation eq_refl)
              (shapedb_sound seven_valuation [7; 0] eq_refl))
    as (_ & _ & H).
  destruct (H eq_refl) as [E|E]; [vm_compute in E; discriminate E|exact E].
Defined.

(** X22. [get_variant] yields a vector without overflow bits that carries
    the committed bit at every fixed position below [bw]; when the
    committed bits have no overflow themselves, such a variant can be set
    exactly when it is in range. *)
Theorem get_variant_agrees_on_fixed
    (random_gen : Type) (rand : random_gen -> Z * random_gen)
    (v : sls_valuation) (dst : bvect) (g : random_gen) :
  valuation_ok v -> shaped v dst ->
  shaped v (fst (get_variant random_gen rand v dst g))
  /\ has_overflow v (fst (get_variant random_gen rand v dst g)) = false
  /\ (forall j, (j < bw v)%nat -> get (fixed v) j = true ->
                get (fst (get_variant random_gen rand v dst g)) j
                = get (m_bits v) j)
  /\ (has_overflow v (m_bits v) = false ->
      can_set v (fst (get_variant random_gen rand v dst g))
      = in_range v (fst (get_variant random_gen rand v dst g))).
Proof.
  intros Hv Hd. unfold get_variant.
  assert (Hfx : shaped v (fixed v)) by apply Hv.
  assert (Hbt : shaped v (m_bits v)) by apply Hv.
  pose proof (variant_fold random_gen rand v (seq 0 (nw v))
                (proj2 Hfx) (proj2 Hbt) dst g (proj2 Hd)) as H.
  destruct (fold_left _ _ _) as [d1 g1]. cbn [fst] in *.
  destruct H as (Hl1 & Hw1 & Hag).
  destruct (valuation_geometry v Hv) as (m & Hm & Hn & Eb & Em).
  assert (Hs1 : shaped v d1).
  { split; [rewrite Hl1; apply Hd|exact Hw1]. }
  pose proof (repair_sign_bits_shaped v d1 Hs1) as Hs2.
  pose proof (repair_sign_bits_keeps_fixed v d1) as Hk.
  set (d2 := repair_sign_bits v d1) in *.
  assert (Hs3 : shaped v (clear_overflow_bits v d2)).
  { split.
    - unfold clear_overflow_bits. rewrite length_upd. apply Hs2.
    - apply clear_overflow_ok; [apply mask_ok; exact Hv|apply Hs2]. }
  assert (Hov : has_overflow v (clear_overflow_bits v d2) = false).
  { apply has_overflow_value; [exact Hv|apply Hs3|].
    rewrite clear_overflow_value by (auto; apply Hs2).
    apply Z.mod_pos_bound. apply Z.pow_pos_nonneg; lia. }
  assert (Hfixed : forall j, (j < bw v)%nat -> get (fixed v) j = true ->
                             get (clear_overflow_bits v d2) j
                             = get (m_bits v) j).
  { intros j Hj Hf. rewrite get_clear_overflow_bits by auto.
    rewrite (Hk j Hf). apply Hag; [|exact Hf]. left.
    assert (Hjw : (j / digit_bits < nw v)%nat).
    { apply Nat.Div0.div_lt_upper_bound. unfold digit_bits in *. lia. }
    split; [apply in_seq; lia|]. destruct Hd as [Hl _]. lia. }
  split; [exact Hs3|]. split; [exact Hov|]. split; [exact Hfixed|].
  intros Hob. unfold can_set.
  assert (Hagree : agree_fixed v (clear_overflow_bits v d2) (m_bits v) = true).
  { apply agree_fixed_bits; [apply Hfx|]. intros j Hj Hf.
    destruct (Nat.lt_ge_cases j (bw v)) as [Hlt|Hge].
    - apply Hfixed; assumption.
    - rewrite (high_bits_clear v (clear_overflow_bits v d2) j),
        (high_bits_clear v (m_bits v) j); auto; apply Hs3 || apply Hbt. }
  rewrite Hagree. reflexivity.
Qed.

Lemma get_variant_agrees_on_fixed_witness :
  get (fst (get_variant nat counter_rand example_valuation [0; 0] 0%nat)) 0
  = true.
Proof.
  destruct (get_variant_agrees_on_fixed nat counter_rand example_valuation
              [0; 0] 0%nat
              (valuation_okb_sound example_valuation eq_refl)
              (shapedb_sound example_valuation [0; 0] eq_refl))
    as (_ & _ & H & _).
  rewrite (H 0%nat); [reflexivity| |reflexivity].
  cbn [bw example_valuation]. lia.
Defined.

(** ** A freshly constructed valuation *)

(** X23. A freshly constructed valuation satisfies the representation
    invariant, is well formed and has no range: every vector is in range,
    the vectors [can_set] accepts are exactly those without overflow
    bits, and [try_set] succeeds on each of them. *)
Theorem fresh_valuation_accepts_no_overflow (b : nat) :
  (0 < b)%nat ->
  valuation_ok (new_valuation b)
  /\ well_formed (new_valuation b) = true
  /\ has_range (new_valuation b) = false
  /\ (forall x, in_range (new_valuation b) x = true)
  /\ (forall x, can_set (new_valuation b) x
                = negb (has_overflow (new_valuation b) x))
  /\ (forall x, has_overflow (new_valuation b) x = false ->
                try_set (new_valuation b) x
                = (true, set_eval (new_valuation b) x)).
Proof.
  intros Hb.
  pose proof (new_valuation_ok b Hb) as Hv.
  assert (Heq : mpn_compare (m_lo (new_valuation b)) (m_hi (new_valuation b))
                            (nw (new_valuation b)) = Eq).
  { rewrite mpn_compare_spec by apply Hv. apply Z.compare_refl. }
  assert (Hin : forall x, in_range (new_valuation b) x = true).
  { intros x. unfold in_range. rewrite Heq. reflexivity. }
  assert (Hbits : forall i, wd (m_bits (new_valuation b)) i = 0).
  { intros i. unfold new_valuation, reserve. cbn [m_bits app].
    apply wd_repeat0. }
  assert (Hcan : forall x, can_set (new_valuation b) x
                           = negb (has_overflow (new_valuation b) x)).
  { intros x. unfold can_set. rewrite Hin.
    destruct (has_overflow (new_valuation b) x) eqn:Eo; cbn [negb].
    - destruct (agree_fixed (new_valuation b) x (m_bits (new_valuation b)))
        eqn:Ea; [|reflexivity].
      unfold agree_fixed in Ea. rewrite agree_from_spec in Ea.
      assert (Hn : (0 < nw (new_valuation b))%nat).
      { destruct (valuation_geometry _ Hv) as (m & _ & Hn & _). exact Hn. }
      specialize (Ea (nw (new_valuation b) - 1)%nat ltac:(lia)).
      rewrite new_valuation_fixed_word, Hbits, Z.lxor_0_r in Ea.
      cbn [nw new_valuation] in Ea. rewrite Nat.eqb_refl in Ea.
      assert (Hf : has_overflow (new_valuation b) x = false).
      { apply has_overflow_false. cbn [nw mask new_valuation].
        rewrite Z.land_comm. exact Ea. }
      congruence.
    - destruct (agree_fixed (new_valuation b) x (m_bits (new_valuation b)))
        eqn:Ea; [reflexivity|].
      assert (Ht : agree_fixed (new_valuation b) x (m_bits (new_valuation b))
                   = true); [|congruence].
      unfold agree_fixed. apply agree_from_spec. intros j Hj.
      rewrite new_valuation_fixed_word, Hbits, Z.lxor_0_r.
      destruct (Nat.eqb_spec j (nw_of b - 1)) as [->|_]; [|apply Z.land_0_l].
      apply has_overflow_false in Eo. cbn [nw mask new_valuation] in Eo.
      rewrite Z.land_comm. exact Eo. }
  split; [exact Hv|]. split; [|split; [|split; [exact Hin|split; [exact Hcan|]]]].
  - unfold well_formed. rewrite Hin, Bool.orb_true_r, Bool.andb_true_r.
    apply Bool.negb_true_iff. apply has_overflow_false.
    rewrite Hbits. apply Z.land_0_l.
  - unfold has_range, bne, beq. rewrite Heq. reflexivity.
  - intros x Hx. unfold try_set. rewrite Hcan, Hx. reflexivity.
Qed.

Lemma fresh_valuation_accepts_no_overflow_witness :
  can_set (new_valuation 8) [200; 0] = true
  /\ can_set (new_valuation 8) [256; 0] = false.
Proof.
  destruct (fresh_valuation_accepts_no_overflow 8 ltac:(lia))
    as (_ & _ & _ & _ & H & _).
  split; rewrite H; reflexivity.
Defined.

(** ** tighten_range: the lower bound after tightening *)

Lemma fold_set_get_list (f : nat -> bool) (l : list nat) :
  forall (x : bvect) (j : nat),
    (forall i, In i l -> (i / digit_bits < length x)%nat) ->
    get (fold_left (fun d i => set d i (f i)) l x) j
    = if existsb (Nat.eqb j) l then f j else get x j.
Proof.
  induction l as [|a l IH]; intros x j Hlen; cbn [fold_left existsb].
  - reflexivity.
  - rewrite IH by (intros i Hi; rewrite length_set; apply Hlen; right; exact Hi).
    rewrite get_set by (apply Hlen; left; reflexivity).
    destruct (existsb (Nat.eqb j) l) eqn:E.
    + rewrite Bool.orb_true_r. reflexivity.
    + rewrite Bool.orb_false_r.
      destruct (Nat.eqb_spec j a) as [->|_]; reflexivity.
Qed.

Lemma existsb_rev_seq (j n : nat) :
  existsb (Nat.eqb j) (rev (seq 0 n)) = (j <? n)%nat.
Proof.
  destruct (Nat.ltb_spec j n) as [Hlt|Hge].
  - apply existsb_exists. exists j. split; [|apply Nat.eqb_refl].
    apply in_rev. rewrite rev_involutive. apply in_seq. lia.
  - apply Bool.not_true_is_false. intros H.
    apply existsb_exists in H. destruct H as (i & Hi & E).
    apply Nat.eqb_eq in E. subst i.
    apply in_rev in Hi. apply in_seq in Hi. lia.
Qed.

Lemma tighten_lo_frame (v : sls_valuation) (cnt : nat) :
  m_bits (tighten_lo v cnt) = m_bits v
  /\ m_hi (tighten_lo v cnt) = m_hi v
  /\ fixed (tighten_lo v cnt) = fixed v
  /\ eval (tighten_lo v cnt) = eval v
  /\ bw (tighten_lo v cnt) = bw v.
Proof.
  induction cnt as [|i IH]; cbn [tighten_lo]; [repeat split|].
  destruct (negb (get (fixed v) i)); [exact IH|].
  destruct (Bool.eqb _ _); [exact IH|].
  destruct (get (m_bits v) i); repeat split.
Qed.

Lemma tighten_lo_agrees (v : sls_valuation) (cnt : nat) :
  valuation_ok v -> (cnt <= bw v)%nat ->
  (forall j, (cnt <= j < bw v)%nat -> get (fixed v) j = true ->
             get (m_lo v) j = get (m_bits v) j) ->
  forall j, (j < bw v)%nat -> get (fixed v) j = true ->
            get (m_lo (tighten_lo v cnt)) j = get (m_bits v) j.
Proof.
  intros Hv. 
  destruct (valuation_geometry v Hv) as (m & Hm & Hn & Eb & Em).
  assert (Hlo : shaped v (m_lo v)) by apply Hv.
  assert (Hlen : forall i, (i < bw v)%nat ->
                           (i / digit_bits < length (m_lo v))%nat).
  { intros i Hi. destruct Hlo as [Hl _].
    assert (i / digit_bits < nw v)%nat; [|lia].
    apply Nat.Div0.div_lt_upper_bound. unfold digit_bits in *. lia. }
  induction cnt as [|i IH]; intros Hc Hhigh j Hj Hf; cbn [tighten_lo].
  - apply Hhigh; [lia|exact Hf].
  - destruct (get (fixed v) i) eqn:Efi; cbn [negb].
    + destruct (Bool.eqb (get (m_bits v) i) (get (m_lo v) i)) eqn:Ee.
      * apply IH; auto; [lia|]. intros k Hk Hfk.
        destruct (Nat.eq_dec k i) as [->|Hne].
        -- apply Bool.eqb_prop in Ee. congruence.
        -- apply Hhigh; [lia|exact Hfk].
      * destruct (get (m_bits v) i) eqn:Ebi; cbn [m_lo with_lo].
        -- rewrite fold_set_get_list.
           ++ rewrite existsb_rev_seq, Hf. cbn [andb].
              destruct (Nat.ltb_spec j i) as [Hlt|Hge]; [reflexivity|].
              rewrite get_set by (apply Hlen; lia).
              destruct (Nat.eqb_spec j i) as [->|Hne]; [congruence|].
              apply Hhigh; [lia|exact Hf].
           ++ intros k Hk. rewrite length_set. apply Hlen.
              apply in_rev in Hk. apply in_seq in Hk. lia.
        -- rewrite fold_set_get_list.
           ++ rewrite existsb_rev_seq, Hf. cbn [andb].
              apply Nat.ltb_lt in Hj. rewrite Hj. reflexivity.
           ++ intros k Hk. apply Hlen.
              apply in_rev in Hk. apply in_seq in Hk. lia.
    + apply IH; auto; [lia|]. intros k Hk Hfk.
      destruct (Nat.eq_dec k i) as [->|Hne]; [congruence|].
      apply Hhigh; [lia|exact Hfk].
Qed.

Lemma repeat0_ok (n : nat) : words_ok (repeat 0 n).
Proof.
  unfold words_ok. apply Forall_forall. intros x Hx.
  apply repeat_spec in Hx. subst. unfold word_ok. rewrite wB_eq. lia.
Qed.

Lemma tighten_bits_ok (v : sls_valuation) :
  valuation_ok v -> words_ok (tighten_bits v).
Proof.
  intros Hv. unfold tighten_bits.
  set (tmp0 := fold_left _ (seq 0 (_ + 1)) _).
  assert (H0 : words_ok tmp0).
  { apply fold_set_ok. apply copy_to_ok; [apply Hv|].
    unfold reserve, words_ok. apply Forall_app. split; apply repeat0_ok. }
  generalize (seq (fold_left
                     (fun md i =>
                        if get (fixed v) i
                           && xorb (get (m_bits v) i) (get (m_lo v) i)
                        then i else md) (seq 0 (bw v)) (bw v) + 1)
                  (bw v - (fold_left
                     (fun md i =>
                        if get (fixed v) i
                           && xorb (get (m_bits v) i) (get (m_lo v) i)
                        then i else md) (seq 0 (bw v)) (bw v) + 1))).
  intros l. generalize false. revert H0. generalize tmp0.
  induction l as [|a l IH]; intros t Ht f0; cbn [fold_left].
  - exact Ht.
  - destruct (f0 || get (m_lo v) a || get (fixed v) a);
      apply IH; apply set_ok; exact Ht.
Qed.

(** X24. [tighten_range] never changes [hi], [fixed] or [eval], leaves
    [m_bits] alone when they are in range, and, when the valuation has a
    range, leaves a lower bound that carries the committed bit at every
    fixed position below [bw]. *)
Theorem tighten_range_lo_agrees_on_fixed (v : sls_valuation) :
  valuation_ok v ->
  m_hi (tighten_range v) = m_hi v
  /\ fixed (tighten_range v) = fixed v
  /\ eval (tighten_range v) = eval v
  /\ (in_range v (m_bits v) = true -> m_bits (tighten_range v) = m_bits v)
  /\ (has_range v = true ->
      forall j, (j < bw v)%nat -> get (fixed v) j = true ->
                get (m_lo (tighten_range v)) j
                = get (m_bits (tighten_range v)) j).
Proof.
  intros Hv. unfold tighten_range, has_range, bne.
  destruct (beq (nw v) (m_lo v) (m_hi v)).
  - repeat split; auto. intros H; discriminate H.
  - set (v1 := if negb (in_range v (m_bits v)) then _ else v).
    assert (Hframe : m_lo v1 = m_lo v /\ m_hi v1 = m_hi v
                     /\ fixed v1 = fixed v /\ eval v1 = eval v
                     /\ bw v1 = bw v /\ nw v1 = nw v /\ mask v1 = mask v
                     /\ shaped v (m_bits v1)
                     /\ (in_range v (m_bits v) = true -> m_bits v1 = m_bits v)).
    { unfold v1. destruct (in_range v (m_bits v)); cbn [negb].
      - repeat split; auto; apply Hv.
      - assert (Hs : forall src, words_ok src ->
                       shaped v (copy_to src (nw v) (m_bits v))).
        { intros src Hsrc. split.
          - rewrite copy_to_length. apply Hv.
          - apply copy_to_ok; [exact Hsrc|apply Hv]. }
        destruct (agree_fixed v (m_bits v) (m_lo v)); cbn.
        + repeat split; try apply Hs; try apply Hv; intros H; discriminate H.
        + repeat split; try (intros H; discriminate H).
          * rewrite copy_to_length. apply Hv.
          * apply copy_to_ok; [|apply Hv]. apply tighten_bits_ok. exact Hv. }
    destruct Hframe as (El & Eh & Ef & Ee & Ew & En & Em & Hsb & Hb).
    assert (Hv1 : valuation_ok v1).
    { unfold valuation_ok, shaped in *.
      rewrite El, Eh, Ef, Ee, Ew, En, Em. intuition. }
    destruct (tighten_lo_frame v1 (bw v1)) as (Fb & Fh & Ff & Fe & Fw).
    split; [congruence|]. split; [congruence|]. split; [congruence|].
    split; [intros H; rewrite Fb; apply Hb; exact H|].
    intros _ j Hj Hfj. rewrite Fb.
    apply tighten_lo_agrees; auto; try lia; try congruence.
Qed.

Lemma tighten_range_lo_agrees_on_fixed_witness :
  get (m_lo (tighten_range late_fixed_valuation)) 0
  = get (m_bits (tighten_range late_fixed_valuation)) 0.
Proof.
  destruct (tighten_range_lo_agrees_on_fixed late_fixed_valuation
              (valuation_okb_sound late_fixed_valuation eq_refl))
    as (_ & _ & _ & _ & H).
  apply H; [reflexivity| |reflexivity].
  vm_compute. lia.
Defined.

(** ** Constant setters and the sign *)

Lemma get_value_low_word (n : nat) (a : bvect) :
  (1 <= n)%nat -> (forall i, (1 <= i < n)%nat -> wd a i = 0) ->
  get_value n a = wd a 0.
Proof.
  intros Hn Hall. induction n as [|n IH]; [lia|].
  cbn [get_value]. destruct (Nat.eq_dec n 0) as [->|Hn0].
  - cbn [get_value]. change (2 ^ (32 * Z.of_nat 0)) with 1. lia.
  - rewrite IH by (try lia; intros; apply Hall; lia).
    rewrite (Hall n) by lia. lia.
Qed.

(** X25. The constant setters write what their names say: after
    [set_zero] the vector has value 0 and passes [is_zero], after
    [set_one] it has value 1 and passes [is_one], [set(dst, x)] gives
    the value [x], [get_bits] copies the committed value, and [sign] is
    bit [bw - 1] of the committed value. *)
Theorem constant_setters_values (v : sls_valuation) (out : bvect) (x : Z) :
  valuation_ok v -> shaped v out -> word_ok x ->
  get_value (nw v) (set_zero v out) = 0
  /\ is_zero v (set_zero v out) = true
  /\ get_value (nw v) (set_one v out) = 1
  /\ is_one v (set_one v out) = true
  /\ get_value (nw v) (set_unsigned v out x) = x
  /\ get_value (nw v) (get_bits v out) = bits_value v
  /\ sign v = Z.testbit (bits_value v) (Z.of_nat (bw v - 1)).
Proof.
  intros Hv [Hlen Hout] Hx.
  destruct (valuation_geometry v Hv) as (m & Hm & Hn & Eb & Em).
  assert (Hz : forall i, (i < nw v)%nat -> wd (set_zero v out) i = 0).
  { intros i Hi. unfold set_zero. rewrite (wd_fold_seq (fun _ => 0)).
    destruct (Nat.leb_spec 0 i), (Nat.ltb_spec i (0 + nw v)),
      (Nat.ltb_spec i (length out)); cbn [andb]; auto; lia. }
  assert (Ho : wd (set_one v out) 0 = 1
               /\ forall i, (1 <= i < nw v)%nat -> wd (set_one v out) i = 0).
  { unfold set_one. split.
    - rewrite wd_upd, (fold_upd_length (fun _ _ => 0)).
      destruct (Nat.ltb_spec 0 (length out)); [reflexivity|lia].
    - intros i Hi. rewrite wd_upd.
      destruct (Nat.eqb_spec i 0) as [->|_]; [lia|]. cbn [andb].
      rewrite (wd_fold_seq (fun _ => 0)).
      destruct (Nat.leb_spec 1 i), (Nat.ltb_spec i (1 + (nw v - 1))),
        (Nat.ltb_spec i (length out)); cbn [andb]; auto; lia. }
  assert (Hu : wd (set_unsigned v out x) 0 = x
               /\ forall i, (1 <= i < nw v)%nat ->
                            wd (set_unsigned v out x) i = 0).
  { unfold set_unsigned. split.
    - rewrite (wd_fold_seq (fun _ => 0)). cbn [Nat.leb andb].
      rewrite wd_upd. destruct (Nat.ltb_spec 0 (length out)); [reflexivity|lia].
    - intros i Hi. rewrite (wd_fold_seq (fun _ => 0)), length_upd.
      destruct (Nat.leb_spec 1 i), (Nat.ltb_spec i (1 + (nw v - 1))),
        (Nat.ltb_spec i (length out)); cbn [andb]; auto; lia. }
  split; [|split; [|split; [|split; [|split; [|split]]]]].
  - rewrite <- (get_value_ext (nw v) (repeat 0 (nw v))).
    + apply get_value_zero_iff; [apply repeat0_ok|]. intros; apply wd_repeat0.
    + intros i Hi. rewrite wd_repeat0, Hz; auto.
  - unfold is_zero. apply andb_true_intro. split.
    + apply forallb_seq. intros i Hi. apply Z.eqb_eq. apply Hz. lia.
    + rewrite Hz by lia. reflexivity.
  - rewrite get_value_low_word; [apply Ho|lia|apply Ho].
  - unfold is_one. apply andb_true_intro. split.
    + apply forallb_seq. intros i Hi. apply Z.eqb_eq. symmetry.
      apply Ho. lia.
    + apply Z.eqb_eq. symmetry. apply Ho.
  - rewrite get_value_low_word; [apply Hu|lia|apply Hu].
  - unfold get_bits, bits_value. apply get_value_copy_to; auto.
  - unfold sign, bits_value. symmetry. apply testbit_get_value.
    + apply Hv.
    + unfold digit_bits in *. lia.
Qed.

Lemma constant_setters_values_witness :
  get_value 1 (set_unsigned example_valuation [9; 9] 200) = 200
  /\ get_value 1 (set_one example_valuation [9; 9]) = 1.
Proof.
  destruct (constant_setters_values example_valuation [9; 9] 200
              (valuation_okb_sound example_valuation eq_refl)
              (shapedb_sound example_valuation [9; 9] eq_refl)
              ltac:(unfold word_ok; rewrite wB_eq; lia))
    as (_ & _ & H1 & _ & Hu & _).
  split; [exact Hu|exact H1].
Defined.

(** ** try_set_bit on a valuation whose committed bits are in range *)

(** X26. When the committed bits are in range, as [try_set_bit] asserts
    on entry, it succeeds exactly when position [i] is not fixed to the
    other value; on success only [eval] changes, bit [i] of it reads [b]
    and every other bit keeps its value; on failure the valuation is
    unchanged. *)
Theorem try_set_bit_in_range (v : sls_valuation) (i : nat) (b : bool) :
  in_range v (m_bits v) = true ->
  (i / digit_bits < length (eval v))%nat ->
  fst (try_set_bit v i b)
  = negb (get (fixed v) i && negb (Bool.eqb (get_bit v i) b))
  /\ (fst (try_set_bit v i b) = true ->
      snd (try_set_bit v i b) = with_eval v (set (eval v) i b)
      /\ forall j, get (eval (snd (try_set_bit v i b))) j
                   = if (j =? i)%nat then b else get (eval v) j)
  /\ (fst (try_set_bit v i b) = false -> snd (try_set_bit v i b) = v).
Proof.
  intros Hin Hi. unfold try_set_bit.
  destruct (get (fixed v) i && negb (Bool.eqb (get_bit v i) b));
    cbn [negb fst snd].
  - split; [reflexivity|]. split; [intros H; discriminate H|reflexivity].
  - change (in_range (with_eval v (set (eval v) i b))
                     (m_bits (with_eval v (set (eval v) i b))))
      with (in_range v (m_bits v)).
    rewrite Hin. cbn [fst snd]. split; [reflexivity|].
    split; [|intros H; discriminate H].
    intros _. split; [reflexivity|]. intros j. cbn [eval with_eval].
    apply get_set. exact Hi.
Qed.

Lemma try_set_bit_in_range_witness :
  fst (try_set_bit example_valuation 3 true) = true
  /\ fst (try_set_bit example_valuation 0 false) = false.
Proof.
  destruct (try_set_bit_in_range example_valuation 3 true eq_refl
              ltac:(vm_compute; lia)) as (H1 & _).
  destruct (try_set_bit_in_range example_valuation 0 false eq_refl
              ltac:(vm_compute; lia)) as (H2 & _).
  split; [rewrite H1|rewrite H2]; reflexivity.
Defined.

(** ** The clamping round_up and round_down *)

(** X27. The clamping [round_up(dst)] fails exactly on a non-wrapped
    range with [hi <= dst]; when it succeeds the result is in range, is
    not below [dst], and is either [dst] itself or [lo].  The clamping
    [round_down(dst)] fails exactly on a non-wrapped range with
    [dst < lo]; when it succeeds the result is in range and is either
    [dst] itself or [hi - 1] modulo [2^bw]. *)
Theorem range_clamping (v : sls_valuation) (dst : bvect) :
  valuation_ok v -> shaped v dst ->
  has_overflow v (m_lo v) = false -> has_overflow v (m_hi v) = false ->
  (fst (round_up v dst) = false <->
   lo v < hi v /\ hi v <= get_value (nw v) dst)
  /\ (fst (round_up v dst) = true ->
      in_range v (snd (round_up v dst)) = true
      /\ get_value (nw v) dst <= get_value (nw v) (snd (round_up v dst))
      /\ (snd (round_up v dst) = dst
          \/ get_value (nw v) (snd (round_up v dst)) = lo v))
  /\ (fst (round_down v dst) = false <->
      lo v < hi v /\ get_value (nw v) dst < lo v)
  /\ (fst (round_down v dst) = true ->
      in_range v (snd (round_down v dst)) = true
      /\ (snd (round_down v dst) = dst
          \/ get_value (nw v) (snd (round_down v dst))
             = (hi v - 1) mod 2 ^ Z.of_nat (bw v))).
Proof.
  intros Hv Hd Hlo Hhi.
  destruct (round_up_spec v dst Hv Hd) as (Hu1 & Hu2 & _).
  destruct (round_down_spec v dst Hv Hd Hlo Hhi) as (Hd1 & Hd2 & _).
  split; [exact Hu1|]. split; [exact Hu2|]. split; [exact Hd1|exact Hd2].
Qed.

Lemma range_clamping_witness :
  fst (round_up ranged_valuation [12; 0]) = false
  /\ get_value 1 (snd (round_down ranged_valuation [12; 0])) = 9.
Proof.
  destruct (range_clamping ranged_valuation [12; 0]
              (valuation_okb_sound ranged_valuation eq_refl)
              (shapedb_sound ranged_valuation [12; 0] eq_refl)
              eq_refl eq_refl) as (Hu & _ & _ & Hd).
  split.
  - apply Hu. vm_compute. split; [reflexivity|discriminate].
  - destruct (Hd eq_refl) as (_ & [E|E]).
    + vm_compute in E. discriminate E.
    + etransitivity; [exact E|reflexivity].
Defined.
